(** * Banking chatbot: dialogue state machine and rule-based entity extractor

    A shallow embedding of
      - [nlu_engine/entity_extractor.py]  (class [EntityExtractor]),
      - [dialogue_manager/dialogue_handler.py] (class [DialogueManager],
        function [log_interaction]),
      - [nlu_engine/domain_gate.py] (function [is_banking_query]) and
      - the chat turn of the page: [NLUProcessor.process] of
        [nlu_engine/nlu_router.py] and the chatbot branch of [app.py],
    followed by the properties of these components.

    Conventions of the embedding.
      - A Python [str] is the [string] of its UTF-8 bytes.  The character
        classes of [str.strip], [str.lower], [str.isdigit], [int] and of the
        regular expressions ([\s], [\d], [\w], [\b], [re.I]) are those of the
        ASCII range; a byte above 127 is neither a space, a digit nor a word
        character and has no other case.
      - [int] is the one of CPython 3.11 and later with the default
        [sys.int_max_str_digits]: a literal of more than 4300 digits raises
        [ValueError]; around a literal it skips TAB..CR and the blank only.
      - Positions in a text are byte offsets; on ASCII text they are the
        offsets Python reports, and the order of positions is the same on
        every text.
      - A Python exception is a value [Raised e] of the result type;
        collaborators (the banking gateway, the SQLite connection) are
        functions over an abstract world that may raise as well. *)

From Stdlib Require Import String Ascii List Bool Arith ZArith QArith Lia.
From stdpp Require Import base option list gmap strings.
Import ListNotations.

#[local] Open Scope string_scope.
#[local] Open Scope list_scope.
#[local] Open Scope nat_scope.

(** ** Text: the builtins of [str] used by the program *)

Module Text.

Definition chars (s : string) : list ascii := list_ascii_of_string s.
Definition text (l : list ascii) : string := string_of_list_ascii l.

Definition code (c : ascii) : nat := nat_of_ascii c.

(** [str.isspace] on one ASCII character: TAB..CR, FS..US and the blank. *)
Definition is_space (c : ascii) : bool :=
  let n := code c in
  ((9 <=? n) && (n <=? 13)) || ((28 <=? n) && (n <=? 32)).

Definition is_digit (c : ascii) : bool :=
  let n := code c in (48 <=? n) && (n <=? 57).

Definition is_upper (c : ascii) : bool :=
  let n := code c in (65 <=? n) && (n <=? 90).

Definition is_lower (c : ascii) : bool :=
  let n := code c in (97 <=? n) && (n <=? 122).

(** [\w]: letters, digits and the underscore. *)
Definition is_word (c : ascii) : bool :=
  is_upper c || is_lower c || is_digit c || (code c =? 95).

Definition to_lower (c : ascii) : ascii :=
  if is_upper c then ascii_of_nat (code c + 32) else c.

Definition ceqb (a b : ascii) : bool := Ascii.eqb a b.

Fixpoint drop_while (p : ascii -> bool) (l : list ascii) : list ascii :=
  match l with
  | [] => []
  | c :: t => if p c then drop_while p t else l
  end.

Definition lstrip_l (l : list ascii) : list ascii := drop_while is_space l.
Definition rstrip_l (l : list ascii) : list ascii := rev (drop_while is_space (rev l)).
Definition strip_l (l : list ascii) : list ascii := rstrip_l (lstrip_l l).

(** [s.strip()] *)
Definition strip (s : string) : string := text (strip_l (chars s)).

(** [s.lower()] *)
Definition lower (s : string) : string := text (map to_lower (chars s)).

(** [s.isdigit()]: non-empty and digits only. *)
Definition isdigit (s : string) : bool :=
  match chars s with
  | [] => false
  | l => forallb is_digit l
  end.

(** [s.replace(c, "")] for a one-character [c]. *)
Definition remove_chr (c : ascii) (l : list ascii) : list ascii :=
  List.filter (fun x => negb (ceqb x c)) l.

(** [s.split(c)] for a one-character separator: never empty. *)
Fixpoint split_chr (sep : ascii) (l : list ascii) : list (list ascii) :=
  match l with
  | [] => [[]]
  | c :: t =>
      if ceqb c sep then [] :: split_chr sep t
      else match split_chr sep t with
           | h :: r => (c :: h) :: r
           | [] => [[c]]
           end
  end.

(** [xs[-1]] of a list of strings that is never empty here. *)
Definition last_piece (xs : list (list ascii)) : list ascii := List.last xs [].

(** [s.startswith(p)] *)
Fixpoint starts_with_l (p l : list ascii) : bool :=
  match p, l with
  | [], _ => true
  | a :: p', b :: l' => ceqb a b && starts_with_l p' l'
  | _ :: _, [] => false
  end.

Definition startswith (s p : string) : bool := starts_with_l (chars p) (chars s).

(** [s.replace(old, "")] for a non-empty [old]: leftmost occurrences,
    left to right, without overlap; [skip] counts the characters of the
    last occurrence still to be dropped. *)
Fixpoint replace_del_aux (old : list ascii) (l : list ascii) (skip : nat) : list ascii :=
  match l with
  | [] => []
  | c :: t =>
      match skip with
      | S k => replace_del_aux old t k
      | 0 => if starts_with_l old l
             then replace_del_aux old t (List.length old - 1)
             else c :: replace_del_aux old t 0
      end
  end.

Definition replace_del (old s : string) : string :=
  text (replace_del_aux (chars old) (chars s) 0).

(** Value of a run of decimal digits, most significant first. *)
Definition digit_val (c : ascii) : Z := Z.of_nat (code c - 48).

Definition digits_val (l : list ascii) : Z :=
  fold_left (fun acc c => (10 * acc + digit_val c)%Z) l 0%Z.

(** The digit groups of an [int] literal: digits with single underscores
    between them. *)
Fixpoint int_body (l : list ascii) (after_digit : bool) (acc : list ascii)
  : option (list ascii) :=
  match l with
  | [] => if after_digit then Some (rev acc) else None
  | c :: t =>
      if is_digit c then int_body t true (c :: acc)
      else if ceqb c "_" then
             (if after_digit then int_body t false acc else None)
           else None
  end.

(** The blanks [int] skips around a literal: TAB..CR and the blank (the
    separators FS..US, which [str.strip] removes, are not among them). *)
Definition is_int_space (c : ascii) : bool :=
  let n := code c in ((9 <=? n) && (n <=? 13)) || (n =? 32).

Definition int_strip_l (l : list ascii) : list ascii :=
  rev (drop_while is_int_space (rev (drop_while is_int_space l))).

(** [sys.int_max_str_digits]: the most digits [int] converts. *)
Definition int_max_str_digits : Z := 4300.

(** The digits of an [int] literal without its sign, within the limit:
    underscores do not count, leading zeros do. *)
Definition int_digits (l : list ascii) : option (list ascii) :=
  match int_body l false [] with
  | Some d =>
      if (Z.of_nat (List.length d) <=? int_max_str_digits)%Z then Some d else None
  | None => None
  end.

(** [int(s)] on a [str]: [None] stands for [ValueError]. *)
Definition py_int (s : string) : option Z :=
  match int_strip_l (chars s) with
  | [] => None
  | c :: t =>
      if ceqb c "-" then option_map (fun d => (- digits_val d)%Z) (int_digits t)
      else if ceqb c "+" then option_map digits_val (int_digits t)
      else option_map digits_val (int_digits (c :: t))
  end.

(** [str(n)] of an integer. *)
Fixpoint pos_digits (fuel : nat) (n : N) (acc : list ascii) : list ascii :=
  match fuel with
  | 0 => acc
  | S f =>
      let d := ascii_of_N (48 + N.modulo n 10) in
      if (n <? 10)%N then d :: acc else pos_digits f (N.div n 10) (d :: acc)
  end.

Definition str_of_Z (z : Z) : string :=
  let n := Z.abs_N z in
  let ds := pos_digits (S (N.to_nat (N.log2 n))) n [] in
  text (if (z <? 0)%Z then "-"%char :: ds else ds).

(** The slice [l[a:b]]. *)
Definition slice (a b : nat) (l : list ascii) : list ascii :=
  firstn (b - a) (skipn a l).

End Text.

(** ** Regular expressions: the fragment of [re] the program uses

    A backtracking matcher in continuation-passing style, with the
    preference order of [re]: alternatives left to right, quantifiers
    greedy.  Every quantified item of the program's patterns that may
    repeat without bound is a character class, so [RStar] and [RRep] take a
    class and the matcher is structurally recursive. *)

Module Regex.
Import Text.

Inductive regex : Type :=
| REps                                        (* the empty pattern *)
| RChar (p : ascii -> bool)                   (* one character of a class *)
| RCat (r1 r2 : regex)                        (* r1 r2 *)
| RAlt (r1 r2 : regex)                        (* r1|r2 *)
| ROpt (r : regex)                            (* (?:r)? *)
| RStar (p : ascii -> bool)                   (* [p]* *)
| RRep (p : ascii -> bool) (lo hi : nat)      (* [p]{lo,hi} *)
| RWordB                                      (* \b *)
| RGroup (i : nat) (r : regex).               (* capturing group number i *)

(** Captures: group number and span, most recent first. *)
Definition Caps := list (nat * (nat * nat)).

(** A matcher position: the character before it, its offset, the rest of
    the text and the captures so far. *)
Definition Cont := option ascii -> nat -> list ascii -> Caps -> option (nat * Caps).

Definition word_opt (c : option ascii) : bool :=
  match c with Some x => is_word x | None => false end.

(** [\b]: exactly one side of the position is a word character. *)
Definition at_boundary (prev : option ascii) (inp : list ascii) : bool :=
  xorb (word_opt prev) (word_opt (head inp)).

Fixpoint star_k (p : ascii -> bool) (prev : option ascii) (pos : nat)
    (inp : list ascii) (caps : Caps) (k : Cont) {struct inp} : option (nat * Caps) :=
  match inp with
  | c :: t =>
      if p c then
        match star_k p (Some c) (S pos) t caps k with
        | Some r => Some r
        | None => k prev pos inp caps
        end
      else k prev pos inp caps
  | [] => k prev pos inp caps
  end.

Fixpoint rep_k (p : ascii -> bool) (lo hi : nat) (prev : option ascii) (pos : nat)
    (inp : list ascii) (caps : Caps) (k : Cont) {struct hi} : option (nat * Caps) :=
  let stop := if lo =? 0 then k prev pos inp caps else None in
  match hi with
  | 0 => stop
  | S hi' =>
      match inp with
      | c :: t =>
          if p c then
            match rep_k p (pred lo) hi' (Some c) (S pos) t caps k with
            | Some r => Some r
            | None => stop
            end
          else stop
      | [] => stop
      end
  end.

Fixpoint rmatch (r : regex) (prev : option ascii) (pos : nat)
    (inp : list ascii) (caps : Caps) (k : Cont) {struct r} : option (nat * Caps) :=
  match r with
  | REps => k prev pos inp caps
  | RChar p =>
      match inp with
      | c :: t => if p c then k (Some c) (S pos) t caps else None
      | [] => None
      end
  | RCat r1 r2 =>
      rmatch r1 prev pos inp caps
        (fun prev' pos' inp' caps' => rmatch r2 prev' pos' inp' caps' k)
  | RAlt r1 r2 =>
      match rmatch r1 prev pos inp caps k with
      | Some x => Some x
      | None => rmatch r2 prev pos inp caps k
      end
  | ROpt r1 =>
      match rmatch r1 prev pos inp caps k with
      | Some x => Some x
      | None => k prev pos inp caps
      end
  | RStar p => star_k p prev pos inp caps k
  | RRep p lo hi => rep_k p lo hi prev pos inp caps k
  | RWordB => if at_boundary prev inp then k prev pos inp caps else None
  | RGroup i r1 =>
      rmatch r1 prev pos inp caps
        (fun prev' pos' inp' caps' => k prev' pos' inp' ((i, (pos, pos')) :: caps'))
  end.

Definition accept : Cont := fun _ pos _ caps => Some (pos, caps).

(** A match object: [m.span()] and, for each group, the span it took part
    with. *)
Record Match : Type := mkMatch {
  m_start : nat;
  m_end : nat;
  m_caps : Caps
}.

Definition span_of (m : Match) : nat * nat := (m_start m, m_end m).

(** [pattern.finditer(text)]: leftmost matches, the search resuming where
    the previous match ended.  [skip] counts the characters of the last
    match still to be passed.  None of the program's patterns matches the
    empty string. *)
Fixpoint scan (r : regex) (prev : option ascii) (pos : nat) (inp : list ascii)
    (skip : nat) {struct inp} : list Match :=
  match skip with
  | S k =>
      match inp with
      | c :: t => scan r (Some c) (S pos) t k
      | [] => []
      end
  | 0 =>
      match rmatch r prev pos inp [] accept with
      | Some (e, caps) =>
          mkMatch pos e caps ::
          match inp with
          | c :: t => scan r (Some c) (S pos) t (e - pos - 1)
          | [] => []
          end
      | None =>
          match inp with
          | c :: t => scan r (Some c) (S pos) t 0
          | [] => []
          end
      end
  end.

Definition finditer (r : regex) (s : string) : list Match :=
  scan r None 0 (chars s) 0.

(** [re.search(pattern, text)] *)
Definition search (r : regex) (s : string) : option Match := head (finditer r s).

(** [m.group(0)] *)
Definition group0 (s : string) (m : Match) : string :=
  text (slice (m_start m) (m_end m) (chars s)).

(** [m.group(i)]: [None] when the group took no part in the match. *)
Definition group (s : string) (m : Match) (i : nat) : option string :=
  match List.find (fun e => fst e =? i) (m_caps m) with
  | Some (_, (a, b)) => Some (text (slice a b (chars s)))
  | None => None
  end.

(** [m.groups()] of a pattern with [n] groups. *)
Definition groups (s : string) (m : Match) (n : nat) : list (option string) :=
  map (fun i => group s m (S i)) (seq 0 n).

(** [pattern.sub("", text)]: the text without the matched spans. *)
Fixpoint drop_spans (ms : list (nat * nat)) (pos : nat) (l : list ascii) : list ascii :=
  match l with
  | [] => []
  | c :: t =>
      if existsb (fun sp => (fst sp <=? pos) && (pos <? snd sp)) ms
      then drop_spans ms (S pos) t
      else c :: drop_spans ms (S pos) t
  end.

Definition sub_del (r : regex) (s : string) : string :=
  text (drop_spans (map span_of (finditer r s)) 0 (chars s)).

(** Pattern syntax. *)
Fixpoint cat (rs : list regex) : regex :=
  match rs with
  | [] => REps
  | [r] => r
  | r :: t => RCat r (cat t)
  end.

Fixpoint alt (rs : list regex) : regex :=
  match rs with
  | [] => RChar (fun _ => false)
  | [r] => r
  | r :: t => RAlt r (alt t)
  end.

(** A literal under [re.I]. *)
Definition ci (c : ascii) : regex := RChar (fun x => ceqb (to_lower x) (to_lower c)).
Definition lit (s : string) : regex := cat (map ci (chars s)).
(** A literal matched exactly. *)
Definition exact (s : string) : regex := cat (map (fun c => RChar (ceqb c)) (chars s)).
Definition plus (p : ascii -> bool) : regex := RCat (RChar p) (RStar p).
Definition one_of (s : string) (c : ascii) : bool := existsb (ceqb c) (chars s).

End Regex.

(** ** The entity extractor ([nlu_engine/entity_extractor.py]) *)

(** One extracted entity: the dict [{"entity": kind, "value": value}]. *)
Record Entity : Type := mkEntity {
  entity : string;
  value : string
}.

Module EntityExtractor.
Import Text Regex.

Definition Span : Type := nat * nat.

(** [[A-Za-z0-9\-_/]] *)
Definition code_chr (c : ascii) : bool :=
  is_upper c || is_lower c || is_digit c || one_of "-_/" c.

(** [[:\s\-]] *)
Definition sep_chr (c : ascii) : bool := is_space c || one_of ":-" c.

(** [[0-9,]] *)
Definition digit_or_comma (c : ascii) : bool := is_digit c || ceqb c ",".

(** [self.txn_patterns], each with its number of groups. *)
Definition txn_patterns : list (regex * nat) :=
  [ (cat [ RWordB;
           alt [ cat [lit "txn"; ROpt (alt [lit "id"; lit " _id"; lit " id"])];
                 cat [lit "transaction"; ROpt (cat [RStar is_space; lit "id"])];
                 lit "txnid";
                 lit "utr";
                 cat [lit "ref"; ROpt (lit "erence"); RStar is_space; lit "no";
                      ROpt (ci ".")];
                 lit "ref" ];
           RWordB;
           RStar sep_chr;
           RGroup 1 (RRep code_chr 4 40) ], 1);
    (cat [ RWordB;
           RGroup 1 (alt [lit "UTR"; lit "REF"; lit "TXN"]);
           RWordB;
           RStar sep_chr;
           RGroup 2 (RRep code_chr 4 40) ], 2) ].

(** [self.account_patterns] *)
Definition account_patterns : list regex :=
  [ cat [ RWordB;
          alt [ lit "account"; lit "acct"; lit "a/c";
                cat [lit "account"; RStar is_space; lit "no"];
                cat [lit "account"; RStar is_space; lit "number"];
                cat [lit "acct"; ROpt (ci ".")] ];
          RWordB;
          RStar sep_chr;
          RGroup 1 (RRep is_digit 4 24) ];
    cat [ RWordB; lit "to"; plus is_space;
          alt [lit "account"; lit "acct"; lit "a/c"];
          RWordB;
          RStar sep_chr;
          RGroup 1 (RRep is_digit 4 24) ];
    cat [ RWordB; lit "account";
          ROpt (cat [plus is_space; lit "ending"]);
          RStar is_space;
          ROpt (alt [cat [lit "no"; ROpt (ci ".")]; lit "number"]);
          RStar is_space;
          RGroup 1 (RRep is_digit 4 24);
          RWordB ] ].

(** The currency markers of the two amount patterns. *)
Definition currency_prefix : regex :=
  alt [exact "₹"; ci "$"; cat [lit "Rs"; ROpt (ci ".")]; lit "INR"; lit "USD"].

Definition currency_suffix : regex :=
  alt [lit "rupees"; lit "rs"; lit "inr"; lit "usd"; lit "dollars"].

(** [[0-9][0-9,]*(?:\.\d+)?] *)
Definition number_literal : regex :=
  cat [RChar is_digit; RStar digit_or_comma; ROpt (cat [ci "."; plus is_digit])].

(** [self.amount_patterns] *)
Definition amount_patterns : list regex :=
  [ RGroup 1 (cat [RWordB; currency_prefix; RStar is_space; number_literal; RWordB]);
    RGroup 1 (cat [RWordB; number_literal; RStar is_space; currency_suffix; RWordB]) ].

(** [_reserve_span]: [true] when the span overlaps a reserved one;
    otherwise the span is appended and the answer is [false]. *)
Definition overlaps (start end_ : nat) (sp : Span) : bool :=
  negb ((end_ <=? fst sp) || (snd sp <=? start)).

Definition _reserve_span (reserved : list Span) (start end_ : nat) : bool * list Span :=
  if existsb (overlaps start end_) reserved
  then (true, reserved)
  else (false, reserved ++ [(start, end_)]).

(** [_normalize_amount] *)
Definition _normalize_amount (raw : string) : string :=
  let s := strip raw in
  let s := sub_del (alt [exact "₹"; RChar (one_of ",$")]) s in
  let s := sub_del (cat [ RWordB;
                          RGroup 1 (alt [ cat [lit "Rs"; ROpt (ci ".")]; lit "rs";
                                          lit "INR"; lit "USD"; lit "usd";
                                          lit "dollars"; lit "rupees" ]);
                          RWordB ]) s in
  let s := text (remove_chr "," (chars s)) in
  strip s.

(** The state of [extract]: [reserved_spans] and [results].  Each result
    is kept with the span of the match it was built from; the program's
    list is the second components. *)
Definition State : Type := list Span * list (Span * Entity).

Definition nonempty (s : string) : bool := negb (String.eqb s "").

(** Body of the loop over one transaction-id match. *)
Definition txn_step (s : string) (n : nat) (st : State) (m : Match) : State :=
  let gs := List.filter nonempty (omap id (groups s m n)) in
  match List.last (map Some gs) None with
  | None => st
  | Some g =>
      let code := strip g in
      let '(taken, reserved) := _reserve_span (fst st) (m_start m) (m_end m) in
      if taken then (reserved, snd st)
      else (reserved, snd st ++ [(span_of m, mkEntity "TXN_ID" code)])
  end.

(** Body of the loop over one account-number match. *)
Definition account_step (s : string) (st : State) (m : Match) : State :=
  match group s m 1 with
  | None => st
  | Some num =>
      if nonempty num then
        let '(taken, reserved) := _reserve_span (fst st) (m_start m) (m_end m) in
        if taken then (reserved, snd st)
        else
          let num_norm := text (List.filter is_digit (chars num)) in
          if nonempty num_norm
          then (reserved, snd st ++ [(span_of m, mkEntity "ACCOUNT_NUMBER" num_norm)])
          else (reserved, snd st)
      else st
  end.

(** Body of the loop over one amount match. *)
Definition amount_step (s : string) (st : State) (m : Match) : State :=
  let raw := group0 s m in
  let '(taken, reserved) := _reserve_span (fst st) (m_start m) (m_end m) in
  if taken then (reserved, snd st)
  else
    let normalized := _normalize_amount raw in
    if nonempty normalized
    then (reserved, snd st ++ [(span_of m, mkEntity "AMOUNT" normalized)])
    else (reserved, snd st).

Definition txn_phase (s : string) (st : State) : State :=
  fold_left (fun st pn => fold_left (txn_step s (snd pn)) (finditer (fst pn) s) st)
            txn_patterns st.

Definition account_phase (s : string) (st : State) : State :=
  fold_left (fun st pat => fold_left (account_step s) (finditer pat s) st)
            account_patterns st.

Definition amount_phase (s : string) (st : State) : State :=
  fold_left (fun st pat => fold_left (amount_step s) (finditer pat s) st)
            amount_patterns st.

(** [extract] with the span of each result. *)
Definition extract_state (s : string) : State :=
  if nonempty s
  then amount_phase s (account_phase s (txn_phase s ([], [])))
  else ([], []).

Definition extract_located (s : string) : list (Span * Entity) := snd (extract_state s).

(** [EntityExtractor.extract] *)
Definition extract (s : string) : list Entity := map snd (extract_located s).

End EntityExtractor.

(** ** The dialogue manager ([dialogue_manager/dialogue_handler.py]) *)

Module Dialogue.
Import Text.

(** The Python values kept in [self.slots]. *)
Inductive Value : Type :=
| VStr (s : string)
| VInt (z : Z).

#[export] Instance Value_eq_dec : EqDecision Value.
Proof. solve_decision. Defined.

(** Exceptions that can leave a call. *)
Inductive Exn : Type :=
| KeyError (key : string)          (* [d[key]] on a missing key *)
| ValueError (arg : string)        (* [int(arg)] on a literal it rejects *)
| CollaboratorError (what : string).  (* raised inside a collaborator *)

Inductive Outcome (A : Type) : Type :=
| Ok (a : A)
| Raised (e : Exn).
Arguments Ok {A} a.
Arguments Raised {A} e.

(** A row of the table [accounts] ([database/db.py]): [acc[3]] is the
    balance, an INTEGER of SQLite (64 bits, far below the digits [str]
    converts). *)
Record Account : Type := mkAccount {
  account_number : string;
  user_name : string;
  account_type : string;
  balance : Z;
  password_hash : string
}.

(** The tuple bound by the [INSERT INTO chat_history] of [log_interaction]. *)
Record ChatRow : Type := mkChatRow {
  user_query : string;
  predicted_intent : string;
  confidence : Q;
  entities_text : string;
  success_flag : Z
}.

(** The collaborators of the dialogue manager, over a world [W] they may
    read and change.  [database.bank_crud] and [sqlite3] are not part of
    the program's sources; they are taken as they are called. *)
Record Collaborators (W : Type) : Type := mkCollaborators {
  get_account : Value -> W -> Outcome (option Account) * W;
  list_accounts : W -> Outcome (list (string * string)) * W;
  transfer_money : Value -> string -> Value -> Value -> W -> Outcome string * W;
  db_connect : W -> Outcome unit * W;            (* get_conn() *)
  db_insert : ChatRow -> W -> Outcome unit * W;  (* conn.execute(INSERT ...) *)
  db_commit : W -> Outcome unit * W;             (* conn.commit() *)
  db_close : W -> Outcome unit * W;              (* conn.close() *)
  str_entities : list Entity -> string           (* str(entities) *)
}.
Arguments get_account {W} _ _ _.
Arguments list_accounts {W} _ _.
Arguments transfer_money {W} _ _ _ _ _ _.
Arguments db_connect {W} _ _.
Arguments db_insert {W} _ _ _.
Arguments db_commit {W} _ _.
Arguments db_close {W} _ _.
Arguments str_entities {W} _ _.

(** The fields of a [DialogueManager]. *)
Record DM : Type := mkDM {
  active_intent : option string;
  slots : gmap string Value;
  awaiting : option string;
  in_flow : bool
}.

(** The state after [reset()], which is also the state after [__init__]. *)
Definition idle : DM :=
  {| active_intent := None; slots := ∅; awaiting := None; in_flow := false |}.

Definition newline : string := String (ascii_of_nat 10) EmptyString.

Definition MSG_CANCELLED : string := "❌ Operation cancelled. How else can I help you?".
Definition MSG_GREETING : string := "Hello 👋 How can I help you today?".
Definition MSG_UNKNOWN : string := "Sorry, I didn't understand. Please try again.".
Definition MSG_BAD_AMOUNT : string := "__ERROR__:Please enter a valid numeric amount.".
Definition MSG_SELECT_RECEIVER : string := "Select receiver account:" +:+ newline.
Definition MSG_TRANSFER_OK : string := "✅ Transfer Successful".
Definition MSG_ASK_ACCOUNT : string := "Please enter your account number.".
Definition MSG_BAD_FROM_ACCOUNT : string :=
  "__ERROR__:Invalid account number. Please re-enter your account number.".
Definition MSG_ASK_AMOUNT : string := "How much amount do you want to transfer?".
Definition MSG_ASK_PASSWORD : string := "Please enter your password to proceed.".
Definition MSG_PROCESSING : string := "Processing transfer...".
Definition MSG_BAD_ACCOUNT_REENTER : string := "__ERROR__:Invalid account number. Please re-enter.".
Definition MSG_BAD_ACCOUNT : string := "__ERROR__:Invalid account number.".
Definition MSG_BALANCE : string := "💰 Your account balance is ₹".
Definition MSG_ASK_BALANCE_ACCOUNT : string :=
  "Please provide your account number to check balance.".
Definition MSG_BAD_CARD : string := "__ERROR__:Please enter debit or credit.".
Definition MSG_ASK_CARD : string := "Please provide your card type to block (debit / credit).".
Definition SUCCESS_MARK : string := "✅".
Definition FAILURE_MARK : string := "❌".

Definition blocked_message (card_type : string) : string :=
  "🔒 Your " +:+ card_type +:+ " card has been blocked successfully.".

(** [_parse_amount]: [int] of the first run of digits of the text without
    its commas, [None] when the text has no digit.  [int] raises
    [ValueError] on a run it does not convert, and so does
    [_parse_amount]. *)
Definition _parse_amount (s : string) : Outcome (option Z) :=
  let s' := text (remove_chr "," (chars s)) in
  match Regex.search (Regex.plus is_digit) s' with
  | Some m =>
      match py_int (Regex.group0 s' m) with
      | Some n => Ok (Some n)
      | None => Raised (ValueError (Regex.group0 s' m))
      end
  | None => Ok None
  end.

(** [user_text.split("(")[-1].replace(")", "")] *)
Definition receiver_of (user_text : string) : string :=
  text (remove_chr ")" (last_piece (split_chr "(" (chars user_text)))).

(** [f"{u} ({a})" for a, u in accounts if a != sender] *)
Definition receiver_lines (accounts : list (string * string)) (sender : Value) : list string :=
  map (fun au => snd au +:+ " (" +:+ fst au +:+ ")")
      (List.filter (fun au => negb (bool_decide (VStr (fst au) = sender))) accounts).

Definition is_cancel (user_text : string) : bool :=
  bool_decide (lower user_text ∈ ["cancel"; "stop"; "exit"]).

Section Machine.
Context {W : Type} (env : Collaborators W).

(** Computations of a method: they read and write the fields, act on the
    world, and end with a value or an exception. *)
Definition M (A : Type) : Type := DM -> W -> Outcome A * DM * W.

Definition ret {A} (a : A) : M A := fun s w => (Ok a, s, w).
Definition raise {A} (e : Exn) : M A := fun s w => (Raised e, s, w).
Definition bind {A B} (m : M A) (f : A -> M B) : M B :=
  fun s w =>
    match m s w with
    | (Ok a, s', w') => f a s' w'
    | (Raised e, s', w') => (Raised e, s', w')
    end.
Definition call {A} (c : W -> Outcome A * W) : M A :=
  fun s w => let '(o, w') := c w in (o, s, w').
Definition read {A} (f : DM -> A) : M A := fun s w => (Ok (f s), s, w).
Definition update (f : DM -> DM) : M unit := fun s w => (Ok tt, f s, w).

Notation "x <- m ;; k" := (bind m (fun x => k))
  (at level 100, m at next level, right associativity).
Notation "m ;;; k" := (bind m (fun _ => k))
  (at level 100, right associativity).

Definition set_slot (k : string) (v : Value) : M unit :=
  update (fun s => {| active_intent := active_intent s; slots := <[k := v]> (slots s);
                      awaiting := awaiting s; in_flow := in_flow s |}).
Definition pop_slot (k : string) : M unit :=
  update (fun s => {| active_intent := active_intent s; slots := delete k (slots s);
                      awaiting := awaiting s; in_flow := in_flow s |}).
Definition set_awaiting (a : option string) : M unit :=
  update (fun s => {| active_intent := active_intent s; slots := slots s;
                      awaiting := a; in_flow := in_flow s |}).
Definition set_active_intent (i : option string) : M unit :=
  update (fun s => {| active_intent := i; slots := slots s;
                      awaiting := awaiting s; in_flow := in_flow s |}).
Definition set_in_flow (b : bool) : M unit :=
  update (fun s => {| active_intent := active_intent s; slots := slots s;
                      awaiting := awaiting s; in_flow := b |}).

(** [self.slots[k]] *)
Definition slot (k : string) : M Value :=
  sl <- read slots ;;
  match sl !! k with
  | Some v => ret v
  | None => raise (KeyError k)
  end.

(** [reset] *)
Definition reset : M unit := update (fun _ => idle).

(** One database call after another; an exception ends the sequence. *)
Definition and_then (c1 c2 : W -> Outcome unit * W) : W -> Outcome unit * W :=
  fun w =>
    match c1 w with
    | (Ok _, w') => c2 w'
    | (Raised e, w') => (Raised e, w')
    end.

(** [log_interaction], a function of the module: it acts on the world
    only. *)
Definition log_interaction (user_text : string) (intent : option string)
    (conf : Q) (entities : list Entity) (success : bool) : W -> Outcome unit * W :=
  let real_intent :=
    match intent with
    | Some i => if String.eqb i "" then "unknown" else i
    | None => "unknown"
    end in
  let entities_str :=
    match entities with
    | [] => ""
    | _ => str_entities env entities
    end in
  and_then (db_connect env)
    (and_then (db_insert env (mkChatRow user_text real_intent conf entities_str
                                        (if success then 1 else 0)%Z))
       (and_then (db_commit env) (db_close env))).

(** The loop "entity-based slot filling" of [_handle_transfer]. *)
Fixpoint fill_transfer_slots (entities : list Entity) : M unit :=
  match entities with
  | [] => ret tt
  | e :: rest =>
      (if String.eqb (entity e) "ACCOUNT_NUMBER" then
         set_slot "from_account" (VStr (strip (value e)))
       else if String.eqb (entity e) "AMOUNT" then
         match py_int (value e) with
         | Some n => set_slot "amount" (VInt n)
         | None => raise (ValueError (value e))
         end
       else ret tt) ;;;
      fill_transfer_slots rest
  end.

(** [_handle_transfer] from "entity-based slot filling" to its end. *)
Definition transfer_collect (entities : list Entity) (user_text : string) : M string :=
  fill_transfer_slots entities ;;;
  sl <- read slots ;;
  let validate : M string :=
    sender <- slot "from_account" ;;
    acc <- call (get_account env sender) ;;
    match acc with
    | None => pop_slot "from_account" ;;; ret MSG_BAD_FROM_ACCOUNT
    | Some _ =>
        sl <- read slots ;;
        match sl !! "amount" with
        | None => set_awaiting (Some "amount") ;;; ret MSG_ASK_AMOUNT
        | Some _ =>
            match sl !! "password" with
            | None => set_awaiting (Some "password") ;;; ret MSG_ASK_PASSWORD
            | Some _ => ret MSG_PROCESSING
            end
        end
    end in
  match sl !! "from_account" with
  | Some _ => validate
  | None =>
      if isdigit user_text
      then set_slot "from_account" (VStr user_text) ;;; validate
      else ret MSG_ASK_ACCOUNT
  end.

(** [_handle_transfer] *)
Definition _handle_transfer (entities : list Entity) (user_text : string) : M string :=
  aw <- read awaiting ;;
  if bool_decide (aw = Some "amount") then
    match _parse_amount user_text with
    | Raised e => raise e
    | Ok None => ret MSG_BAD_AMOUNT
    | Ok (Some amount) =>
        set_slot "amount" (VInt amount) ;;;
        set_awaiting None ;;;
        transfer_collect entities user_text
    end
  else if bool_decide (aw = Some "password") then
    set_slot "password" (VStr user_text) ;;;
    set_awaiting None ;;;
    accounts <- call (list_accounts env) ;;
    receivers <-
      match accounts with
      | [] => ret []
      | _ => sender <- slot "from_account" ;; ret (receiver_lines accounts sender)
      end ;;
    set_awaiting (Some "receiver") ;;;
    ret (MSG_SELECT_RECEIVER +:+ String.concat newline receivers)
  else if bool_decide (aw = Some "receiver") then
    let to_acc := receiver_of user_text in
    sender <- slot "from_account" ;;
    amount <- slot "amount" ;;
    password <- slot "password" ;;
    result <- call (transfer_money env sender to_acc amount password) ;;
    let success := startswith result SUCCESS_MARK in
    call (log_interaction user_text (Some "transfer_money") (95 # 100) entities success) ;;;
    reset ;;;
    if startswith result FAILURE_MARK
    then ret ("__ERROR__:" +:+ replace_del "❌ " result)
    else ret MSG_TRANSFER_OK
  else transfer_collect entities user_text.

(** The loop "entity-based" of [_handle_check_balance]: the first
    [ACCOUNT_NUMBER] entity decides. *)
Definition first_of_kind (kind : string) (entities : list Entity) : option Entity :=
  List.find (fun e => String.eqb (entity e) kind) entities.

(** [_handle_check_balance] *)
Definition _handle_check_balance (entities : list Entity) (user_text : string) : M string :=
  aw <- read awaiting ;;
  if bool_decide (aw = Some "account") then
    let acc_no := strip user_text in
    acc <- call (get_account env (VStr acc_no)) ;;
    match acc with
    | None =>
        call (log_interaction user_text (Some "check_balance") (9 # 10) entities false) ;;;
        ret MSG_BAD_ACCOUNT_REENTER
    | Some a =>
        call (log_interaction user_text (Some "check_balance") (95 # 100) entities true) ;;;
        reset ;;;
        ret (MSG_BALANCE +:+ str_of_Z (balance a))
    end
  else
    match first_of_kind "ACCOUNT_NUMBER" entities with
    | Some e =>
        acc <- call (get_account env (VStr (value e))) ;;
        match acc with
        | None =>
            call (log_interaction user_text (Some "check_balance") (9 # 10) entities false) ;;;
            ret MSG_BAD_ACCOUNT
        | Some a =>
            call (log_interaction user_text (Some "check_balance") (95 # 100) entities true) ;;;
            reset ;;;
            ret (MSG_BALANCE +:+ str_of_Z (balance a))
        end
    | None =>
        set_awaiting (Some "account") ;;;
        ret MSG_ASK_BALANCE_ACCOUNT
    end.

(** [_handle_card_block] *)
Definition _handle_card_block (entities : list Entity) (user_text : string) : M string :=
  aw <- read awaiting ;;
  if bool_decide (aw = Some "card_type") then
    let card_type := lower user_text in
    if bool_decide (card_type ∈ ["debit"; "credit"]) then
      call (log_interaction user_text (Some "card_block") (95 # 100) entities true) ;;;
      reset ;;;
      ret (blocked_message card_type)
    else ret MSG_BAD_CARD
  else
    match first_of_kind "CARD_TYPE" entities with
    | Some e =>
        call (log_interaction user_text (Some "card_block") (95 # 100) entities true) ;;;
        reset ;;;
        ret (blocked_message (value e))
    | None =>
        set_awaiting (Some "card_type") ;;;
        ret MSG_ASK_CARD
    end.

Definition some {A} (m : M A) : M (option A) := a <- m ;; ret (Some a).

(** [handle]: the reply is a string, or [None] to hand the turn to the
    fallback responder. *)
Definition handle (intent : string) (entities : list Entity) (user_text : string)
  : M (option string) :=
  let user_text := strip user_text in
  let original_intent := intent in
  if is_cancel user_text then
    reset ;;; ret (Some MSG_CANCELLED)
  else
    flow <- read in_flow ;;
    intent <- (if flow then read active_intent
               else reset ;;; set_active_intent (Some intent) ;;; ret (Some intent)) ;;
    if String.eqb original_intent "out_of_scope" then
      reset ;;; ret None
    else if bool_decide (intent = Some "greet") then
      call (log_interaction user_text intent 1 entities true) ;;;
      ret (Some MSG_GREETING)
    else if bool_decide (intent = Some "transfer_money") then
      set_in_flow true ;;; some (_handle_transfer entities user_text)
    else if bool_decide (intent = Some "check_balance") then
      set_in_flow true ;;; some (_handle_check_balance entities user_text)
    else if bool_decide (intent = Some "card_block") then
      set_in_flow true ;;; some (_handle_card_block entities user_text)
    else
      call (log_interaction user_text intent (5 # 10) entities false) ;;;
      ret (Some MSG_UNKNOWN).

End Machine.

End Dialogue.

(** ** A sample bank

    A small gateway and chat-history store on which the machine can be
    run: accounts are kept in a list, a transfer succeeds when the receiver
    exists and the balance suffices, and the store can be taken offline. *)

Module SampleBank.
Import Text Dialogue.

Record Bank : Type := mkBank {
  accounts : list Account;
  history : list ChatRow;
  online : bool
}.

Definition lookup_account (v : Value) (b : Bank) : option Account :=
  match v with
  | VStr a => List.find (fun acc => String.eqb (account_number acc) a) (accounts b)
  | VInt _ => None
  end.

Definition credit (a : string) (delta : Z) (accs : list Account) : list Account :=
  map (fun acc =>
         if String.eqb (account_number acc) a
         then mkAccount (account_number acc) (user_name acc) (account_type acc)
                        (balance acc + delta) (password_hash acc)
         else acc) accs.

Definition do_transfer (sender : Value) (to_acc : string) (amount password : Value)
    (b : Bank) : Outcome string * Bank :=
  match lookup_account sender b, lookup_account (VStr to_acc) b, amount with
  | Some s, Some r, VInt n =>
      if (balance s <? n)%Z then (Ok "❌ Insufficient balance", b)
      else (Ok "✅ Transfer completed",
            mkBank (credit to_acc n (credit (account_number s) (- n) (accounts b)))
                   (history b) (online b))
  | _, _, _ => (Ok "❌ Invalid account", b)
  end.

Definition when_online (f : Bank -> Bank) (b : Bank) : Outcome unit * Bank :=
  if online b then (Ok tt, f b)
  else (Raised (CollaboratorError "sqlite3.OperationalError"), b).

Definition show_entities (es : list Entity) : string :=
  String.concat ", " (map (fun e => entity e +:+ "=" +:+ value e) es).

Definition bank : Collaborators Bank :=
  {| get_account := fun v b => (Ok (lookup_account v b), b);
     list_accounts :=
       fun b => (Ok (map (fun a => (account_number a, user_name a)) (accounts b)), b);
     transfer_money := do_transfer;
     db_connect := when_online (fun b => b);
     db_insert := fun row => when_online (fun b => mkBank (accounts b) (history b ++ [row]) (online b));
     db_commit := when_online (fun b => b);
     db_close := when_online (fun b => b);
     str_entities := show_entities |}.

Definition alice : Account := mkAccount "1234567890" "Alice" "savings" 50000 "h1".
Definition bob : Account := mkAccount "9876543210" "Bob" "current" 100 "h2".

Definition open_bank : Bank := mkBank [alice; bob] [] true.
Definition offline_bank : Bank := mkBank [alice; bob] [] false.

(** The sample bank with a chat-history store that is always up. *)
Definition steady_bank : Collaborators Bank :=
  {| get_account := get_account bank;
     list_accounts := list_accounts bank;
     transfer_money := transfer_money bank;
     db_connect := fun b => (Ok tt, b);
     db_insert := fun row b => (Ok tt, mkBank (accounts b) (history b ++ [row]) (online b));
     db_commit := fun b => (Ok tt, b);
     db_close := fun b => (Ok tt, b);
     str_entities := show_entities |}.

(** A transfer that waits for its amount. *)
Definition awaiting_amount : DM :=
  {| active_intent := Some "transfer_money";
     slots := {[ "from_account" := VStr "1234567890" ]};
     awaiting := Some "amount"; in_flow := true |}.

(** A transfer that waits for its receiver. *)
Definition awaiting_receiver : DM :=
  {| active_intent := Some "transfer_money";
     slots := <["password" := VStr "secret"]>
                (<["amount" := VInt 500]> {[ "from_account" := VStr "1234567890" ]});
     awaiting := Some "receiver"; in_flow := true |}.

(** The open bank after a transfer of 500 to [to_acc] that [user_text]
    asked for. *)
Definition after_transfer (to_acc user_text : string) : Bank :=
  mkBank (credit to_acc 500 (credit "1234567890" (-500) [alice; bob]))
         [mkChatRow user_text "transfer_money" (95 # 100) "" 1] true.

End SampleBank.

(** ** The domain gate ([nlu_engine/domain_gate.py]) *)

Module DomainGate.
Import Text.

Definition BANK_KEYWORDS : list string :=
  ["account"; "balance"; "transfer"; "money"; "send"; "receive";
   "card"; "debit"; "credit"; "atm"; "bank"; "withdraw"; "deposit";
   "pin"; "password"].

Definition BANK_ENTITIES : list string :=
  ["ACCOUNT_NUMBER"; "AMOUNT"; "CARD_TYPE"; "ACCOUNT_TYPE"].

(** [k in s] on strings: [k] occurs in [s]. *)
Fixpoint contains_l (k l : list ascii) : bool :=
  starts_with_l k l ||
  match l with
  | [] => false
  | _ :: t => contains_l k t
  end.

Definition contains (s k : string) : bool := contains_l (chars k) (chars s).

(** [is_banking_query] *)
Definition is_banking_query (text : string) (entities : list Entity) : bool :=
  let text_l := lower text in
  let keyword_hit := existsb (fun k => contains text_l k) BANK_KEYWORDS in
  let entity_hit :=
    existsb (fun e => bool_decide (entity e ∈ BANK_ENTITIES)) entities in
  keyword_hit || entity_hit.

End DomainGate.

(** ** The chat turn ([nlu_engine/nlu_router.py] and the chatbot page of
    [app.py])

    The page is a script that is run again for every input; what it keeps
    between runs is [st.session_state].  The embedding is the body of
    [if user_input:], over the session state and the list of what the run
    draws. *)

Module App.
Import Text Dialogue DomainGate.

(** Exceptions of the page: those of the dialogue manager and its
    collaborators, and the two of the page's own code. *)
Inductive Failure : Type :=
| Inner (e : Exn)
| IndexError                       (* [xs[0]] on an empty list *)
| AttributeError (attr : string).  (* [None.attr] *)

Inductive Result (A : Type) : Type :=
| Done (a : A)
| Failed (f : Failure).
Arguments Done {A} a.
Arguments Failed {A} f.

(** The services of the page: the collaborators of the dialogue manager,
    the intent classifier and the LLM. *)
Record Services (W : Type) : Type := mkServices {
  collaborators : Collaborators W;
  predict : string -> nat -> W -> Outcome (list (string * Q)) * W;
      (* intent_model.predict(text, top_k): pairs of intent and score *)
  generate : string -> W -> Outcome string * W
      (* llm.generate(user_query) *)
}.
Arguments collaborators {W} _.
Arguments predict {W} _ _ _ _.
Arguments generate {W} _ _ _.

(** What a run draws. *)
Inductive Widget : Type :=
| ChatMessage (role content : string)   (* with st.chat_message(role): st.write(content) *)
| ErrorBox (content : string)           (* st.error(content) *)
| Spinner (label : string).             (* with st.spinner(label) *)

(** [st.session_state]: the dialogue manager and the messages; and the
    widgets drawn so far. *)
Record Session : Type := mkSession {
  dm : DM;
  messages : list (string * string);   (* role and content *)
  screen : list Widget
}.

Definition set_dm (d : DM) (ss : Session) : Session :=
  {| dm := d; messages := messages ss; screen := screen ss |}.
Definition append_message (role content : string) (ss : Session) : Session :=
  {| dm := dm ss; messages := messages ss ++ [(role, content)]; screen := screen ss |}.
Definition draw (x : Widget) (ss : Session) : Session :=
  {| dm := dm ss; messages := messages ss; screen := screen ss ++ [x] |}.

Definition LLM_HEADER : string :=
  "🌐 **General Information (LLM Generated)**" +:+ newline +:+ newline +:+
  "_Source: Web / LLM knowledge_" +:+ newline +:+ newline.

Definition SPINNER_LABEL : string := "🔎 Searching & generating answer...".

Section Page.
Context {W : Type} (sv : Services W).

(** [NLUProcessor.process] *)
Definition process (text : string) (w : W)
  : Result (string * Q * list Entity) * W :=
  match predict sv text 1 w with
  | (Ok (intent_res :: _), w') =>
      (Done (fst intent_res, snd intent_res, EntityExtractor.extract text), w')
  | (Ok [], w') => (Failed IndexError, w')
  | (Raised e, w') => (Failed (Inner e), w')
  end.

(** The code after a call of [dm.handle], the same in both branches. *)
Definition show_reply (bot_reply : option string) (ss : Session) : Result unit * Session :=
  match bot_reply with
  | None => (Failed (AttributeError "startswith"), ss)
  | Some reply =>
      if startswith reply "__ERROR__:" then
        let error_msg := replace_del "__ERROR__:" reply in
        (Done tt, draw (ErrorBox error_msg)
                    (append_message "assistant" ("⚠️ " +:+ error_msg) ss))
      else
        (Done tt, draw (ChatMessage "assistant" reply)
                    (append_message "assistant" reply ss))
  end.

Definition handle_and_show (intent : string) (entities : list Entity)
    (user_input : string) (ss : Session) (w : W) : Result unit * Session * W :=
  match handle (collaborators sv) intent entities user_input (dm ss) w with
  | (Ok bot_reply, d, w') =>
      let '(r, ss') := show_reply bot_reply (set_dm d ss) in (r, ss', w')
  | (Raised e, d, w') => (Failed (Inner e), set_dm d ss, w')
  end.

(** The body of [if user_input:] on the chatbot page. *)
Definition chatbot_turn (user_input : string) (ss : Session) (w : W)
  : Result unit * Session * W :=
  if String.eqb user_input "" then (Done tt, ss, w)
  else
    let ss := append_message "user" user_input ss in
    let ss := draw (ChatMessage "user" user_input) ss in
    match process user_input w with
    | (Failed f, w') => (Failed f, ss, w')
    | (Done (intent, confidence, entities), w') =>
        if in_flow (dm ss) then
          handle_and_show intent entities user_input ss w'
        else if negb (is_banking_query user_input entities) then
          let ss := set_dm idle ss in
          let ss := draw (Spinner SPINNER_LABEL) ss in
          match generate sv user_input w' with
          | (Ok llm_answer, w'') =>
              let llm_reply := LLM_HEADER +:+ llm_answer in
              let ss := append_message "assistant" llm_reply ss in
              (Done tt, draw (ChatMessage "assistant" llm_reply) ss, w'')
          | (Raised e, w'') => (Failed (Inner e), ss, w'')
          end
        else
          handle_and_show intent entities user_input ss w'
    end.

End Page.

End App.

(** ** A sample page

    The sample bank behind a page whose classifier knows one phrase and
    whose LLM repeats the question. *)

Module SamplePage.
Import Text Dialogue SampleBank DomainGate App.

Definition sample_predict (text : string) (top_k : nat) (b : Bank)
  : Outcome (list (string * Q)) * Bank :=
  (Ok (firstn top_k
         [(if contains (lower text) "transfer" then "transfer_money" else "out_of_scope",
           9 # 10)]), b).

Definition sample_generate (user_query : string) (b : Bank) : Outcome string * Bank :=
  (Ok ("You asked: " +:+ user_query), b).

Definition page : Services Bank :=
  {| collaborators := steady_bank; predict := sample_predict; generate := sample_generate |}.

(** The session of a new visitor. *)
Definition GREETING : string :=
  "Hello! I'm your virtual banking assistant. How can I help you today?".

Definition fresh : Session :=
  {| dm := idle; messages := [("assistant", GREETING)]; screen := [] |}.

(** A session in the middle of a transfer. *)
Definition mid_transfer : Session :=
  {| dm := awaiting_amount; messages := [("assistant", GREETING)]; screen := [] |}.

End SamplePage.

(** * Vocabulary of the properties *)

(** ** Texts matched by a pattern *)

Module RegexSpec.
Import Text Regex.

(** The texts a pattern can match, whatever surrounds them: [\b] consumes
    nothing and groups are transparent. *)
Fixpoint Lang (r : regex) (w : list ascii) : Prop :=
  match r with
  | REps => w = []
  | RChar p => exists c, w = [c] /\ p c = true
  | RCat r1 r2 => exists w1 w2, w = w1 ++ w2 /\ Lang r1 w1 /\ Lang r2 w2
  | RAlt r1 r2 => Lang r1 w \/ Lang r2 w
  | ROpt r1 => w = [] \/ Lang r1 w
  | RStar p => forallb p w = true
  | RRep p lo hi => forallb p w = true /\ lo <= List.length w <= hi
  | RWordB => w = []
  | RGroup _ r1 => Lang r1 w
  end.

(** What a successful run of a matcher tells: it consumed a text [w] of the
    language and its continuation succeeded after [w]. *)
Definition consumed (L : list ascii -> Prop) (pos : nat) (inp : list ascii)
    (k : Cont) (res : nat * Caps) : Prop :=
  exists w inp' prev' caps',
    inp = w ++ inp' /\ L w /\ k prev' (pos + List.length w) inp' caps' = Some res.

End RegexSpec.

(** ** Spans, candidates and the effects of the loop bodies *)

Module ExtractorSpec.
Import Text Regex EntityExtractor.

(** Two spans are span_disjoint when one ends before the other starts. *)
Definition span_disjoint (a b : Span) : Prop := snd a <= fst b \/ fst a >= snd b.

(** The overlap predicate of [_reserve_span], on two spans. *)
Definition overlap (a b : Span) : Prop := ~ (snd a <= fst b \/ fst a >= snd b).

(** A span is free when it overlaps no reserved span. *)
Definition free (sp : Span) (reserved : list Span) : Prop :=
  existsb (overlaps (fst sp) (snd sp)) reserved = false.

(** Pairwise span_disjoint spans, in the order of the list. *)
Definition apart (l : list Span) : Prop := ForallOrdPairs span_disjoint l.

(** The three effects a loop body can have on the state. *)
Definition skips (st st' : State) : Prop := st' = st.

Definition reserves (m : Match) (st st' : State) : Prop :=
  free (span_of m) (fst st) /\ st' = (fst st ++ [span_of m], snd st).

Definition emits (kind : string) (m : Match) (st st' : State) : Prop :=
  free (span_of m) (fst st) /\
  exists v, st' = (fst st ++ [span_of m], snd st ++ [(span_of m, mkEntity kind v)]).

(** The matches each phase loops over. *)
Definition txn_candidates (s : string) : list Match :=
  concat (map (fun pn => finditer (fst pn) s) txn_patterns).
Definition account_candidates (s : string) : list Match :=
  concat (map (fun pat => finditer pat s) account_patterns).
Definition amount_candidates (s : string) : list Match :=
  concat (map (fun pat => finditer pat s) amount_patterns).

(** The candidates of a kind of entity. *)
Definition candidates_of (s : string) (kind : string) : list Match :=
  if String.eqb kind "TXN_ID" then txn_candidates s
  else if String.eqb kind "ACCOUNT_NUMBER" then account_candidates s
  else if String.eqb kind "AMOUNT" then amount_candidates s
  else [].

(** The reserved spans are pairwise span_disjoint and every result sits on its
    own reserved span. *)
Definition spans_reserved (st : State) : Prop :=
  apart (fst st) /\ map fst (snd st) `sublist_of` fst st.

(** Every result was built from a whole match of a pattern of its kind. *)
Definition from_candidates (s : string) (st : State) : Prop :=
  forall sp e, (sp, e) ∈ snd st ->
    entity e ∈ ["TXN_ID"; "ACCOUNT_NUMBER"; "AMOUNT"] /\
    exists m, m ∈ candidates_of s (entity e) /\ sp = span_of m.

(** The priority of transaction ids over account numbers, for every pair
    of overlapping candidates. *)
Definition txn_always_wins (s : string) : Prop :=
  forall tm am,
    tm ∈ txn_candidates s -> am ∈ account_candidates s ->
    overlap (span_of tm) (span_of am) ->
    (exists code, (span_of tm, mkEntity "TXN_ID" code) ∈ extract_located s) /\
    (forall e, (span_of am, e) ∈ extract_located s -> entity e <> "ACCOUNT_NUMBER").

(** The transaction-id phase emits a [TXN_ID] for every span it
    reserves, and nothing else. *)
Definition txn_only (st : State) : Prop :=
  (forall sp, sp ∈ fst st -> exists code, (sp, mkEntity "TXN_ID" code) ∈ snd st) /\
  (forall sp e, (sp, e) ∈ snd st -> entity e = "TXN_ID").

(** After the transaction-id phase: its spans stay reserved, its results
    stay, and an account number never sits on a span that overlaps one of
    them. *)
Definition txn_respected (st0 st : State) : Prop :=
  (forall r, r ∈ fst st0 -> r ∈ fst st) /\
  (forall x, x ∈ snd st0 -> x ∈ snd st) /\
  (forall sp e, (sp, e) ∈ snd st -> entity e = "ACCOUNT_NUMBER" ->
                forall r, r ∈ fst st0 -> span_disjoint sp r).

(** The currency markers, in lower case. *)
Definition currency_prefixes : list string := ["₹"; "$"; "rs"; "rs."; "inr"; "usd"].
Definition currency_suffixes : list string := ["rupees"; "rs"; "inr"; "usd"; "dollars"].

(** A numeric literal: a digit, then digits, grouping commas and a
    decimal point. *)
Definition numeric_chr (c : ascii) : bool := is_digit c || ceqb c "," || ceqb c ".".

Definition numeric_literal (l : list ascii) : Prop :=
  exists d rest, l = d :: rest /\ is_digit d = true /\ forallb numeric_chr rest = true.

(** A currency symbol or code, blanks, the number. *)
Definition marker_then_number (l : list ascii) : Prop :=
  exists mk ws num,
    l = mk ++ ws ++ num /\ lower (text mk) ∈ currency_prefixes /\
    forallb is_space ws = true /\ numeric_literal num.

(** The number, blanks, a currency word. *)
Definition number_then_marker (l : list ascii) : Prop :=
  exists num ws mk,
    l = num ++ ws ++ mk /\ lower (text mk) ∈ currency_suffixes /\
    forallb is_space ws = true /\ numeric_literal num.

(** A character of a bare number: digits, commas, points and blanks. *)
Definition bare_chr (c : ascii) : bool := numeric_chr c || is_space c.

End ExtractorSpec.

(** ** The digits of an amount *)

Module AmountSpec.
Import Text.

(** The longest prefix of characters of a class. *)
Fixpoint take_while (p : ascii -> bool) (l : list ascii) : list ascii :=
  match l with
  | [] => []
  | c :: t => if p c then c :: take_while p t else []
  end.

Definition not_digit (c : ascii) : bool := negb (is_digit c).

(** The first maximal run of digits of a text. *)
Definition first_digit_run (l : list ascii) : list ascii :=
  take_while is_digit (drop_while not_digit l).

(** The digits of the amount in a text: the first run of digits of the
    text without its commas. *)
Definition amount_digits (t : string) : list ascii :=
  first_digit_run (remove_chr "," (chars t)).

(** They are few enough for [int]. *)
Definition amount_within_limit (t : string) : Prop :=
  (Z.of_nat (List.length (amount_digits t)) <= int_max_str_digits)%Z.

End AmountSpec.

(** ** States, runs and collaborators of the machine *)

Module MachineSpec.
Import Text Dialogue.

(** The intents that open a multi-turn flow. *)
Definition flows : list string := ["transfer_money"; "check_balance"; "card_block"].

(** Well-formed states of the machine. *)
Record wf (s : DM) : Prop := mk_wf {
  wf_flow : in_flow s = true -> exists f, f ∈ flows /\ active_intent s = Some f;
  wf_lock : forall f, f ∈ flows -> active_intent s = Some f -> in_flow s = true;
  wf_awaiting : awaiting s <> None -> in_flow s = true;
  wf_password : awaiting s = Some "password" ->
                is_Some (slots s !! "from_account") /\ is_Some (slots s !! "amount");
  wf_receiver : awaiting s = Some "receiver" ->
                is_Some (slots s !! "from_account") /\ is_Some (slots s !! "amount") /\
                is_Some (slots s !! "password")
}.

(** What a flow handler does to the lock: it keeps it or resets the
    machine. *)
Definition kept_or_reset (s s' : DM) : Prop :=
  s' = idle \/ (in_flow s' = in_flow s /\ active_intent s' = active_intent s).

(** A state under the lock of a flow. *)
Definition locked (s : DM) : Prop :=
  in_flow s = true /\ exists f, f ∈ flows /\ active_intent s = Some f.

(** The reply of the last step of the flow that [s] is in: the receiver
    step of a transfer, a balance that was found, a card that was
    blocked. *)
Definition terminal_reply (s : DM) (reply : string) : Prop :=
  (active_intent s = Some "transfer_money" /\ awaiting s = Some "receiver" /\
   (reply = MSG_TRANSFER_OK \/
    exists result, reply = "__ERROR__:" +:+ replace_del "❌ " result)) \/
  (active_intent s = Some "check_balance" /\
   exists acc : Account, reply = MSG_BALANCE +:+ str_of_Z (balance acc)) \/
  (active_intent s = Some "card_block" /\ exists card, reply = blocked_message card).

(** Slot filling touches the slots only, and never removes one. *)
Definition filled (s s' : DM) : Prop :=
  active_intent s' = active_intent s /\ awaiting s' = awaiting s /\
  in_flow s' = in_flow s /\
  (forall k, is_Some (slots s !! k) -> is_Some (slots s' !! k)).

(** The state [s] with other slots and another cursor. *)
Definition with_slots (s : DM) (sl : gmap string Value) (aw : option string) : DM :=
  {| active_intent := active_intent s; slots := sl; awaiting := aw; in_flow := in_flow s |}.

(** [wp m Q s w]: the run of [m] from [s] and [w] ends in an outcome, a
    state and a world that satisfy [Q]. *)
Definition wp {W A} (m : M (W:=W) A) (Q : Outcome A -> DM -> W -> Prop)
    (s : DM) (w : W) : Prop :=
  let '(o, s', w') := m s w in Q o s' w'.

(** What every flow handler guarantees about the state it leaves, whether
    it returns or raises: the lock is kept or the machine is reset, and a
    well-formed locked state stays well-formed. *)
Definition flow_post {W : Type} (s : DM) {A : Type} : Outcome A -> DM -> W -> Prop :=
  fun _ s' _ => kept_or_reset s s' /\ (locked s -> wf s -> wf s').

(** The states of a session: the state after [__init__] and every state a
    call of [handle] leaves behind, whatever the collaborators do. *)
Inductive reachable {W : Type} (env : Collaborators W) : DM -> Prop :=
| reach_init : reachable env idle
| reach_turn s intent entities user_text w o s' w' :
    reachable env s ->
    handle env intent entities user_text s w = (o, s', w') ->
    reachable env s'.

(** A collaborator call that always returns. *)
Definition answers {W A} (c : W -> Outcome A * W) : Prop :=
  forall w, exists a w', c w = (Ok a, w').

(** Collaborators none of whose calls raises. *)
Record dependable {W} (env : Collaborators W) : Prop := mk_dependable {
  dep_get_account : forall v, answers (get_account env v);
  dep_list_accounts : answers (list_accounts env);
  dep_transfer_money : forall a b c d, answers (transfer_money env a b c d);
  dep_connect : answers (db_connect env);
  dep_insert : forall row, answers (db_insert env row);
  dep_commit : answers (db_commit env);
  dep_close : answers (db_close env)
}.

(** Every [AMOUNT] entity carries an integer literal. *)
Definition integer_amounts (entities : list Entity) : Prop :=
  forall e, e ∈ entities -> entity e = "AMOUNT" -> is_Some (py_int (value e)).

(** The run ended with a value. *)
Definition replies {W A} : Outcome A -> DM -> W -> Prop :=
  fun o _ _ => exists a, o = Ok a.

(** The parts of the result of a run. *)
Definition state_after {W A} (r : Outcome A * DM * W) : DM := snd (fst r).
Definition outcome_of {W A} (r : Outcome A * DM * W) : Outcome A := fst (fst r).

End MachineSpec.

(** ** Entities read by the flows *)

Module FlowSpec.
Import Text Dialogue MachineSpec.

(** The value of the last entity of a kind. *)
Definition last_value (kind : string) (entities : list Entity) : option string :=
  value <$> last (List.filter (fun e => String.eqb (entity e) kind) entities).

(** The slots after the entities of a turn were read: the last
    [ACCOUNT_NUMBER] is the sender and the last [AMOUNT] the amount. *)
Definition entity_slots (entities : list Entity) (sl : gmap string Value)
  : gmap string Value :=
  let sl1 :=
    match last_value "ACCOUNT_NUMBER" entities with
    | Some v => <["from_account" := VStr (strip v)]> sl
    | None => sl
    end in
  match last_value "AMOUNT" entities ≫= py_int with
  | Some n => <["amount" := VInt n]> sl1
  | None => sl1
  end.

End FlowSpec.

(** ** The calls of a turn *)

Module TraceSpec.
Import Text Dialogue MachineSpec.

(** The calls a turn makes to its collaborators, with their arguments. *)
Inductive Call : Type :=
| CallGetAccount (number : Value)
| CallListAccounts
| CallTransfer (sender : Value) (receiver : string) (amount password : Value)
| CallConnect
| CallInsert (row : ChatRow)
| CallCommit
| CallClose.

(** A collaborator that also records that it was called. *)
Definition traced {W A} (label : Call) (c : W -> Outcome A * W)
  : W * list Call -> Outcome A * (W * list Call) :=
  fun wt => let '(o, w') := c (fst wt) in (o, (w', snd wt ++ [label])).

(** The collaborators [env], each call recorded in order. *)
Definition tracing {W} (env : Collaborators W) : Collaborators (W * list Call) :=
  {| get_account := fun v => traced (CallGetAccount v) (get_account env v);
     list_accounts := traced CallListAccounts (list_accounts env);
     transfer_money := fun a b c d => traced (CallTransfer a b c d) (transfer_money env a b c d);
     db_connect := traced CallConnect (db_connect env);
     db_insert := fun row => traced (CallInsert row) (db_insert env row);
     db_commit := traced CallCommit (db_commit env);
     db_close := traced CallClose (db_close env);
     str_entities := str_entities env |}.

Definition is_insert (c : Call) : bool :=
  match c with CallInsert _ => true | _ => false end.
Definition is_transfer (c : Call) : bool :=
  match c with CallTransfer _ _ _ _ => true | _ => false end.
Definition is_connect (c : Call) : bool :=
  match c with CallConnect => true | _ => false end.
Definition is_close (c : Call) : bool :=
  match c with CallClose => true | _ => false end.

Definition count (p : Call -> bool) (calls : list Call) : nat :=
  length (List.filter p calls).

(** The recorded run makes the calls [new] and is otherwise the run over
    [env]. *)
Definition records {W A} (m : M (W:=W) A) (m' : M (W:=W * list Call) A)
    (s : DM) (w : W) (tr new : list Call) : Prop :=
  m' s (w, tr) = (let '(o, s', w') := m s w in (o, s', (w', tr ++ new))).

Definition erases {W A} (m : M (W:=W) A) (m' : M (W:=W * list Call) A) : Prop :=
  forall s w tr, exists new, records m m' s w tr new.

(** The calls of one [log_interaction]. *)
Definition log_calls (row : ChatRow) : list Call :=
  [CallConnect; CallInsert row; CallCommit; CallClose].

(** What [log_interaction] did when it ended with [o]: all four calls, or
    the calls up to the one that raised. *)
Definition log_shape {A} (o : Outcome A) (row : ChatRow) (lg : list Call) : Prop :=
  lg = log_calls row \/
  ((exists e, o = Raised e) /\
   (lg = [CallConnect] \/ lg = [CallConnect; CallInsert row] \/
    lg = [CallConnect; CallInsert row; CallCommit])).

Definition returned {A} (o : Outcome A) : bool :=
  match o with Ok _ => true | Raised _ => false end.

(** The discipline of the calls [new] of one turn on the trimmed text [t]
    from the state [s]. *)
Definition call_discipline (s : DM) (t : string) (ok : bool) (new : list Call) : Prop :=
  count is_insert new <= 1 /\ count is_transfer new <= 1 /\
  count is_close new <= count is_connect new /\ count is_connect new <= 1 /\
  (ok = true -> count is_close new = count is_connect new) /\
  (forall a b c d, CallTransfer a b c d ∈ new ->
     active_intent s = Some "transfer_money" /\
     awaiting s = Some "receiver" /\ slots s !! "from_account" = Some a /\
     b = receiver_of t /\ slots s !! "amount" = Some c /\
     slots s !! "password" = Some d) /\
  (forall row, CallInsert row ∈ new -> user_query row = t).

End TraceSpec.

(** ** Keywords of the domain gate *)

Module GateSpec.
Import Text DomainGate.

(** [k] occurs in [l]. *)
Definition occurs (k l : list ascii) : Prop := exists pre post, l = pre ++ k ++ post.

(** The text names a banking keyword, in any casing, anywhere (also inside
    a longer word). *)
Definition names_keyword (text : string) : Prop :=
  exists k, k ∈ BANK_KEYWORDS /\ occurs (chars k) (map to_lower (chars text)).

(** A word without blanks. *)
Definition visible (k : list ascii) : bool := forallb (fun c => negb (is_space c)) k.

End GateSpec.

(** ** The shape of an account match *)

Module AccountSpec.
Import Text.

(** The words an account pattern starts with, in lower case. *)
Definition account_keywords : list string := ["account"; "acct"; "a/c"; "to"].

(** A keyword, what stands between it and the number, and the number:
    four to twenty-four digits at the end of the match. *)
Definition keyword_then_digits (l : list ascii) : Prop :=
  exists kw mid d,
    l = kw ++ mid ++ d /\ lower (text kw) ∈ account_keywords /\
    forallb is_digit d = true /\ 4 <= List.length d <= 24.

End AccountSpec.

(** * Properties *)

(** ** Facts on texts *)

Module TextFacts.
Import Text.

Lemma chars_text l : chars (text l) = l.
Proof. apply list_ascii_of_string_of_list_ascii. Qed.

Lemma text_chars s : text (chars s) = s.
Proof. apply string_of_list_ascii_of_string. Qed.

Lemma chars_app a b : chars (a +:+ b) = chars a ++ chars b.
Proof. induction a as [|c a IH]; simpl; [done|]. unfold chars in *. simpl. by rewrite IH. Qed.

Lemma chars_inj a b : chars a = chars b -> a = b.
Proof. intros H. rewrite <- (text_chars a), <- (text_chars b). by rewrite H. Qed.

Lemma drop_while_app_keep p l suf :
  (forall c t, suf = c :: t -> p c = false) ->
  drop_while p (l ++ suf) = drop_while p l ++ suf.
Proof.
  intros Hs. induction l as [|c l IH]; simpl.
  - destruct suf as [|c t]; [done|]. simpl. by rewrite (Hs c t).
  - destruct (p c); [apply IH | done].
Qed.

Lemma drop_while_head p c t : p c = false -> drop_while p (c :: t) = c :: t.
Proof. intros H. simpl. by rewrite H. Qed.

(** Stripping a text that ends with a visible suffix strips its front only. *)
Lemma strip_l_app_visible l suf a b mid :
  suf = a :: mid ++ [b] -> is_space a = false -> is_space b = false ->
  strip_l (l ++ suf) = lstrip_l l ++ suf.
Proof.
  intros -> Ha Hb. unfold strip_l, lstrip_l, rstrip_l.
  rewrite (drop_while_app_keep is_space l (a :: mid ++ [b])).
  2:{ intros c t [= <- _]. done. }
  rewrite rev_app_distr. simpl rev at 2.
  rewrite rev_app_distr. simpl.
  rewrite Hb. simpl. rewrite rev_app_distr. simpl.
  rewrite rev_app_distr, !rev_involutive. simpl.
  by rewrite <- !app_assoc.
Qed.

Lemma split_chr_nonempty sep l : split_chr sep l <> [].
Proof. induction l as [|c l IH]; simpl; [done|]. destruct (ceqb c sep); [done|]. destruct (split_chr sep l); done. Qed.

Lemma ceqb_eq a b : ceqb a b = true <-> a = b.
Proof. apply Ascii.eqb_eq. Qed.

Lemma ceqb_neq a b : ceqb a b = false <-> a <> b.
Proof. apply Ascii.eqb_neq. Qed.

Lemma last_piece_cons x xs : xs <> [] -> last_piece (x :: xs) = last_piece xs.
Proof. unfold last_piece. destruct xs; done. Qed.

(** Without the separator the text is the only piece. *)
Lemma split_chr_absent sep l : sep ∉ l -> split_chr sep l = [l].
Proof.
  induction l as [|c l IH]; intros Hn; simpl; [done|].
  destruct (ceqb c sep) eqn:E.
  - apply ceqb_eq in E. subst. exfalso. apply Hn. left.
  - rewrite IH; [done|]. intros H. apply Hn. by right.
Qed.

(** The last piece is what follows the last separator. *)
Lemma last_piece_split sep pre suf :
  sep ∉ suf -> last_piece (split_chr sep (pre ++ sep :: suf)) = suf.
Proof.
  intros Hn. induction pre as [|c pre IH]; simpl.
  - rewrite (proj2 (ceqb_eq sep sep) eq_refl).
    rewrite last_piece_cons by apply split_chr_nonempty.
    by rewrite split_chr_absent.
  - destruct (ceqb c sep).
    + rewrite last_piece_cons by apply split_chr_nonempty. exact IH.
    + pose proof (split_chr_nonempty sep (pre ++ sep :: suf)) as Hne.
      destruct (split_chr sep (pre ++ sep :: suf)) as [|h r] eqn:E; [done|].
      destruct r as [|h' r'].
      * (* a single piece would not contain the separator *)
        exfalso. clear IH Hne.
        assert (Hlen : forall l, 1 < List.length (split_chr sep l) \/ sep ∉ l).
        { clear. induction l as [|x l IH]; simpl.
          - right. apply not_elem_of_nil.
          - destruct (ceqb x sep) eqn:Ex.
            + left. simpl. pose proof (split_chr_nonempty sep l).
              destruct (split_chr sep l); simpl; [done|lia].
            + destruct IH as [IH|IH].
              * left. destruct (split_chr sep l); simpl in *; lia.
              * right. apply ceqb_neq in Ex. intros Hin.
                apply elem_of_cons in Hin as [->|Hin]; [done|by apply IH]. }
        destruct (Hlen (pre ++ sep :: suf)) as [H|H].
        -- rewrite E in H. simpl in H. lia.
        -- apply H. apply elem_of_app. right. left.
      * unfold last_piece in *. simpl in *. exact IH.
Qed.

End TextFacts.

(** ** Soundness of the matcher *)

Module RegexFacts.
Import Text TextFacts Regex RegexSpec.

Lemma star_k_sound p k res : forall inp prev pos caps,
  star_k p prev pos inp caps k = Some res ->
  consumed (fun w => forallb p w = true) pos inp k res.
Proof.
  induction inp as [|c t IH]; intros prev pos caps H; cbn [star_k] in H.
  - exists [], [], prev, caps. rewrite Nat.add_0_r. done.
  - destruct (p c) eqn:Hp.
    + destruct (star_k p (Some c) (S pos) t caps k) as [r|] eqn:E.
      * injection H as ->. apply IH in E as (w & inp' & prev' & caps' & -> & Hw & Hk).
        exists (c :: w), inp', prev', caps'. cbn. rewrite Hp, Hw.
        split; [done|]. split; [done|]. by rewrite <- Nat.add_succ_comm.
      * exists [], (c :: t), prev, caps. rewrite Nat.add_0_r. done.
    + exists [], (c :: t), prev, caps. rewrite Nat.add_0_r. done.
Qed.

Lemma rep_k_sound p k res : forall hi lo inp prev pos caps,
  rep_k p lo hi prev pos inp caps k = Some res ->
  consumed (fun w => forallb p w = true /\ lo <= List.length w <= hi) pos inp k res.
Proof.
  assert (Hstop : forall lo hi inp prev pos caps,
             (if lo =? 0 then k prev pos inp caps else None) = Some res ->
             consumed (fun w => forallb p w = true /\ lo <= List.length w <= hi)
                      pos inp k res).
  { intros lo hi inp prev pos caps H. destruct (Nat.eqb_spec lo 0) as [->|]; [|done].
    exists [], inp, prev, caps. rewrite Nat.add_0_r. cbn. repeat split; try done. lia. }
  induction hi as [|hi IH]; intros lo inp prev pos caps H; cbn [rep_k] in H.
  - by eapply Hstop.
  - destruct inp as [|c t]; [by eapply Hstop|].
    destruct (p c) eqn:Hp; [|by eapply Hstop].
    destruct (rep_k p (pred lo) hi (Some c) (S pos) t caps k) as [r|] eqn:E;
      [|by eapply Hstop].
    injection H as ->. apply IH in E as (w & inp' & prev' & caps' & -> & [Hw Hl] & Hk).
    exists (c :: w), inp', prev', caps'. cbn. rewrite Hp, Hw.
    repeat split; try done; try lia. by rewrite <- Nat.add_succ_comm.
Qed.

(** Soundness of the matcher. *)
Lemma rmatch_sound r : forall k res prev pos inp caps,
  rmatch r prev pos inp caps k = Some res ->
  consumed (Lang r) pos inp k res.
Proof.
  induction r as [|p|r1 IH1 r2 IH2|r1 IH1 r2 IH2|r1 IH1|p|p lo hi| |i r1 IH1];
    intros k res prev pos inp caps H; cbn [rmatch] in H.
  - exists [], inp, prev, caps. rewrite Nat.add_0_r. done.
  - destruct inp as [|c t]; [done|]. destruct (p c) eqn:Hp; [|done].
    exists [c], t, (Some c), caps. cbn. rewrite Nat.add_1_r. eauto.
  - apply IH1 in H as (w1 & inp1 & prev1 & caps1 & -> & Hw1 & H).
    apply IH2 in H as (w2 & inp2 & prev2 & caps2 & -> & Hw2 & H).
    exists (w1 ++ w2), inp2, prev2, caps2. rewrite length_app, Nat.add_assoc, <- app_assoc.
    cbn. eauto 10.
  - destruct (rmatch r1 prev pos inp caps k) as [x|] eqn:E.
    + injection H as ->. apply IH1 in E as (w & inp' & prev' & caps' & ? & ? & ?).
      exists w, inp', prev', caps'. cbn. eauto.
    + apply IH2 in H as (w & inp' & prev' & caps' & ? & ? & ?).
      exists w, inp', prev', caps'. cbn. eauto.
  - destruct (rmatch r1 prev pos inp caps k) as [x|] eqn:E.
    + injection H as ->. apply IH1 in E as (w & inp' & prev' & caps' & ? & ? & ?).
      exists w, inp', prev', caps'. cbn. eauto.
    + exists [], inp, prev, caps. rewrite Nat.add_0_r. cbn. eauto.
  - by apply star_k_sound in H.
  - by apply rep_k_sound in H.
  - destruct (at_boundary prev inp); [|done].
    exists [], inp, prev, caps. rewrite Nat.add_0_r. done.
  - apply IH1 in H as (w & inp' & prev' & caps' & ? & ? & ?).
    exists w, inp', prev', (((i, (pos, pos + List.length w)) :: caps')). cbn. eauto.
Qed.

(** Every match of [scan] spans a text of the language. *)
Lemma scan_sound r : forall inp prev pos skip m,
  m ∈ scan r prev pos inp skip ->
  exists pre w post,
    inp = pre ++ w ++ post /\ m_start m = pos + List.length pre /\
    m_end m = m_start m + List.length w /\ Lang r w.
Proof.
  assert (Hhead : forall inp prev pos e caps,
             rmatch r prev pos inp [] accept = Some (e, caps) ->
             exists w post, inp = w ++ post /\ e = pos + List.length w /\ Lang r w).
  { intros inp prev pos e caps H.
    apply rmatch_sound in H as (w & inp' & prev' & caps' & -> & Hw & Hk).
    injection Hk as <- _. by exists w, inp'. }
  assert (Hshift : forall c t pos m,
             (exists pre w post, t = pre ++ w ++ post /\
                m_start m = S pos + List.length pre /\
                m_end m = m_start m + List.length w /\ Lang r w) ->
             exists pre w post, c :: t = pre ++ w ++ post /\
                m_start m = pos + List.length pre /\
                m_end m = m_start m + List.length w /\ Lang r w).
  { intros c t pos m (pre & w & post & -> & Hs & He & Hw).
    exists (c :: pre), w, post. cbn. repeat split; try done; lia. }
  induction inp as [|c t IH]; intros prev pos skip m H.
  - destruct skip; cbn [scan] in H; [|by apply elem_of_nil in H].
    destruct (rmatch r prev pos [] [] accept) as [[e caps]|] eqn:E;
      [|by apply elem_of_nil in H].
    apply list_elem_of_singleton in H as ->.
    apply Hhead in E as (w & post & Hin & -> & Hw).
    exists [], w, post. cbn. repeat split; try done; lia.
  - destruct skip; cbn [scan] in H.
    + destruct (rmatch r prev pos (c :: t) [] accept) as [[e caps]|] eqn:E.
      * apply elem_of_cons in H as [->|H].
        -- apply Hhead in E as (w & post & Hin & -> & Hw).
           exists [], w, post. cbn. repeat split; try done; lia.
        -- apply Hshift. by apply IH in H.
      * apply Hshift. by apply IH in H.
    + apply Hshift. by apply IH in H.
Qed.

Lemma slice_middle (pre w post : list ascii) :
  slice (List.length pre) (List.length pre + List.length w) (pre ++ w ++ post) = w.
Proof.
  unfold slice.
  replace (List.length pre + List.length w - List.length pre) with (List.length w) by lia.
  change (skipn (List.length pre) (pre ++ w ++ post)) with (drop (length pre) (pre ++ w ++ post)).
  rewrite drop_app_length. apply take_app_length.
Qed.

(** The text of a match of [finditer] belongs to the language. *)
Lemma finditer_sound r s m :
  m ∈ finditer r s -> Lang r (slice (m_start m) (m_end m) (chars s)).
Proof.
  intros H. apply scan_sound in H as (pre & w & post & -> & Hs & He & Hw).
  cbn in Hs. rewrite He, Hs. by rewrite slice_middle.
Qed.

End RegexFacts.

(** ** The entity extractor *)

Module ExtractorFacts.
Import Text TextFacts Regex RegexSpec RegexFacts EntityExtractor ExtractorSpec.

(** Membership in a list given by its elements. *)
Ltac in_list :=
  repeat first [apply list_elem_of_here | apply list_elem_of_further].

Lemma overlaps_false start end_ sp :
  overlaps start end_ sp = false <-> span_disjoint (start, end_) sp.
Proof.
  unfold overlaps, span_disjoint. cbn. rewrite negb_false_iff, orb_true_iff.
  rewrite !Nat.leb_le. lia.
Qed.

Lemma overlaps_sym a b c d : overlaps a b (c, d) = overlaps c d (a, b).
Proof. unfold overlaps. cbn. by rewrite orb_comm. Qed.

Lemma disjoint_sym a b : span_disjoint a b -> span_disjoint b a.
Proof. unfold span_disjoint. lia. Qed.

Lemma free_disjoint sp reserved :
  free sp reserved <-> Forall (span_disjoint sp) reserved.
Proof.
  unfold free. destruct sp as [a b]. cbn. induction reserved as [|r rs IH]; cbn.
  - split; [constructor|done].
  - rewrite orb_false_iff, IH, overlaps_false. split.
    + intros [? ?]. by constructor.
    + by inversion 1.
Qed.

Lemma reserve_cases reserved start end_ :
  (existsb (overlaps start end_) reserved = true /\
   _reserve_span reserved start end_ = (true, reserved)) \/
  (free (start, end_) reserved /\
   _reserve_span reserved start end_ = (false, reserved ++ [(start, end_)])).
Proof.
  unfold _reserve_span, free. cbn.
  destruct (existsb (overlaps start end_) reserved); [by left | by right].
Qed.

Lemma txn_step_effect s n st m :
  let st' := txn_step s n st m in skips st st' \/ emits "TXN_ID" m st st'.
Proof.
  unfold txn_step. destruct st as [reserved results]. cbn [fst snd].
  destruct (List.last _ None) as [g|]; [|by left].
  destruct (reserve_cases reserved (m_start m) (m_end m)) as [[_ ->]|[Hf ->]].
  - by left.
  - right. split; [done|]. by eexists.
Qed.

Lemma account_step_effect s st m :
  let st' := account_step s st m in
  skips st st' \/ reserves m st st' \/ emits "ACCOUNT_NUMBER" m st st'.
Proof.
  unfold account_step. destruct st as [reserved results]. cbn [fst snd].
  destruct (group s m 1) as [num|]; [|by left].
  destruct (nonempty num); [|by left].
  destruct (reserve_cases reserved (m_start m) (m_end m)) as [[_ ->]|[Hf ->]].
  - by left.
  - destruct (nonempty _).
    + right. right. split; [done|]. by eexists.
    + right. left. by split.
Qed.

Lemma amount_step_effect s st m :
  let st' := amount_step s st m in
  skips st st' \/ reserves m st st' \/ emits "AMOUNT" m st st'.
Proof.
  unfold amount_step. destruct st as [reserved results]. cbn [fst snd].
  destruct (reserve_cases reserved (m_start m) (m_end m)) as [[_ ->]|[Hf ->]].
  - by left.
  - destruct (nonempty _).
    + right. right. split; [done|]. by eexists.
    + right. left. by split.
Qed.

(** A candidate whose span overlaps a reserved span leaves the state as it
    is. *)
Lemma overlapping_candidate_dropped s n st m :
  existsb (overlaps (m_start m) (m_end m)) (fst st) = true ->
  txn_step s n st m = st /\ account_step s st m = st /\ amount_step s st m = st.
Proof.
  intros H. destruct st as [reserved results]. cbn [fst] in H.
  unfold txn_step, account_step, amount_step, _reserve_span. cbn [fst snd].
  rewrite H. repeat split.
  - by destruct (List.last _ None).
  - destruct (group s m 1) as [num|]; [|done]. by destruct (nonempty num).
Qed.

Lemma fold_left_inv {A B} (P : A -> Prop) (f : A -> B -> A) (l : list B) (a : A) :
  P a -> (forall a b, b ∈ l -> P a -> P (f a b)) -> P (fold_left f l a).
Proof.
  revert a. induction l as [|b l IH]; intros a Ha H; cbn; [done|].
  apply IH; [apply H; [left|done] | intros; apply H; [by right|done]].
Qed.

Lemma fold_patterns_inv {A} (P : State -> Prop) (step : A -> State -> Match -> State)
    (find : A -> list Match) (pats : list A) (st : State) :
  P st ->
  (forall p m st, p ∈ pats -> m ∈ find p -> P st -> P (step p st m)) ->
  P (fold_left (fun st p => fold_left (step p) (find p) st) pats st).
Proof.
  intros Hst H. apply fold_left_inv; [done|].
  intros st' p Hp Hst'. apply fold_left_inv; [done|]. intros; by eapply H.
Qed.

Lemma elem_of_candidates {A} (find : A -> list Match) (pats : list A) p m :
  p ∈ pats -> m ∈ find p -> m ∈ concat (map find pats).
Proof.
  intros Hp Hm. apply list_elem_of_In, in_concat. exists (find p).
  split; [apply in_map; by apply list_elem_of_In | by apply list_elem_of_In].
Qed.

(** Invariants of the three phases. *)
Lemma txn_phase_inv (P : State -> Prop) s st :
  P st ->
  (forall m st st', m ∈ txn_candidates s -> P st ->
                    skips st st' \/ emits "TXN_ID" m st st' -> P st') ->
  P (txn_phase s st).
Proof.
  intros Hst H. unfold txn_phase.
  apply (fold_patterns_inv P (fun pn => txn_step s (snd pn)) (fun pn => finditer (fst pn) s));
    [done|].
  intros p m st' Hp Hm Hst'. eapply H; [|done|apply txn_step_effect].
  by apply (elem_of_candidates (fun pn => finditer (fst pn) s) txn_patterns p).
Qed.

Lemma account_phase_inv (P : State -> Prop) s st :
  P st ->
  (forall m st st', m ∈ account_candidates s -> P st ->
                    skips st st' \/ reserves m st st' \/ emits "ACCOUNT_NUMBER" m st st' ->
                    P st') ->
  P (account_phase s st).
Proof.
  intros Hst H. unfold account_phase.
  apply (fold_patterns_inv P (fun _ => account_step s) (fun pat => finditer pat s));
    [done|].
  intros p m st' Hp Hm Hst'. eapply H; [|done|apply account_step_effect].
  by apply (elem_of_candidates (fun pat => finditer pat s) account_patterns p).
Qed.

Lemma amount_phase_inv (P : State -> Prop) s st :
  P st ->
  (forall m st st', m ∈ amount_candidates s -> P st ->
                    skips st st' \/ reserves m st st' \/ emits "AMOUNT" m st st' ->
                    P st') ->
  P (amount_phase s st).
Proof.
  intros Hst H. unfold amount_phase.
  apply (fold_patterns_inv P (fun _ => amount_step s) (fun pat => finditer pat s));
    [done|].
  intros p m st' Hp Hm Hst'. eapply H; [|done|apply amount_step_effect].
  by apply (elem_of_candidates (fun pat => finditer pat s) amount_patterns p).
Qed.

(** An invariant of every loop body is an invariant of [extract]. *)
Lemma extract_state_inv (P : State -> Prop) s :
  P ([], []) ->
  (forall kind m st st',
      kind ∈ ["TXN_ID"; "ACCOUNT_NUMBER"; "AMOUNT"] ->
      m ∈ candidates_of s kind -> P st ->
      reserves m st st' \/ emits kind m st st' -> P st') ->
  P (extract_state s).
Proof.
  intros H0 H. unfold extract_state. destruct (nonempty s); [|done].
  apply amount_phase_inv; [apply account_phase_inv; [apply txn_phase_inv|]|]; try done.
  - intros m st st' Hm Hst [->|He]; [done|].
    apply (H "TXN_ID" m st); try done; [in_list|by right].
  - intros m st st' Hm Hst [->|He]; [done|].
    apply (H "ACCOUNT_NUMBER" m st); try done. in_list.
  - intros m st st' Hm Hst [->|He]; [done|].
    apply (H "AMOUNT" m st); try done. in_list.
Qed.

Lemma overlaps_true a b : overlaps (fst a) (snd a) b = true <-> overlap a b.
Proof.
  unfold overlaps, overlap. rewrite negb_true_iff, orb_false_iff, !Nat.leb_gt. lia.
Qed.

Lemma overlap_not_disjoint a b : overlap a b <-> ~ span_disjoint a b.
Proof. done. Qed.

Lemma apart_snoc l x : apart l -> Forall (span_disjoint x) l -> apart (l ++ [x]).
Proof.
  unfold apart. induction 1 as [|a l Ha Hl IH]; intros Hx; cbn.
  - repeat constructor.
  - inversion Hx as [|? ? Hxa Hxl]; subst. constructor; [|by apply IH].
    apply Forall_app. split; [done|]. constructor; [by apply disjoint_sym|constructor].
Qed.

Lemma Forall_sublist {A} (P : A -> Prop) (l1 l2 : list A) :
  l1 `sublist_of` l2 -> Forall P l2 -> Forall P l1.
Proof.
  induction 1 as [|x l1 l2 _ IH|x l1 l2 _ IH]; intros H; [done| |];
    inversion H; subst; [constructor|]; auto.
Qed.

Lemma apart_sublist l1 l2 : l1 `sublist_of` l2 -> apart l2 -> apart l1.
Proof.
  unfold apart. induction 1 as [|x l1 l2 Hs IH|x l1 l2 Hs IH]; intros H; [done| |];
    inversion H; subst; [constructor|]; auto.
  by eapply Forall_sublist.
Qed.

Lemma apart_lookup l : apart l ->
  forall i j a b, i < j -> l !! i = Some a -> l !! j = Some b -> span_disjoint a b.
Proof.
  unfold apart. induction 1 as [|x l Hx Hl IH]; intros i j a b Hij Hi Hj; [done|].
  destruct j as [|j]; [lia|]. cbn in Hj. destruct i as [|i]; cbn in Hi.
  - injection Hi as ->. pose proof (proj1 (Forall_lookup _ _) Hx j b Hj). done.
  - apply (IH i j); [lia|done|done].
Qed.

Lemma spans_reserved_extract s : spans_reserved (extract_state s).
Proof.
  apply extract_state_inv.
  - split; [constructor|cbn; constructor].
  - intros kind m [reserved results] st' _ _ [Ha Hs] Heff. unfold spans_reserved in *.
    cbn [fst snd] in *.
    assert (Hap : free (span_of m) reserved -> apart (reserved ++ [span_of m])).
    { intros Hf. apply apart_snoc; [done|]. by apply free_disjoint. }
    destruct Heff as [[Hf ->]|[Hf [v ->]]]; cbn [fst snd].
    + split; [auto|]. by apply sublist_inserts_r.
    + split; [auto|]. rewrite map_app. cbn. by apply sublist_app.
Qed.

Lemma from_candidates_extract s : from_candidates s (extract_state s).
Proof.
  apply extract_state_inv.
  - intros sp e H. by apply elem_of_nil in H.
  - intros kind m [reserved results] st' Hk Hm Hst Heff sp e H.
    destruct Heff as [[Hf ->]|[Hf [v ->]]]; cbn [fst snd] in *; [by apply Hst|].
    apply elem_of_app in H as [H|H]; [by apply Hst|].
    apply list_elem_of_singleton in H. injection H as -> ->. cbn. eauto.
Qed.

(** *** Languages of the pattern combinators *)

Lemma Lang_cat_cons r rs w :
  Lang (cat (r :: rs)) w <->
  exists w1 w2, w = w1 ++ w2 /\ Lang r w1 /\ Lang (cat rs) w2.
Proof.
  destruct rs as [|r' rs]; cbn [cat Lang]; [|done]. split.
  - intros H. exists w, []. by rewrite app_nil_r.
  - intros (w1 & w2 & -> & H & ->). by rewrite app_nil_r.
Qed.

Lemma Lang_alt rs w : Lang (alt rs) w -> exists r, r ∈ rs /\ Lang r w.
Proof.
  induction rs as [|r rs IH]; cbn [alt Lang].
  - by intros (c & _ & ?).
  - destruct rs as [|r' rs].
    + intros H. exists r. split; [left|done].
    + cbn [Lang]. intros [H|H].
      * exists r. split; [left|done].
      * destruct (IH H) as (x & Hx & Hl). exists x. split; [by right|done].
Qed.

Lemma Lang_ci c w : Lang (ci c) w -> exists x, w = [x] /\ to_lower x = to_lower c.
Proof. intros (x & -> & H). exists x. split; [done|]. by apply ceqb_eq. Qed.

Lemma Lang_lit_chars l w :
  Lang (cat (map ci l)) w -> map to_lower w = map to_lower l.
Proof.
  revert w. induction l as [|c l IH]; intros w H.
  - cbn in H. by subst.
  - cbn [map] in H. apply Lang_cat_cons in H as (w1 & w2 & -> & H1 & H2).
    apply Lang_ci in H1 as (x & -> & Hx). cbn. rewrite Hx. f_equal. by apply IH.
Qed.

Lemma Lang_lit s w : Lang (lit s) w -> map to_lower w = map to_lower (chars s).
Proof. apply Lang_lit_chars. Qed.

Lemma Lang_exact_chars l w : Lang (cat (map (fun c => RChar (ceqb c)) l)) w -> w = l.
Proof.
  revert w. induction l as [|c l IH]; intros w H.
  - cbn in H. by subst.
  - cbn [map] in H. apply Lang_cat_cons in H as (w1 & w2 & -> & (x & -> & Hx) & H2).
    apply ceqb_eq in Hx. subst. cbn. f_equal. by apply IH.
Qed.

Lemma Lang_exact s w : Lang (exact s) w -> w = chars s.
Proof. apply Lang_exact_chars. Qed.

(** Only a letter has another case. *)
Lemma to_lower_fixed x c : to_lower x = c -> is_lower c = false -> x = c.
Proof.
  unfold to_lower. destruct (is_upper x) eqn:Eu; [|done].
  intros <- Hl. exfalso. unfold is_upper, is_lower, code in *.
  apply andb_prop in Eu as [E1 E2]. apply Nat.leb_le in E1, E2.
  rewrite nat_ascii_embedding in Hl by lia.
  apply andb_false_iff in Hl as [Hl|Hl]; apply Nat.leb_gt in Hl; lia.
Qed.

Lemma lower_text l : lower (text l) = text (map to_lower l).
Proof. unfold lower. by rewrite chars_text. Qed.

(** *** The shape of an amount match *)

Lemma forallb_weaken {A} (p q : A -> bool) l :
  (forall x, p x = true -> q x = true) -> forallb p l = true -> forallb q l = true.
Proof.
  intros H. rewrite !forallb_forall. auto.
Qed.

Lemma Lang_number_literal w : Lang number_literal w -> numeric_literal w.
Proof.
  unfold number_literal. intros H.
  apply Lang_cat_cons in H as (w1 & w2 & -> & (d & -> & Hd) & H).
  apply Lang_cat_cons in H as (w2' & w3 & -> & Hs & H).
  apply Lang_cat_cons in H as (w3' & w4 & -> & Ho & H). cbn in H. subst w4.
  exists d, (w2' ++ w3' ++ []). split; [done|]. split; [done|].
  rewrite !forallb_app. cbn [Lang] in Hs.
  apply andb_true_intro. split.
  - revert Hs. apply forallb_weaken. unfold digit_or_comma, numeric_chr.
    intros x ->. done.
  - rewrite andb_true_r. destruct Ho as [->|Ho]; [done|].
    apply Lang_cat_cons in Ho as (a & b & -> & Ha & Hb).
    apply Lang_ci in Ha as (x & -> & Hx). cbn [cat plus Lang] in Hb.
    destruct Hb as (b1 & b2 & -> & (y & -> & Hy) & Hb2).
    cbn [app forallb].
    assert (Hdot : numeric_chr x = true).
    { apply to_lower_fixed in Hx; [|done]. by subst. }
    rewrite Hdot. unfold numeric_chr at 1. rewrite Hy. cbn.
    revert Hb2. apply forallb_weaken. unfold numeric_chr. by intros z ->.
Qed.

Lemma text_inj l1 l2 : text l1 = text l2 -> l1 = l2.
Proof. intros H. by rewrite <- (chars_text l1), <- (chars_text l2), H. Qed.

Lemma lowered l (s : string) :
  map to_lower l = map to_lower (chars s) -> lower (text l) = lower s.
Proof. intros H. rewrite lower_text. unfold lower. by rewrite H. Qed.

Lemma Lang_currency_prefix mk :
  Lang currency_prefix mk -> lower (text mk) ∈ currency_prefixes.
Proof.
  unfold currency_prefix, currency_prefixes. intros H.
  apply Lang_alt in H as (r & Hr & H).
  repeat (apply elem_of_cons in Hr as [->|Hr]).
  - apply Lang_exact in H as ->. in_list.
  - apply Lang_ci in H as (x & -> & Hx). apply to_lower_fixed in Hx as ->; [|done]. in_list.
  - apply Lang_cat_cons in H as (w1 & w2 & -> & H1 & H2).
    apply Lang_lit in H1. destruct H2 as [->|H2].
    + rewrite app_nil_r. rewrite (lowered _ "Rs" H1). in_list.
    + apply Lang_ci in H2 as (x & -> & Hx). apply to_lower_fixed in Hx as ->; [|done].
      rewrite (lowered _ "Rs."); [in_list|]. rewrite map_app, H1. done.
  - rewrite (lowered _ "INR" (Lang_lit _ _ H)). in_list.
  - rewrite (lowered _ "USD" (Lang_lit _ _ H)). in_list.
  - by apply elem_of_nil in Hr.
Qed.

Lemma Lang_currency_suffix mk :
  Lang currency_suffix mk -> lower (text mk) ∈ currency_suffixes.
Proof.
  unfold currency_suffix, currency_suffixes. intros H.
  apply Lang_alt in H as (r & Hr & H).
  repeat (apply elem_of_cons in Hr as [->|Hr]).
  - rewrite (lowered _ "rupees" (Lang_lit _ _ H)). in_list.
  - rewrite (lowered _ "rs" (Lang_lit _ _ H)). in_list.
  - rewrite (lowered _ "inr" (Lang_lit _ _ H)). in_list.
  - rewrite (lowered _ "usd" (Lang_lit _ _ H)). in_list.
  - rewrite (lowered _ "dollars" (Lang_lit _ _ H)). in_list.
  - by apply elem_of_nil in Hr.
Qed.

Lemma Lang_amount_prefixed w :
  Lang (RGroup 1 (cat [RWordB; currency_prefix; RStar is_space; number_literal; RWordB])) w ->
  marker_then_number w.
Proof.
  cbn [Lang]. intros H.
  apply Lang_cat_cons in H as (w0 & w1 & -> & Hw0 & H). cbn in Hw0. subst w0.
  apply Lang_cat_cons in H as (mk & w2 & -> & Hmk & H).
  apply Lang_cat_cons in H as (ws & w3 & -> & Hws & H).
  apply Lang_cat_cons in H as (num & w4 & -> & Hnum & H). cbn in H. subst w4.
  exists mk, ws, num. cbn [app]. rewrite app_nil_r.
  split; [done|]. split; [by apply Lang_currency_prefix|].
  split; [done|by apply Lang_number_literal].
Qed.

Lemma Lang_amount_suffixed w :
  Lang (RGroup 1 (cat [RWordB; number_literal; RStar is_space; currency_suffix; RWordB])) w ->
  number_then_marker w.
Proof.
  cbn [Lang]. intros H.
  apply Lang_cat_cons in H as (w0 & w1 & -> & Hw0 & H). cbn in Hw0. subst w0.
  apply Lang_cat_cons in H as (num & w2 & -> & Hnum & H).
  apply Lang_cat_cons in H as (ws & w3 & -> & Hws & H).
  apply Lang_cat_cons in H as (mk & w4 & -> & Hmk & H). cbn in H. subst w4.
  exists num, ws, mk. cbn [app]. rewrite app_nil_r.
  split; [done|]. split; [by apply Lang_currency_suffix|].
  split; [done|by apply Lang_number_literal].
Qed.

(** Every match of an amount pattern carries a currency marker next to
    its number. *)
Lemma amount_candidate_shape s m :
  m ∈ amount_candidates s ->
  marker_then_number (slice (m_start m) (m_end m) (chars s)) \/
  number_then_marker (slice (m_start m) (m_end m) (chars s)).
Proof.
  intros H. unfold amount_candidates, amount_patterns in H.
  cbn [map concat] in H. rewrite app_nil_r in H.
  apply elem_of_app in H as [H|H]; apply finditer_sound in H.
  - left. by apply Lang_amount_prefixed.
  - right. by apply Lang_amount_suffixed.
Qed.

Lemma bare_not_lower c : bare_chr c = true -> to_lower c = c.
Proof.
  unfold to_lower. destruct (is_upper c) eqn:Eu; [|done]. intros Hb. exfalso.
  unfold bare_chr, numeric_chr, is_space, is_digit, is_upper, ceqb, code in *.
  apply andb_prop in Eu as [E1 E2]. apply Nat.leb_le in E1, E2.
  repeat (apply orb_prop in Hb as [Hb|Hb]).
  - apply andb_prop in Hb as [H1 H2]. apply Nat.leb_le in H1, H2. lia.
  - apply Ascii.eqb_eq in Hb. subst. vm_compute in E1. lia.
  - apply Ascii.eqb_eq in Hb. subst. vm_compute in E1. lia.
  - apply andb_prop in Hb as [H1 H2]. apply Nat.leb_le in H1, H2. lia.
  - apply andb_prop in Hb as [H1 H2]. apply Nat.leb_le in H1, H2. lia.
Qed.

Lemma forallb_firstn (p : ascii -> bool) n : forall l,
  forallb p l = true -> forallb p (firstn n l) = true.
Proof.
  induction n as [|n IH]; intros [|c l] H; cbn in *; try done.
  apply andb_prop in H as [-> H]. by apply IH.
Qed.

Lemma forallb_skipn (p : ascii -> bool) n : forall l,
  forallb p l = true -> forallb p (skipn n l) = true.
Proof.
  induction n as [|n IH]; intros [|c l] H; cbn in *; try done.
  apply andb_prop in H as [_ H]. by apply IH.
Qed.

Lemma forallb_slice (p : ascii -> bool) a b l :
  forallb p l = true -> forallb p (slice a b l) = true.
Proof. intros H. unfold slice. by apply forallb_firstn, forallb_skipn. Qed.

Lemma bare_has_no_marker mk (markers : list string) :
  forallb bare_chr mk = true ->
  lower (text mk) ∈ markers ->
  Forall (fun mkr => forallb bare_chr (chars mkr) = false) markers -> False.
Proof.
  intros Hb Hin Hall.
  assert (Hl : lower (text mk) = text mk).
  { rewrite lower_text. f_equal. clear Hin. induction mk as [|c mk IH]; [done|].
    cbn in *. apply andb_prop in Hb as [Hc Hb]. by rewrite (bare_not_lower c Hc), IH. }
  rewrite Hl in Hin. rewrite Forall_forall in Hall. apply Hall in Hin.
  rewrite chars_text in Hin. congruence.
Qed.

Lemma extract_located_elem s e :
  e ∈ extract s <-> exists sp, (sp, e) ∈ extract_located s.
Proof.
  unfold extract. rewrite list_elem_of_fmap. split.
  - intros ([sp e'] & -> & H). by exists sp.
  - intros (sp & H). by exists (sp, e).
Qed.

(** C6. Non-overlap of the extractor: for every text, the spans of two
    different results of [extract] do not overlap, where [[s,e)] overlaps
    [[a,b)] iff not ([e <= a] or [s >= b]); the span of every result is the
    whole span of a match of a pattern of its kind (a match is never
    trimmed); and a candidate whose span overlaps a reserved span leaves
    the reserved spans and the results as they are, in each of the three
    loops. *)
Theorem extracted_spans_never_overlap (s : string) :
  (forall i j sp1 e1 sp2 e2,
      i <> j ->
      extract_located s !! i = Some (sp1, e1) ->
      extract_located s !! j = Some (sp2, e2) ->
      ~ overlap sp1 sp2) /\
  (forall sp e, (sp, e) ∈ extract_located s ->
                exists m, m ∈ candidates_of s (entity e) /\ sp = span_of m) /\
  (forall n st m,
      existsb (overlaps (m_start m) (m_end m)) (fst st) = true ->
      txn_step s n st m = st /\ account_step s st m = st /\ amount_step s st m = st).
Proof.
  split; [|split].
  - destruct (spans_reserved_extract s) as [Ha Hs].
    pose proof (apart_sublist _ _ Hs Ha) as Hap.
    assert (Hlt : forall i j sp1 e1 sp2 e2, i < j ->
               extract_located s !! i = Some (sp1, e1) ->
               extract_located s !! j = Some (sp2, e2) -> span_disjoint sp1 sp2).
    { intros i j sp1 e1 sp2 e2 Hij Hi Hj.
      apply (apart_lookup _ Hap i j); [done| |];
        rewrite list_lookup_fmap; unfold extract_located in *;
        [by rewrite Hi|by rewrite Hj]. }
    intros i j sp1 e1 sp2 e2 Hij Hi Hj Ho. apply Ho.
    destruct (Nat.lt_total i j) as [H|[H|H]]; [|done|].
    + by apply (Hlt i j sp1 e1 sp2 e2).
    + apply disjoint_sym. by apply (Hlt j i sp2 e2 sp1 e1).
  - intros sp e H. by apply (from_candidates_extract s) in H as [_ H].
  - intros n st m. apply overlapping_candidate_dropped.
Qed.

(** C7 as stated fails.  In "transaction abc-utr account 1234" the second
    transaction-id pattern matches "utr account" at [16,27), which overlaps
    the span [0,19) the first pattern reserved and is dropped; the account
    pattern matches "account 1234" at [20,32), which overlaps the dropped
    candidate but no reserved span, and [ACCOUNT_NUMBER] "1234" is
    emitted. *)
Lemma dropped_txn_candidate_does_not_win :
  ~ txn_always_wins "transaction abc-utr account 1234".
Proof.
  intros H.
  set (s := "transaction abc-utr account 1234") in *.
  set (d := mkMatch 0 0 []).
  destruct (H (nth 1 (txn_candidates s) d) (nth 0 (account_candidates s) d)) as [_ Hacc].
  - apply list_elem_of_In, nth_In. vm_compute. lia.
  - apply list_elem_of_In, nth_In. vm_compute. lia.
  - apply overlaps_true. vm_compute. reflexivity.
  - apply (Hacc (mkEntity "ACCOUNT_NUMBER" "1234")); [|done].
    vm_compute. in_list.
Qed.

Lemma txn_phase_txn_only s : txn_only (txn_phase s ([], [])).
Proof.
  apply txn_phase_inv.
  - split; intros ? *; intros H; by apply elem_of_nil in H.
  - intros m [reserved results] st' _ [H1 H2] [->|[Hf [v ->]]]; [done|].
    cbn [fst snd] in *. split.
    + intros sp Hsp. apply elem_of_app in Hsp as [Hsp|Hsp].
      * destruct (H1 sp Hsp) as [code Hc]. exists code. apply elem_of_app. by left.
      * apply list_elem_of_singleton in Hsp as ->. exists v. apply elem_of_app. right. in_list.
    + intros sp e He. apply elem_of_app in He as [He|He]; [by eapply H2|].
      apply list_elem_of_singleton in He. by injection He as -> ->.
Qed.

Lemma txn_respected_step st0 kind m st st' :
  txn_respected st0 st ->
  reserves m st st' \/ emits kind m st st' ->
  txn_respected st0 st'.
Proof.
  intros (H1 & H2 & H3) Heff. destruct st as [reserved results]. cbn [fst snd] in *.
  destruct Heff as [[Hf ->]|[Hf [v ->]]]; cbn [fst snd] in *.
  - repeat split; try done. intros r Hr. apply elem_of_app. left. by apply H1.
  - split; [|split].
    + intros r Hr. apply elem_of_app. left. by apply H1.
    + intros x Hx. apply elem_of_app. left. by apply H2.
    + intros sp e He Hk r Hr. apply elem_of_app in He as [He|He]; [by eapply H3|].
      apply list_elem_of_singleton in He. injection He as -> ->.
      apply free_disjoint in Hf. rewrite Forall_forall in Hf. by apply Hf, H1.
Qed.

Lemma txn_respected_extract s :
  nonempty s = true ->
  txn_respected (txn_phase s ([], [])) (extract_state s).
Proof.
  intros Hs. unfold extract_state. rewrite Hs.
  apply amount_phase_inv; [apply account_phase_inv|].
  - repeat split; try done. intros sp e He Hk.
    apply (txn_phase_txn_only s) in He. congruence.
  - intros m st st' _ Hst [->|He]; [done|]. by eapply txn_respected_step.
  - intros m st st' _ Hst [->|He]; [done|]. by eapply txn_respected_step.
Qed.

(** C7, amended. For every text, a transaction-id match whose span is
    reserved by the transaction-id phase (it overlapped no span claimed
    before it) wins over every account-number match that overlaps it: its
    [TXN_ID] entity is among the results and no [ACCOUNT_NUMBER] entity sits
    on the span of the account candidate. *)
Theorem reserved_txn_beats_account (s : string) (tm am : Match) :
  tm ∈ txn_candidates s ->
  span_of tm ∈ fst (txn_phase s ([], [])) ->
  am ∈ account_candidates s ->
  overlap (span_of tm) (span_of am) ->
  (exists code, (span_of tm, mkEntity "TXN_ID" code) ∈ extract_located s) /\
  (forall e, (span_of am, e) ∈ extract_located s -> entity e <> "ACCOUNT_NUMBER").
Proof.
  intros _ Hres _ Hov.
  destruct (nonempty s) eqn:Hs.
  2:{ apply negb_false_iff, String.eqb_eq in Hs. subst s.
      vm_compute in Hres. by apply elem_of_nil in Hres. }
  destruct (txn_respected_extract s Hs) as (H1 & H2 & H3).
  split.
  - destruct (proj1 (txn_phase_txn_only s) _ Hres) as [code Hc].
    exists code. by apply H2.
  - intros e He Hk. apply Hov. apply disjoint_sym. by apply (H3 _ e He Hk).
Qed.

(** C8. An amount needs a currency marker: for every text, the match an
    [AMOUNT] result was built from is a currency symbol or code (₹, $, Rs,
    Rs., INR, USD, in any case), blanks and a numeric literal, or a numeric
    literal, blanks and a currency word (rupees, rs, inr, usd, dollars); a
    text of digits, commas, points and blanks yields no [AMOUNT]; and
    [extract("account 12345 for 500")] is the single entity
    [ACCOUNT_NUMBER] "12345". *)
Theorem amount_requires_currency_marker (s : string) :
  (forall sp e,
      (sp, e) ∈ extract_located s -> entity e = "AMOUNT" ->
      marker_then_number (slice (fst sp) (snd sp) (chars s)) \/
      number_then_marker (slice (fst sp) (snd sp) (chars s))) /\
  (forallb bare_chr (chars s) = true ->
   forall e, e ∈ extract s -> entity e <> "AMOUNT") /\
  extract "account 12345 for 500" = [mkEntity "ACCOUNT_NUMBER" "12345"].
Proof.
  assert (Hshape : forall sp e,
      (sp, e) ∈ extract_located s -> entity e = "AMOUNT" ->
      marker_then_number (slice (fst sp) (snd sp) (chars s)) \/
      number_then_marker (slice (fst sp) (snd sp) (chars s))).
  { intros sp e He Hk. apply (from_candidates_extract s) in He as [_ (m & Hm & ->)].
    rewrite Hk in Hm. by apply amount_candidate_shape. }
  split; [done|]. split; [|reflexivity].
  intros Hbare e He Hk. apply extract_located_elem in He as [sp He].
  pose proof (forallb_slice bare_chr (fst sp) (snd sp) _ Hbare) as Hsl.
  destruct (Hshape sp e He Hk) as [(mk & ws & num & Heq & Hmk & _)|(num & ws & mk & Heq & Hmk & _)];
    rewrite Heq in Hsl; rewrite !forallb_app in Hsl.
  - apply andb_prop in Hsl as [Hb _].
    apply (bare_has_no_marker mk currency_prefixes Hb Hmk). repeat constructor.
  - apply andb_prop in Hsl as [_ Hsl]. apply andb_prop in Hsl as [_ Hb].
    apply (bare_has_no_marker mk currency_suffixes Hb Hmk). repeat constructor.
Qed.

(** The extractor knows three kinds of entity. *)
Lemma extract_kinds s e :
  e ∈ extract s -> entity e ∈ ["TXN_ID"; "ACCOUNT_NUMBER"; "AMOUNT"].
Proof.
  intros H. apply extract_located_elem in H as [sp H].
  by apply (from_candidates_extract s) in H as [H _].
Qed.

(** The amended C7 on "utr account 12345": "utr account" is reserved at
    [0,11) and wins over "account 12345" at [4,17). *)
Lemma reserved_txn_beats_account_witness :
  (exists code, ((0, 11), mkEntity "TXN_ID" code) ∈ extract_located "utr account 12345") /\
  (forall e, ((4, 17), e) ∈ extract_located "utr account 12345" ->
             entity e <> "ACCOUNT_NUMBER").
Proof.
  refine (reserved_txn_beats_account "utr account 12345"
            (nth 0 (txn_candidates "utr account 12345") (mkMatch 0 0 []))
            (nth 0 (account_candidates "utr account 12345") (mkMatch 0 0 []))
            _ _ _ _).
  - vm_compute. in_list.
  - vm_compute. in_list.
  - vm_compute. in_list.
  - apply overlaps_true. vm_compute. reflexivity.
Defined.

End ExtractorFacts.

(** ** The amount typed at the prompt *)

Module AmountFacts.
Import Text TextFacts Regex Dialogue AmountSpec.

Lemma star_accept p prev pos inp caps :
  star_k p prev pos inp caps accept = Some (pos + length (take_while p inp), caps).
Proof.
  revert prev pos. induction inp as [|c t IH]; intros prev pos; simpl.
  - unfold accept. f_equal. f_equal. lia.
  - destruct (p c); simpl.
    + rewrite IH. f_equal. f_equal. lia.
    + unfold accept. f_equal. f_equal. lia.
Qed.

Lemma plus_accept p prev pos inp :
  rmatch (plus p) prev pos inp [] accept =
    match inp with
    | c :: t => if p c then Some (pos + length (take_while p inp), []) else None
    | [] => None
    end.
Proof.
  unfold plus. cbn [rmatch]. destruct inp as [|c t]; [done|].
  cbn [take_while]. destruct (p c); [|done]. rewrite star_accept. cbn [length]. do 2 f_equal. lia.
Qed.

(** The first match of [\d+] starts where the first digit is and runs
    over the whole run. *)
Lemma scan_plus_head p prev pos inp :
  head (scan (plus p) prev pos inp 0) =
    match drop_while (fun c => negb (p c)) inp with
    | [] => None
    | rest =>
        let a := pos + (length inp - length rest) in
        Some (mkMatch a (a + length (take_while p rest)) [])
    end.
Proof.
  revert prev pos. induction inp as [|c t IH]; intros prev pos.
  - reflexivity.
  - cbn [scan]. rewrite plus_accept. cbn [drop_while].
    destruct (p c) eqn:E; cbn [negb].
    + cbn [head]. cbn zeta. do 2 f_equal; lia.
    + rewrite IH. destruct (drop_while _ t) as [|d r] eqn:Ed; [done|].
      cbn zeta.
      assert (length (d :: r) <= length t).
      { rewrite <- Ed. clear. induction t as [|x t IH]; simpl; [lia|].
        destruct (negb (p x)); simpl in *; lia. }
      cbn [length] in *. do 2 f_equal; lia.
Qed.

Lemma drop_while_suffix p l :
  drop (length l - length (drop_while p l)) l = drop_while p l.
Proof.
  induction l as [|c t IH]; [done|]. simpl.
  destruct (p c) eqn:E.
  - assert (length (drop_while p t) <= length t).
    { clear. induction t as [|x t IH]; simpl; [lia|]. destruct (p x); simpl; lia. }
    replace (S (length t) - length (drop_while p t))
      with (S (length t - length (drop_while p t))) by lia.
    simpl. exact IH.
  - simpl. by rewrite Nat.sub_diag.
Qed.

Lemma take_while_prefix p l : take (length (take_while p l)) l = take_while p l.
Proof. induction l as [|c t IH]; [done|]. simpl. destruct (p c); simpl; [by rewrite IH|done]. Qed.

Lemma take_while_all p l : forallb p (take_while p l) = true.
Proof. induction l as [|c t IH]; [done|]. simpl. destruct (p c) eqn:E; simpl; [by rewrite E|done]. Qed.

Lemma int_body_digits l : forall acc,
  forallb is_digit l = true -> l <> [] \/ acc <> [] ->
  int_body l (negb (bool_decide (acc = []))) acc = Some (rev acc ++ l).
Proof.
  induction l as [|c t IH]; intros acc Hd Hne.
  - simpl. destruct Hne as [|Hne]; [done|]. rewrite bool_decide_eq_false_2 by done.
    simpl. by rewrite app_nil_r.
  - simpl in Hd. apply andb_true_iff in Hd as [Hc Ht]. simpl. rewrite Hc.
    specialize (IH (c :: acc) Ht). rewrite bool_decide_eq_false_2 in IH by done.
    simpl in IH. rewrite IH by (by right). by rewrite <- app_assoc.
Qed.

Lemma digit_not_int_space c : is_digit c = true -> is_int_space c = false.
Proof.
  unfold is_digit, is_int_space. intros H. apply andb_true_iff in H as [H1 H2].
  apply Nat.leb_le in H1, H2. apply orb_false_iff. split.
  - apply andb_false_iff. right. apply Nat.leb_gt. lia.
  - apply Nat.eqb_neq. lia.
Qed.

Lemma int_strip_l_digits l : forallb is_digit l = true -> int_strip_l l = l.
Proof.
  intros H. unfold int_strip_l.
  assert (Hd : forall l, forallb is_digit l = true -> drop_while is_int_space l = l).
  { clear. intros [|c t] H; [done|]. simpl in *. apply andb_true_iff in H as [H _].
    by rewrite digit_not_int_space. }
  rewrite (Hd l H). rewrite Hd; [apply rev_involutive|].
  rewrite forallb_forall in *. intros x Hx. apply H. by apply in_rev.
Qed.

(** [int] of a run of digits is its decimal value, up to the limit. *)
Lemma py_int_digits l :
  forallb is_digit l = true -> l <> [] ->
  py_int (text l) =
    if (Z.of_nat (length l) <=? int_max_str_digits)%Z then Some (digits_val l) else None.
Proof.
  intros Hd Hne. unfold py_int. rewrite chars_text, int_strip_l_digits by done.
  destruct l as [|c t]; [done|].
  assert (Hc : is_digit c = true) by (simpl in Hd; by apply andb_true_iff in Hd as [? _]).
  assert (ceqb c "-" = false) as ->.
  { apply ceqb_neq. intros ->. done. }
  assert (ceqb c "+" = false) as ->.
  { apply ceqb_neq. intros ->. done. }
  pose proof (int_body_digits (c :: t) [] Hd) as H.
  rewrite bool_decide_eq_true_2 in H by done. cbn [negb rev app] in H.
  unfold int_digits. rewrite H by (by left).
  by destruct (Z.of_nat (length (c :: t)) <=? int_max_str_digits)%Z.
Qed.

Lemma digits_val_nonneg l : (0 <= digits_val l)%Z.
Proof.
  unfold digits_val. assert (forall a, (0 <= a)%Z ->
    (0 <= fold_left (fun acc c => (10 * acc + digit_val c)%Z) l a)%Z) as H.
  { induction l as [|c t IH]; intros a Ha; simpl; [done|]. apply IH.
    unfold digit_val. lia. }
  by apply H.
Qed.

Lemma first_run_empty l :
  first_digit_run l = [] <-> forall c, c ∈ l -> is_digit c = false.
Proof.
  unfold first_digit_run. induction l as [|c t IH]; simpl.
  - split; [intros _ x Hx; by apply elem_of_nil in Hx|done].
  - unfold not_digit at 1. destruct (is_digit c) eqn:E; simpl.
    + rewrite E. split; [done|]. intros H. specialize (H c (list_elem_of_here _ _)). congruence.
    + rewrite IH. split.
      * intros H x Hx. apply elem_of_cons in Hx as [->|Hx]; auto.
      * intros H x Hx. apply H. by right.
Qed.

Lemma drop_while_head_false p l x t : drop_while p l = x :: t -> p x = false.
Proof.
  induction l as [|c l IH]; intros H; [done|].
  simpl in H. destruct (p c) eqn:Ec; [by apply IH|]. by injection H as <- _.
Qed.

(** [_parse_amount] converts the digits of the amount: no digit gives
    [None], more digits than [int] takes raise [ValueError]. *)
Lemma parse_amount_run (s : string) :
  _parse_amount s =
    match amount_digits s with
    | [] => Ok None
    | d =>
        if (Z.of_nat (length d) <=? int_max_str_digits)%Z
        then Ok (Some (digits_val d))
        else Raised (ValueError (text d))
    end.
Proof.
  unfold _parse_amount, search, finditer, group0, amount_digits.
  rewrite chars_text. set (l := remove_chr "," (chars s)).
  rewrite scan_plus_head. unfold first_digit_run, not_digit.
  pose proof (drop_while_suffix (fun c => negb (is_digit c)) l) as Hs.
  destruct (drop_while (fun c => negb (is_digit c)) l) as [|d r] eqn:E; [done|].
  cbn zeta. cbn [m_start m_end].
  unfold slice. rewrite Nat.add_0_l.
  replace (length l - length (d :: r) + length (take_while is_digit (d :: r)) -
           (length l - length (d :: r))) with (length (take_while is_digit (d :: r))) by lia.
  change (skipn ?n ?l) with (drop n l). change (firstn ?n ?l) with (take n l).
  rewrite Hs, take_while_prefix.
  apply drop_while_head_false in E. apply negb_false_iff in E.
  rewrite py_int_digits.
  - cbn [take_while]. rewrite E.
    by destruct (Z.of_nat (length (d :: take_while is_digit r)) <=? int_max_str_digits)%Z.
  - apply take_while_all.
  - cbn [take_while]. by rewrite E.
Qed.

(** Within the limit [_parse_amount] returns. *)
Lemma parse_amount_returns (s : string) :
  amount_within_limit s -> exists r, _parse_amount s = Ok r.
Proof.
  unfold amount_within_limit. intros H. rewrite parse_amount_run.
  destruct (amount_digits s) as [|d r]; [by eexists|].
  apply Z.leb_le in H. cbv beta iota zeta. rewrite H. by eexists.
Qed.

(** Beyond the limit it raises. *)
Lemma parse_amount_raises (s : string) :
  ~ amount_within_limit s -> _parse_amount s = Raised (ValueError (text (amount_digits s))).
Proof.
  unfold amount_within_limit. intros H. rewrite parse_amount_run.
  destruct (amount_digits s) as [|d r] eqn:E.
  - exfalso. apply H. cbn. unfold int_max_str_digits. lia.
  - apply Z.nle_gt, Z.leb_gt in H. cbv beta iota zeta. by rewrite H.
Qed.

End AmountFacts.

(** ** The dialogue manager *)

Module MachineFacts.
Import Text TextFacts Dialogue AmountSpec AmountFacts MachineSpec SampleBank.
Import EntityExtractor ExtractorSpec ExtractorFacts.

Section Lock.
Context {W : Type} (env : Collaborators W).

Lemma dm_eta (s : DM) :
  {| active_intent := active_intent s; slots := slots s;
     awaiting := awaiting s; in_flow := in_flow s |} = s.
Proof. by destruct s. Qed.

Lemma set_in_flow_id (s : DM) (w : W) :
  in_flow s = true -> set_in_flow true s w = (Ok tt, s, w).
Proof. intros H. unfold set_in_flow, update. rewrite <- H. by rewrite dm_eta. Qed.

(** C2. Global cancel: from every state, whatever the classified intent
    and the entities, a text that trimmed and in lower case is "cancel",
    "stop" or "exit" resets the state ([active_intent] None, no slots,
    [awaiting] None, [in_flow] False) and returns the cancellation message;
    no collaborator is called and the world is unchanged. *)
Theorem cancel_always_wins (intent : string) (entities : list Entity)
    (user_text : string) (s : DM) (w : W) :
  lower (strip user_text) ∈ ["cancel"; "stop"; "exit"] ->
  handle env intent entities user_text s w =
    (Ok (Some MSG_CANCELLED),
     {| active_intent := None; slots := ∅; awaiting := None; in_flow := false |}, w).
Proof.
  intros H. unfold handle, is_cancel. rewrite bool_decide_eq_true_2 by exact H.
  reflexivity.
Qed.

Lemma handle_locked (intent : string) entities user_text (s : DM) (w : W) :
  in_flow s = true -> active_intent s = Some "transfer_money" ->
  is_cancel (strip user_text) = false -> intent <> "out_of_scope" ->
  handle env intent entities user_text s w =
    some (_handle_transfer env entities (strip user_text)) s w.
Proof.
  intros Hf Ha Hc Hi. unfold handle. rewrite Hc.
  unfold bind at 1. unfold read at 1. rewrite Hf. 
  unfold bind at 1. unfold read at 1. rewrite Ha.
  apply String.eqb_neq in Hi. rewrite Hi.
  rewrite bool_decide_eq_false_2 by done.
  rewrite bool_decide_eq_true_2 by done.
  unfold bind at 1. rewrite set_in_flow_id by done. reflexivity.
Qed.

Lemma handle_locked_balance (intent : string) entities user_text (s : DM) (w : W) :
  in_flow s = true -> active_intent s = Some "check_balance" ->
  is_cancel (strip user_text) = false -> intent <> "out_of_scope" ->
  handle env intent entities user_text s w =
    some (_handle_check_balance env entities (strip user_text)) s w.
Proof.
  intros Hf Ha Hc Hi. unfold handle. rewrite Hc.
  unfold bind at 1. unfold read at 1. rewrite Hf.
  unfold bind at 1. unfold read at 1. rewrite Ha.
  apply String.eqb_neq in Hi. rewrite Hi.
  rewrite bool_decide_eq_false_2 by done.
  rewrite bool_decide_eq_false_2 by done.
  rewrite bool_decide_eq_true_2 by done.
  unfold bind at 1. rewrite set_in_flow_id by done. reflexivity.
Qed.

Lemma handle_locked_card (intent : string) entities user_text (s : DM) (w : W) :
  in_flow s = true -> active_intent s = Some "card_block" ->
  is_cancel (strip user_text) = false -> intent <> "out_of_scope" ->
  handle env intent entities user_text s w =
    some (_handle_card_block env entities (strip user_text)) s w.
Proof.
  intros Hf Ha Hc Hi. unfold handle. rewrite Hc.
  unfold bind at 1. unfold read at 1. rewrite Hf.
  unfold bind at 1. unfold read at 1. rewrite Ha.
  apply String.eqb_neq in Hi. rewrite Hi.
  rewrite bool_decide_eq_false_2 by done.
  rewrite bool_decide_eq_false_2 by done.
  rewrite bool_decide_eq_false_2 by done.
  rewrite bool_decide_eq_true_2 by done.
  unfold bind at 1. rewrite set_in_flow_id by done. reflexivity.
Qed.

End Lock.

Ltac mrun :=
  cbv beta iota zeta delta
    [bind ret raise call read update some reset idle set_slot pop_slot set_awaiting
     set_active_intent set_in_flow slot];
  cbn [active_intent slots awaiting in_flow].

Ltac msimp :=
  repeat (progress (mrun;
                    rewrite ?lookup_insert_eq, ?lookup_empty, ?lookup_delete_eq;
                    repeat (rewrite lookup_insert_ne by done))).

(** Run a method on a symbolic state, using the equations at hand. *)
Ltac mgo :=
  repeat first
    [ progress msimp
    | rewrite bool_decide_eq_true_2 by done
    | rewrite bool_decide_eq_false_2 by done
    | match goal with H : _ = _ |- _ => rewrite H end ].

Section Receiver.
Context {W : Type} (env : Collaborators W).

Lemma receiver_of_after_paren t pre suf :
  chars t = pre ++ "("%char :: suf -> "("%char ∉ suf ->
  receiver_of t = text (remove_chr ")" suf).
Proof.
  intros Ht Hn. unfold receiver_of. rewrite Ht.
  by rewrite last_piece_split.
Qed.

Lemma receiver_of_no_paren t :
  "("%char ∉ chars t -> receiver_of t = text (remove_chr ")" (chars t)).
Proof.
  intros Hn. unfold receiver_of. by rewrite split_chr_absent.
Qed.


End Receiver.

Section Transfer.
Context {W : Type} (env : Collaborators W).

(** Opening turn of a transfer: a numeric text is taken as the sender. *)
Lemma transfer_opening (user_text : string) (s : DM) (w w' : W) (acc : Account) :
  in_flow s = false ->
  is_cancel (strip user_text) = false ->
  isdigit (strip user_text) = true ->
  get_account env (VStr (strip user_text)) w = (Ok (Some acc), w') ->
  handle env "transfer_money" [] user_text s w =
    (Ok (Some MSG_ASK_AMOUNT),
     {| active_intent := Some "transfer_money";
        slots := {[ "from_account" := VStr (strip user_text) ]};
        awaiting := Some "amount"; in_flow := true |}, w').
Proof.
  intros Hf Hc Hd Hg. unfold handle. rewrite Hc. mgo.
  change (String.eqb "transfer_money" "out_of_scope") with false. cbv iota.
  mgo. unfold _handle_transfer. mgo.
  unfold transfer_collect. simpl fill_transfer_slots. mgo. reflexivity.
Qed.

(** The amount turn: the first run of digits is stored and the password
    is asked for. *)
Lemma transfer_amount_turn (intent user_text : string) (s : DM) (w w' : W)
    (sender : Value) (n : Z) (acc : Account) :
  in_flow s = true -> active_intent s = Some "transfer_money" ->
  awaiting s = Some "amount" ->
  slots s !! "from_account" = Some sender ->
  slots s !! "password" = None ->
  is_cancel (strip user_text) = false -> intent <> "out_of_scope" ->
  _parse_amount (strip user_text) = Ok (Some n) ->
  get_account env sender w = (Ok (Some acc), w') ->
  handle env intent [] user_text s w =
    (Ok (Some MSG_ASK_PASSWORD),
     with_slots s (<["amount" := VInt n]> (slots s)) (Some "password"), w').
Proof.
  intros Hf Ha Haw Hs Hpw Hc Hi Hp Hg. rewrite handle_locked by done.
  unfold _handle_transfer, with_slots. mgo.
  unfold transfer_collect. simpl fill_transfer_slots. mgo. reflexivity.
Qed.

(** The password turn: the text is stored verbatim and the receivers are
    listed. *)
Lemma transfer_password_turn (intent : string) entities (user_text : string) (s : DM)
    (w w' : W) (sender : Value) (accounts : list (string * string)) :
  in_flow s = true -> active_intent s = Some "transfer_money" ->
  awaiting s = Some "password" ->
  slots s !! "from_account" = Some sender ->
  is_cancel (strip user_text) = false -> intent <> "out_of_scope" ->
  list_accounts env w = (Ok accounts, w') ->
  handle env intent entities user_text s w =
    (Ok (Some (MSG_SELECT_RECEIVER +:+
               String.concat newline (receiver_lines accounts sender))),
     with_slots s (<["password" := VStr (strip user_text)]> (slots s)) (Some "receiver"),
     w').
Proof.
  intros Hf Ha Haw Hs Hc Hi Hl. rewrite handle_locked by done.
  unfold _handle_transfer, with_slots. mgo.
  destruct accounts as [|a accounts]; [reflexivity|]. mgo. reflexivity.
Qed.

(** The receiver turn when the gateway and the logger answer. *)
Lemma transfer_receiver_turn (intent : string) entities (user_text : string) (s : DM)
    (w w1 w2 : W) (sender amount password : Value) (result : string) :
  in_flow s = true -> active_intent s = Some "transfer_money" ->
  awaiting s = Some "receiver" ->
  slots s !! "from_account" = Some sender ->
  slots s !! "amount" = Some amount ->
  slots s !! "password" = Some password ->
  is_cancel (strip user_text) = false -> intent <> "out_of_scope" ->
  transfer_money env sender (receiver_of (strip user_text)) amount password w
    = (Ok result, w1) ->
  log_interaction env (strip user_text) (Some "transfer_money") (95 # 100) entities
                  (startswith result SUCCESS_MARK) w1 = (Ok tt, w2) ->
  handle env intent entities user_text s w =
    (Ok (Some (if startswith result FAILURE_MARK
               then "__ERROR__:" +:+ replace_del "❌ " result
               else MSG_TRANSFER_OK)), idle, w2).
Proof.
  intros Hf Ha Haw Hs Hamt Hpw Hc Hi Ht Hl. rewrite handle_locked by done.
  unfold _handle_transfer. mgo.
  destruct (startswith result FAILURE_MARK); reflexivity.
Qed.

Lemma transfer_receiver_raises (intent : string) entities (user_text : string) (s : DM)
    (w w1 : W) (sender amount password : Value) (e : Exn) :
  in_flow s = true -> active_intent s = Some "transfer_money" ->
  awaiting s = Some "receiver" ->
  slots s !! "from_account" = Some sender ->
  slots s !! "amount" = Some amount ->
  slots s !! "password" = Some password ->
  is_cancel (strip user_text) = false -> intent <> "out_of_scope" ->
  transfer_money env sender (receiver_of (strip user_text)) amount password w
    = (Raised e, w1) ->
  handle env intent entities user_text s w = (Raised e, s, w1).
Proof.
  intros Hf Ha Haw Hs Hamt Hpw Hc Hi Ht. rewrite handle_locked by done.
  unfold _handle_transfer. mgo. reflexivity.
Qed.

Lemma starts_with_l_prefix p l :
  starts_with_l p l = true -> exists rest, l = p ++ rest.
Proof.
  revert l. induction p as [|a p IH]; intros l H.
  - by exists l.
  - destruct l as [|b l]; [discriminate|]. cbn [starts_with_l] in H.
    apply andb_prop in H as [H1 H2]. apply ceqb_eq in H1. subst.
    destruct (IH _ H2) as [rest ->]. by exists rest.
Qed.

(** A success mark is not a failure mark. *)
Lemma success_not_failure result :
  startswith result SUCCESS_MARK = true -> startswith result FAILURE_MARK = false.
Proof.
  unfold startswith. intros H.
  apply starts_with_l_prefix in H as [rest ->]. reflexivity.
Qed.

Lemma lower_chars s : chars (lower s) = map to_lower (chars s).
Proof. unfold lower. apply chars_text. Qed.

(** A text that ends with a closing parenthesis is no cancel word. *)
Lemma not_cancel_paren (l : list ascii) :
  is_cancel (text (l ++ [")"%char])) = false.
Proof.
  unfold is_cancel. apply bool_decide_eq_false_2. intros H.
  assert (Hl : exists x, chars (lower (text (l ++ [")"%char]))) = x ++ [")"%char]).
  { rewrite lower_chars, chars_text, map_app. eexists. reflexivity. }
  destruct Hl as [x Hx].
  assert (Hlast : forall y, y ∈ ["cancel"; "stop"; "exit"] ->
                   List.last (chars y) " "%char <> ")"%char).
  { intros y Hy. repeat (apply elem_of_cons in Hy as [->|Hy]; [simpl; done|]).
    by apply elem_of_nil in Hy. }
  apply Hlast in H. rewrite Hx in H. rewrite last_last in H. done.
Qed.

End Transfer.

Section Scenario.
Context {W : Type} (env : Collaborators W).

(** A displayed candidate [name (number)]: stripping keeps the
    parenthesised number at its end. *)
Lemma strip_candidate (name number : string) :
  strip (name +:+ "(" +:+ number +:+ ")") =
  text (lstrip_l (chars name) ++ "("%char :: chars number ++ [")"%char]).
Proof.
  unfold strip. rewrite !chars_app. f_equal.
  change (chars "(") with ["("%char]. change (chars ")") with [")"%char].
  simpl app.
  apply (strip_l_app_visible _ _ "("%char ")"%char (chars number)); done.
Qed.

Lemma receiver_of_candidate (name number : string) :
  "("%char ∉ chars number -> ")"%char ∉ chars number ->
  receiver_of (strip (name +:+ "(" +:+ number +:+ ")")) = number.
Proof.
  intros H1 H2. rewrite strip_candidate.
  rewrite (receiver_of_after_paren _ (lstrip_l (chars name)) (chars number ++ [")"%char])).
  - unfold remove_chr. rewrite List.filter_app. simpl.
    rewrite app_nil_r.
    rewrite List.forallb_filter_id; [apply text_chars|].
    apply forallb_forall. intros c Hc. apply negb_true_iff, ceqb_neq.
    intros ->. apply H2. by apply list_elem_of_In.
  - by rewrite chars_text.
  - intros H. apply elem_of_app in H as [H|H]; [done|].
    apply list_elem_of_singleton in H. done.
Qed.

Lemma is_cancel_candidate (name number : string) :
  is_cancel (strip (name +:+ "(" +:+ number +:+ ")")) = false.
Proof.
  rewrite strip_candidate.
  replace (lstrip_l (chars name) ++ "("%char :: chars number ++ [")"%char])
    with ((lstrip_l (chars name) ++ "("%char :: chars number) ++ [")"%char])
    by (by rewrite <- app_assoc).
  apply not_cancel_paren.
Qed.

Lemma receiver_lines_excluding accounts (sender : string) :
  receiver_lines accounts (VStr sender) =
  map (fun au => snd au +:+ " (" +:+ fst au +:+ ")")
      (List.filter (fun au => negb (String.eqb (fst au) sender)) accounts).
Proof.
  unfold receiver_lines. f_equal. apply List.filter_ext. intros [a u]. simpl. f_equal.
  destruct (String.eqb a sender) eqn:E.
  - apply String.eqb_eq in E. subst. by apply bool_decide_eq_true_2.
  - apply String.eqb_neq in E. apply bool_decide_eq_false_2. congruence.
Qed.

(** C1. The transfer scenario: from the idle state with intent
    [transfer_money], when the gateway knows account "1234567890" and the
    transfer returns a string that starts with the success mark, the text
    "1234567890" without entities asks for the amount and awaits it; "500"
    stores the amount 500, awaits the password and asks for it; "secret" is
    stored verbatim, the accounts other than "1234567890" are listed and the
    receiver is awaited; a candidate line ending in "(9876543210)" calls
    [transfer_money("1234567890", "9876543210", 500, "secret")], the state
    is reset and the reply is the fixed success message. *)
Theorem transfer_flow_scenario
    (w1 w1' w2 w2' w3 w3' w4 w4' w5 : W) (acc1 acc2 : Account)
    (accounts : list (string * string)) (result : string)
    (i2 i3 i4 : string) (e3 e4 : list Entity) (name : string) :
  get_account env (VStr "1234567890") w1 = (Ok (Some acc1), w1') ->
  get_account env (VStr "1234567890") w2 = (Ok (Some acc2), w2') ->
  list_accounts env w3 = (Ok accounts, w3') ->
  transfer_money env (VStr "1234567890") "9876543210" (VInt 500) (VStr "secret") w4
    = (Ok result, w4') ->
  startswith result SUCCESS_MARK = true ->
  log_interaction env (strip (name +:+ "(9876543210)")) (Some "transfer_money")
                  (95 # 100) e4 true w4' = (Ok tt, w5) ->
  i2 <> "out_of_scope" -> i3 <> "out_of_scope" -> i4 <> "out_of_scope" ->
  let s1 := {| active_intent := Some "transfer_money";
               slots := {[ "from_account" := VStr "1234567890" ]};
               awaiting := Some "amount"; in_flow := true |} in
  let s2 := {| active_intent := Some "transfer_money";
               slots := <["amount" := VInt 500]>
                          {[ "from_account" := VStr "1234567890" ]};
               awaiting := Some "password"; in_flow := true |} in
  let s3 := {| active_intent := Some "transfer_money";
               slots := <["password" := VStr "secret"]>
                          (<["amount" := VInt 500]>
                             {[ "from_account" := VStr "1234567890" ]});
               awaiting := Some "receiver"; in_flow := true |} in
  handle env "transfer_money" [] "1234567890" idle w1
    = (Ok (Some "How much amount do you want to transfer?"), s1, w1') /\
  handle env i2 [] "500" s1 w2
    = (Ok (Some "Please enter your password to proceed."), s2, w2') /\
  handle env i3 e3 "secret" s2 w3
    = (Ok (Some ("Select receiver account:" +:+ newline +:+
                 String.concat newline
                   (map (fun au => snd au +:+ " (" +:+ fst au +:+ ")")
                        (List.filter (fun au => negb (String.eqb (fst au) "1234567890"))
                                     accounts)))),
       s3, w3') /\
  handle env i4 e4 (name +:+ "(9876543210)") s3 w4
    = (Ok (Some "✅ Transfer Successful"),
       {| active_intent := None; slots := ∅; awaiting := None; in_flow := false |},
       w5).
Proof.
  intros Hg1 Hg2 Hl Ht Hok Hlog Hi2 Hi3 Hi4 s1 s2 s3.
  split; [|split; [|split]].
  - by apply (transfer_opening env "1234567890" idle w1 w1' acc1).
  - by apply (transfer_amount_turn env i2 "500" s1 w2 w2' (VStr "1234567890") 500 acc2).
  - rewrite <- receiver_lines_excluding.
    by apply (transfer_password_turn env i3 e3 "secret" s2 w3 w3' (VStr "1234567890")).
  - pose proof (receiver_of_candidate name "9876543210") as Hr.
    pose proof (is_cancel_candidate name "9876543210") as Hc.
    change (name +:+ "(" +:+ "9876543210" +:+ ")") with (name +:+ "(9876543210)") in Hr, Hc.
    rewrite (transfer_receiver_turn env i4 e4 (name +:+ "(9876543210)") s3 w4 w4' w5
               (VStr "1234567890") (VInt 500) (VStr "secret") result); try done.
    + by rewrite (success_not_failure _ Hok).
    + rewrite Hr; [done| |]; by vm_compute; intros H; repeat (apply elem_of_cons in H as [H|H]; [done|]); apply elem_of_nil in H.
    + by rewrite Hok.
Qed.

End Scenario.

Lemma wf_idle : wf idle.
Proof. split; simpl; intros; try done. Qed.

Section Wp.
Context {W : Type}.

Lemma wp_elim {A} (m : M (W:=W) A) Q s w o s' w' :
  wp m Q s w -> m s w = (o, s', w') -> Q o s' w'.
Proof. unfold wp. intros H E. by rewrite E in H. Qed.

Lemma wp_intro {A} (m : M (W:=W) A) (Q : Outcome A -> DM -> W -> Prop) s w :
  (forall o s' w', m s w = (o, s', w') -> Q o s' w') -> wp m Q s w.
Proof. unfold wp. intros H. destruct (m s w) as [[o s'] w']. by apply H. Qed.

Lemma wp_mono {A} (m : M (W:=W) A) (Q Q' : Outcome A -> DM -> W -> Prop) s w :
  (forall o s' w', Q o s' w' -> Q' o s' w') -> wp m Q s w -> wp m Q' s w.
Proof. unfold wp. intros H. destruct (m s w) as [[o s'] w']. apply H. Qed.

Lemma wp_ret {A} (a : A) Q s (w : W) : Q (Ok a) s w -> wp (ret a) Q s w.
Proof. done. Qed.

Lemma wp_raise {A} e (Q : Outcome A -> DM -> W -> Prop) s w :
  Q (Raised e) s w -> wp (raise e) Q s w.
Proof. done. Qed.

Lemma wp_bind {A B} (m : M (W:=W) A) (f : A -> M B) Q s (w : W) :
  wp m (fun o s' w' =>
          match o with
          | Ok a => wp (f a) Q s' w'
          | Raised e => Q (Raised e) s' w'
          end) s w ->
  wp (bind m f) Q s w.
Proof. unfold wp, bind. destruct (m s w) as [[[a|e] s'] w']; done. Qed.

Lemma wp_call {A} (c : W -> Outcome A * W) Q s w :
  (forall o w', c w = (o, w') -> Q o s w') -> wp (call c) Q s w.
Proof. unfold wp, call. intros H. destruct (c w) as [o w']. by apply H. Qed.

Lemma wp_read {A} (f : DM -> A) Q s (w : W) : Q (Ok (f s)) s w -> wp (read f) Q s w.
Proof. done. Qed.

Lemma wp_update (f : DM -> DM) Q s (w : W) : Q (Ok tt) (f s) w -> wp (update f) Q s w.
Proof. done. Qed.

Lemma wp_slot k Q s (w : W) :
  (forall v, slots s !! k = Some v -> Q (Ok v) s w) ->
  (slots s !! k = None -> Q (Raised (KeyError k)) s w) ->
  wp (slot k) Q s w.
Proof.
  intros H1 H2. unfold slot. apply wp_bind, wp_read.
  destruct (slots s !! k) eqn:E; [apply wp_ret|apply wp_raise]; auto.
Qed.

Lemma wp_some {A} (m : M (W:=W) A) Q s (w : W) :
  wp m (fun o s' w' =>
          Q (match o with Ok a => Ok (Some a) | Raised e => Raised e end) s' w') s w ->
  wp (some m) Q s w.
Proof.
  intros H. unfold some. apply wp_bind. revert H. apply wp_mono.
  by intros [a|e] s' w'.
Qed.

End Wp.

(** One step of a run. *)
Ltac wp_step :=
  lazymatch goal with
  | |- wp (bind _ _) _ _ _ => apply wp_bind
  | |- wp (ret _) _ _ _ => apply wp_ret
  | |- wp (raise _) _ _ _ => apply wp_raise
  | |- wp (read _) _ _ _ => apply wp_read
  | |- wp (update _) _ _ _ => apply wp_update
  | |- wp (set_slot _ _) _ _ _ => apply wp_update
  | |- wp (pop_slot _) _ _ _ => apply wp_update
  | |- wp (set_awaiting _) _ _ _ => apply wp_update
  | |- wp (set_active_intent _) _ _ _ => apply wp_update
  | |- wp (set_in_flow _) _ _ _ => apply wp_update
  | |- wp reset _ _ _ => apply wp_update
  | |- wp (some _) _ _ _ => apply wp_some
  | |- wp (slot _) _ _ _ => apply wp_slot; [intros ? ?|intros ?]
  | |- wp (call _) _ _ _ => apply wp_call; intros [?|?] ? ?
  | |- wp (if bool_decide _ then _ else _) _ _ _ => case_bool_decide
  | |- wp (if ?b then _ else _) _ _ _ => destruct b eqn:?
  | |- wp (match ?x with _ => _ end) _ _ _ => destruct x eqn:?
  end;
  cbv beta iota; cbn [active_intent slots awaiting in_flow idle].

Ltac wp_run := repeat wp_step.

Section Invariant.
Context {W : Type} (env : Collaborators W).

Lemma wp_fill entities : forall (Q : Outcome unit -> DM -> W -> Prop) s w,
  (forall o s', filled s s' -> Q o s' w) ->
  wp (fill_transfer_slots entities) Q s w.
Proof.
  induction entities as [|e es IH]; intros Q s w H; cbn [fill_transfer_slots].
  - apply wp_ret. apply H. by repeat split.
  - wp_run.
    + apply IH. intros o s' (? & ? & ? & Hk). apply H. repeat split; try done.
      intros k Hs. apply Hk. cbn.
      destruct (decide (k = "from_account")) as [->|];
        [by rewrite lookup_insert_eq|by rewrite lookup_insert_ne].
    + apply IH. intros o s' (? & ? & ? & Hk). apply H. repeat split; try done.
      intros k Hs. apply Hk. cbn.
      destruct (decide (k = "amount")) as [->|];
        [by rewrite lookup_insert_eq|by rewrite lookup_insert_ne].
    + apply H. by repeat split.
    + by apply IH.
Qed.

Lemma elem_of_flows f :
  f ∈ flows -> f = "transfer_money" \/ f = "check_balance" \/ f = "card_block".
Proof.
  unfold flows. intros H.
  repeat (apply elem_of_cons in H as [H|H]; [auto|]). by apply elem_of_nil in H.
Qed.

(** Outside the three flows an intent is recorded without a lock. *)
Lemma wf_unlocked (i : option string) :
  i <> Some "transfer_money" -> i <> Some "check_balance" -> i <> Some "card_block" ->
  wf {| active_intent := i; slots := ∅; awaiting := None; in_flow := false |}.
Proof.
  intros H1 H2 H3. split; cbn; try done.
  intros f Hf ->. apply elem_of_flows in Hf as [->| [->| ->]]; done.
Qed.

Ltac wf_leaf :=
  intros [? ?] [? ? ? Hpw Hrc]; split; cbn; intros; simplify_map_eq; intuition eauto.

Ltac flow_leaf :=
  unfold flow_post, kept_or_reset, locked; cbn;
  first
    [ split; [by left | intros; apply wf_idle]
    | split; [by right | wf_leaf] ].

Lemma collect_wf entities user_text (s0 s : DM) (w : W) :
  in_flow s = in_flow s0 -> active_intent s = active_intent s0 ->
  awaiting s <> Some "password" -> awaiting s <> Some "receiver" ->
  wp (transfer_collect env entities user_text) (flow_post s0) s w.
Proof.
  intros Hf0 Ha0 Hnp Hnr. unfold transfer_collect.
  apply wp_bind, wp_fill. intros o s1 (Ha1 & Haw1 & Hf1 & Hk).
  rewrite Ha0 in Ha1. rewrite Hf0 in Hf1. rewrite <- Haw1 in Hnp, Hnr. clear Hk Ha0 Hf0 Haw1 s.
  destruct o as [[]|e]; wp_run.
  all: unfold flow_post, kept_or_reset, locked; cbn; rewrite ?Ha1, ?Hf1.
  all: (split; [by right |]).
  all: intros [? ?] [? ? ? Hpw Hrc]; split; cbn; rewrite ?Ha1, ?Hf1; intros; simplify_map_eq; intuition eauto.
Qed.

Lemma transfer_wf entities user_text (s : DM) (w : W) :
  wp (_handle_transfer env entities user_text) (flow_post s) s w.
Proof.
  unfold _handle_transfer. wp_run.
  all: try (apply collect_wf; done).
  all: try flow_leaf.

Qed.

Lemma balance_wf entities user_text (s : DM) (w : W) :
  wp (_handle_check_balance env entities user_text) (flow_post s) s w.
Proof. unfold _handle_check_balance. wp_run. all: flow_leaf. Qed.

Lemma card_wf entities user_text (s : DM) (w : W) :
  wp (_handle_card_block env entities user_text) (flow_post s) s w.
Proof. unfold _handle_card_block. wp_run. all: flow_leaf. Qed.

(** A turn that starts outside a flow starts from the reset state. *)
Lemma handle_outside_flow intent entities user_text (s : DM) (w : W) :
  in_flow s = false ->
  handle env intent entities user_text s w = handle env intent entities user_text idle w.
Proof.
  intros H. unfold handle. destruct (is_cancel (strip user_text)); [done|].
  unfold bind, read. rewrite H. reflexivity.
Qed.

Lemma locked_started (f : string) :
  f ∈ flows ->
  let s := {| active_intent := Some f; slots := ∅; awaiting := None; in_flow := true |} in
  locked s /\ wf s.
Proof.
  intros Hf s. split; [split; [done|by exists f] |].
  split; cbn; intros; try done. by exists f.
Qed.

Lemma handle_from_idle intent entities user_text (w : W) :
  wp (handle env intent entities user_text) (fun _ s' _ => wf s') idle w.
Proof.
  unfold handle. wp_run.
  all: try apply wf_idle.
  all: try (apply wf_unlocked; congruence).
  all: match goal with H : Some _ = Some ?f |- _ =>
         injection H as ->;
         destruct (locked_started f) as [Hl Hw];
           [unfold flows; set_solver|]
       end.
  - eapply wp_mono; [|apply transfer_wf]. intros o s' w' [_ Hp]. by apply Hp.
  - eapply wp_mono; [|apply balance_wf]. intros o s' w' [_ Hp]. by apply Hp.
  - eapply wp_mono; [|apply card_wf]. intros o s' w' [_ Hp]. by apply Hp.
Qed.

Lemma handle_in_flow intent entities user_text (s : DM) (w : W) :
  in_flow s = true ->
  wp (handle env intent entities user_text)
     (fun _ s' _ => kept_or_reset s s' /\ (wf s -> wf s')) s w.
Proof.
  intros Hf. unfold handle.
  assert (Heta : {| active_intent := active_intent s; slots := slots s;
                    awaiting := awaiting s; in_flow := true |} = s)
    by (rewrite <- Hf; apply dm_eta).
  wp_run; try congruence.
  all: rewrite ?Heta.
  all: try (split; [by left | intros; apply wf_idle]).
  all: try (split; [by right | done]).
  - eapply wp_mono; [|apply transfer_wf]. intros o s' w' [Hk Hp]. split; [done|].
    intros Hw. apply Hp; [|done]. split; [done|]. exists "transfer_money".
    split; [unfold flows; set_solver|done].
  - eapply wp_mono; [|apply balance_wf]. intros o s' w' [Hk Hp]. split; [done|].
    intros Hw. apply Hp; [|done]. split; [done|]. exists "check_balance".
    split; [unfold flows; set_solver|done].
  - eapply wp_mono; [|apply card_wf]. intros o s' w' [Hk Hp]. split; [done|].
    intros Hw. apply Hp; [|done]. split; [done|]. exists "card_block".
    split; [unfold flows; set_solver|done].
Qed.

(** Every turn keeps the state well-formed, also when it raises. *)
Lemma handle_wf intent entities user_text (s : DM) (w : W) o s' w' :
  wf s -> handle env intent entities user_text s w = (o, s', w') -> wf s'.
Proof.
  intros Hw H. destruct (in_flow s) eqn:Hf.
  - pose proof (handle_in_flow intent entities user_text s w Hf) as Hp.
    apply (wp_elim _ _ _ _ _ _ _ Hp) in H as [_ H]. by apply H.
  - rewrite handle_outside_flow in H by done.
    by apply (wp_elim _ _ _ _ _ _ _ (handle_from_idle intent entities user_text w)) in H.
Qed.

Lemma collect_keeps_flow entities user_text (s0 s : DM) (w : W) :
  in_flow s = in_flow s0 ->
  wp (transfer_collect env entities user_text)
     (fun _ s' _ => in_flow s' = in_flow s0) s w.
Proof.
  intros Hf. unfold transfer_collect.
  apply wp_bind, wp_fill. intros o s1 (_ & _ & Hf1 & _).
  rewrite Hf in Hf1.
  destruct o as [[]|e]; wp_run; done.
Qed.

(** A locked turn releases the lock only at the last step of the flow,
    where it replies and resets; a turn that raises or reports an invalid
    input keeps it. *)
Lemma flow_left_at_last_step intent entities user_text (s s' : DM) (w w' : W) o :
  in_flow s = true ->
  is_cancel (strip user_text) = false ->
  intent <> "out_of_scope" ->
  handle env intent entities user_text s w = (o, s', w') ->
  in_flow s' = false ->
  s' = idle /\ exists reply, o = Ok (Some reply) /\ terminal_reply s reply.
Proof.
  intros Hf Hc Hi H.
  assert (Heta : {| active_intent := active_intent s; slots := slots s;
                    awaiting := awaiting s; in_flow := true |} = s)
    by (rewrite <- Hf; apply dm_eta).
  revert H.
  apply (wp_elim (handle env intent entities user_text)
           (fun o s' _ => in_flow s' = false ->
              s' = idle /\ exists reply, o = Ok (Some reply) /\ terminal_reply s reply)).
  unfold handle. rewrite Hc. apply String.eqb_neq in Hi.
  wp_run; try congruence.
  all: rewrite ?Heta.
  - unfold _handle_transfer. wp_run.
    all: try (eapply wp_mono; [|by apply collect_keeps_flow]; cbn; intros; congruence).
    all: try (cbn; congruence).
    all: intros _; split; [done|]; eexists; split; [done|]; left.
    all: repeat split; try done; eauto.
  - unfold _handle_check_balance. wp_run.
    all: try (cbn; congruence).
    all: intros _; split; [done|]; eexists; split; [done|]; right; left.
    all: split; eauto.
  - unfold _handle_card_block. wp_run.
    all: try (cbn; congruence).
    all: intros _; split; [done|]; eexists; split; [done|]; right; right.
    all: split; eauto.
Qed.

Lemma reachable_wf s : reachable env s -> wf s.
Proof. induction 1; [apply wf_idle | by eapply handle_wf]. Qed.

End Invariant.

Section Totality.
Context {W : Type} (env : Collaborators W).

Lemma wp_call_ok {A} (c : W -> Outcome A * W) Q s w :
  answers c -> (forall a w', c w = (Ok a, w') -> Q (Ok a) s w') -> wp (call c) Q s w.
Proof.
  intros Hc H. apply wp_call. intros o w' E.
  destruct (Hc w) as (a & w1 & E1). rewrite E1 in E. injection E as <- <-. by apply H.
Qed.

Lemma and_then_answers (c1 c2 : W -> Outcome unit * W) :
  answers c1 -> answers c2 -> answers (and_then c1 c2).
Proof.
  intros H1 H2 w. unfold and_then. destruct (H1 w) as (a & w1 & ->). apply H2.
Qed.

Lemma log_answers user_text intent conf entities success :
  dependable env -> answers (log_interaction env user_text intent conf entities success).
Proof.
  intros [? ? ? ? ? ? ?]. unfold log_interaction.
  repeat apply and_then_answers; done.
Qed.

Lemma wp_fill_ok entities : forall (Q : Outcome unit -> DM -> W -> Prop) s w,
  integer_amounts entities ->
  (forall s', filled s s' -> Q (Ok tt) s' w) ->
  wp (fill_transfer_slots entities) Q s w.
Proof.
  induction entities as [|e es IH]; intros Q s w Hint H; cbn [fill_transfer_slots].
  - apply wp_ret. apply H. by repeat split.
  - assert (Hes : integer_amounts es).
    { intros x Hx. apply Hint. by right. }
    wp_run.
    + apply IH; [done|]. intros s' (? & ? & ? & Hk). apply H. repeat split; try done.
      intros k Hs. apply Hk. cbn.
      destruct (decide (k = "from_account")) as [->|];
        [by rewrite lookup_insert_eq|by rewrite lookup_insert_ne].
    + apply IH; [done|]. intros s' (? & ? & ? & Hk). apply H. repeat split; try done.
      intros k Hs. apply Hk. cbn.
      destruct (decide (k = "amount")) as [->|];
        [by rewrite lookup_insert_eq|by rewrite lookup_insert_ne].
    + exfalso. destruct (Hint e) as [n Hn]; [by left| by apply String.eqb_eq|congruence].
    + by apply IH.
Qed.

Hypothesis Hdep : dependable env.

(** One step of a run with dependable collaborators. *)
Ltac ok_step :=
  lazymatch goal with
  | |- wp (call _) _ _ _ =>
      apply wp_call_ok;
      [first [apply log_answers; exact Hdep | apply Hdep] | intros ? ? ?]
  | |- wp (some _) _ _ _ => apply wp_some
  | |- _ => wp_step
  end;
  cbv beta iota; cbn [active_intent slots awaiting in_flow idle].

Lemma collect_replies entities user_text (s : DM) (w : W) :
  integer_amounts entities ->
  wp (transfer_collect env entities user_text) replies s w.
Proof.
  intros Hint. unfold transfer_collect.
  apply wp_bind, wp_fill_ok; [done|]. intros s1 _.
  repeat ok_step.
  all: try (by eexists).
  all: simplify_map_eq.
Qed.

Lemma transfer_replies entities user_text (s : DM) (w : W) :
  wf s -> integer_amounts entities -> amount_within_limit user_text ->
  wp (_handle_transfer env entities user_text) replies s w.
Proof.
  intros [_ _ _ Hpw Hrc] Hint Hlim. unfold _handle_transfer.
  destruct (parse_amount_returns _ Hlim) as [r ->].
  repeat ok_step.
  all: try (apply collect_replies; done).
  all: try (by eexists).
  all: exfalso.
  all: try (destruct Hpw as [[? ?] [? ?]]; [done|]; simplify_map_eq).
  all: try (destruct Hrc as ([? ?] & [? ?] & [? ?]); [done|]; simplify_map_eq).
Qed.

Lemma balance_replies entities user_text (s : DM) (w : W) :
  wp (_handle_check_balance env entities user_text) replies s w.
Proof. unfold _handle_check_balance. repeat ok_step. all: by eexists. Qed.

Lemma card_replies entities user_text (s : DM) (w : W) :
  wp (_handle_card_block env entities user_text) replies s w.
Proof. unfold _handle_card_block. repeat ok_step. all: by eexists. Qed.

Lemma replies_some {A} (m : M (W:=W) A) s (w : W) :
  wp m replies s w ->
  wp m (fun o s' w' =>
          replies (match o with Ok a => Ok (Some a) | Raised e => Raised e end) s' w') s w.
Proof. apply wp_mono. intros o s' w' [a ->]. by eexists. Qed.

Lemma handle_replies_wp intent entities user_text (s : DM) (w : W) :
  wf s -> integer_amounts entities -> amount_within_limit (strip user_text) ->
  wp (handle env intent entities user_text) replies s w.
Proof.
  intros Hw Hint Hlim. unfold handle.
  repeat ok_step.
  all: try (by eexists).
  all: apply replies_some.
  all: try apply balance_replies; try apply card_replies.
  all: apply transfer_replies; [|done|done].
  - rewrite <- Heqb0. by rewrite dm_eta.
  - match goal with H : Some _ = Some _ |- _ => injection H as -> end.
    apply (locked_started "transfer_money"). unfold flows. set_solver.
Qed.

(** With dependable collaborators [handle] replies. *)
Lemma handle_replies intent entities user_text (s : DM) (w : W) :
  wf s -> integer_amounts entities -> amount_within_limit (strip user_text) ->
  exists reply s' w', handle env intent entities user_text s w = (Ok reply, s', w').
Proof.
  intros Hw Hint Hlim.
  pose proof (handle_replies_wp intent entities user_text s w Hw Hint Hlim) as H.
  unfold wp in H. destruct (handle env intent entities user_text s w) as [[o s'] w'].
  destruct H as [a ->]. by exists a, s', w'.
Qed.

End Totality.

Section Turns.
Context {W : Type} (env : Collaborators W).

Lemma not_cancel user_text :
  lower (strip user_text) ∉ ["cancel"; "stop"; "exit"] -> is_cancel (strip user_text) = false.
Proof. intros H. by apply bool_decide_eq_false_2. Qed.


(** C4, amended. After every call of [handle] in a session, whether it
    returns or raises: [in_flow] is true if and only if [active_intent] is
    one of the three flow intents; [awaiting] is set only while [in_flow] is
    true; and when [active_intent] has changed, the slots are empty or the
    whole turn ran from the reset state, so that no slot of the previous
    intent is left. *)
Theorem state_invariant_after_turn
    (s : DM) (intent : string) (entities : list Entity) (user_text : string)
    (w : W) (o : Outcome (option string)) (s' : DM) (w' : W) :
  reachable env s ->
  handle env intent entities user_text s w = (o, s', w') ->
  (in_flow s' = true <-> exists f, f ∈ flows /\ active_intent s' = Some f) /\
  (awaiting s' <> None -> in_flow s' = true) /\
  (active_intent s' <> active_intent s ->
   slots s' = ∅ \/ handle env intent entities user_text idle w = (o, s', w')).
Proof.
  intros Hr H. pose proof (reachable_wf env s Hr) as Hw.
  destruct (handle_wf env _ _ _ _ _ _ _ _ Hw H) as [Hfl Hlk Haw _ _].
  split; [|split].
  - split; [done|]. intros (f & Hf & Ha). by apply (Hlk f).
  - done.
  - intros Hne. destruct (in_flow s) eqn:Hf.
    + left. pose proof (handle_in_flow env intent entities user_text s w Hf) as Hp.
      apply (wp_elim _ _ _ _ _ _ _ Hp) in H as [[->|[_ Hk]] _]; [done|].
      by destruct Hne.
    + right. by rewrite <- (handle_outside_flow env intent entities user_text s w Hf).
Qed.


(** C10. For every text, [extract] emits entities of the kinds [TXN_ID],
    [ACCOUNT_NUMBER] and [AMOUNT] only, never [CARD_TYPE] or
    [ACCOUNT_TYPE]; so with the entities of [extract] the card-block flow
    never takes its entity branch: unless it awaits the card type, it asks
    for it. *)
Theorem extractor_never_feeds_card_shortcut (s : string) :
  (forall e, e ∈ extract s -> entity e ∈ ["TXN_ID"; "ACCOUNT_NUMBER"; "AMOUNT"]) /\
  (forall e, e ∈ extract s -> entity e <> "CARD_TYPE" /\ entity e <> "ACCOUNT_TYPE") /\
  (forall user_text (st : DM) (w : W),
      awaiting st <> Some "card_type" ->
      _handle_card_block env (extract s) user_text st w =
        (Ok MSG_ASK_CARD,
         {| active_intent := active_intent st; slots := slots st;
            awaiting := Some "card_type"; in_flow := in_flow st |}, w)).
Proof.
  assert (Hk : forall e, e ∈ extract s -> entity e <> "CARD_TYPE" /\ entity e <> "ACCOUNT_TYPE").
  { intros e He. apply extract_kinds in He.
    repeat (apply elem_of_cons in He as [->|He]); try done. by apply elem_of_nil in He. }
  split; [apply extract_kinds|]. split; [done|].
  intros user_text st w Haw.
  assert (Hnone : first_of_kind "CARD_TYPE" (extract s) = None).
  { unfold first_of_kind. destruct (List.find _ _) as [e|] eqn:E; [|done].
    apply find_some in E as [Hin He]. apply String.eqb_eq in He.
    apply list_elem_of_In, Hk in Hin as [Hin _]. done. }
  unfold _handle_card_block, bind, read. rewrite bool_decide_eq_false_2 by done.
  by rewrite Hnone.
Qed.

End Turns.

(** Closed facts on the sample bank. *)

Lemma steady_bank_dependable : dependable steady_bank.
Proof.
  split; intros; intros bk; cbn; try by eexists _, _.
  unfold do_transfer.
  repeat match goal with |- context [match ?x with _ => _ end] => destruct x end;
    by eexists _, _.
Qed.


(** C4 as stated fails.  After a greeting from the idle state
    [active_intent] is "greet" and [in_flow] is false. *)
Lemma greeting_records_intent_without_flow :
  let s' := state_after (handle bank "greet" [] "hello" idle open_bank) in
  ~ (in_flow s' = true <-> active_intent s' <> None).
Proof. intros s' [_ H]. by assert (in_flow s' = true) by (apply H; done). Qed.


(** An amount of 4301 digits at the amount prompt: [int] raises
    [ValueError] out of [handle]; with 4300 digits the turn goes on. *)
Lemma long_amount_leaves_handle :
  let digits (n : nat) := text (repeat "1"%char n) in
  outcome_of (handle bank "transfer_money" [] (digits 4301) awaiting_amount open_bank)
    = Raised (ValueError (digits 4301)) /\
  outcome_of (handle bank "transfer_money" [] (digits 4300) awaiting_amount open_bank)
    = Ok (Some MSG_ASK_PASSWORD).
Proof. split; vm_compute; reflexivity. Qed.

(** [int] does not skip the separators FS..US that [str.strip] removes. *)
Lemma int_rejects_separators :
  let fs := String (ascii_of_nat 28) "7" in
  strip fs = "7" /\ py_int fs = None /\ py_int " 7 " = Some 7%Z.
Proof. repeat split. Qed.

Lemma decimal_amount_leaves_handle :
  extract "send Rs 12.50" = [mkEntity "AMOUNT" "12.50"] /\
  outcome_of (handle bank "transfer_money" (extract "send Rs 12.50") "send Rs 12.50"
                     idle open_bank)
    = Raised (ValueError "12.50").
Proof. split; reflexivity. Qed.

(** The cancel word in capitals, in the middle of a transfer. *)
Lemma cancel_always_wins_witness :
  handle bank "transfer_money" [] "  CANCEL " awaiting_receiver open_bank
    = (Ok (Some MSG_CANCELLED), idle, open_bank).
Proof.
  refine (cancel_always_wins bank "transfer_money" [] "  CANCEL "
            awaiting_receiver open_bank _).
  change (lower (strip "  CANCEL ")) with "cancel". in_list.
Defined.


(** The last turn of the transfer scenario on the sample bank. *)
Lemma transfer_flow_scenario_witness :
  handle bank "transfer_money" [] "Bob (9876543210)" awaiting_receiver open_bank
    = (Ok (Some "✅ Transfer Successful"), idle,
       after_transfer "9876543210" "Bob (9876543210)").
Proof.
  refine (proj2 (proj2 (proj2
    (transfer_flow_scenario bank
       open_bank open_bank open_bank open_bank open_bank open_bank open_bank
       (mkBank (credit "9876543210" 500 (credit "1234567890" (-500) [alice; bob]))
               [] true)
       (after_transfer "9876543210" "Bob (9876543210)")
       alice alice [("1234567890", "Alice"); ("9876543210", "Bob")]
       "✅ Transfer completed" "transfer_money" "transfer_money" "transfer_money"
       [] [] "Bob " _ _ _ _ _ _ _ _ _)))).
  - reflexivity.
  - reflexivity.
  - reflexivity.
  - reflexivity.
  - reflexivity.
  - reflexivity.
  - discriminate.
  - discriminate.
  - discriminate.
Defined.


(** The state that waits for the amount is reached by the opening turn. *)
Lemma awaiting_amount_reachable (env : Collaborators Bank) :
  get_account env = get_account bank ->
  reachable env awaiting_amount.
Proof.
  intros Hg.
  apply (reach_turn env idle "transfer_money" [] "1234567890" open_bank
           (Ok (Some MSG_ASK_AMOUNT)) awaiting_amount open_bank); [apply reach_init|].
  apply (transfer_opening env "1234567890" idle open_bank open_bank alice); try done.
  by rewrite Hg.
Qed.

(** The invariant after the amount turn of a transfer on the sample bank. *)
Lemma state_invariant_after_turn_witness :
  let s' := state_after (handle bank "greet" [] "500" awaiting_amount open_bank) in
  (in_flow s' = true <-> exists f, f ∈ flows /\ active_intent s' = Some f) /\
  (awaiting s' <> None -> in_flow s' = true).
Proof.
  intros s'.
  destruct (state_invariant_after_turn bank awaiting_amount "greet" [] "500" open_bank
              (Ok (Some MSG_ASK_PASSWORD)) s' open_bank) as (H1 & H2 & _).
  - by apply awaiting_amount_reachable.
  - vm_compute. reflexivity.
  - split; assumption.
Defined.


End MachineFacts.

(** ** Amounts and the turns of the flows *)

Module FlowFacts.
Import Text TextFacts Dialogue AmountSpec AmountFacts MachineSpec SampleBank MachineFacts FlowSpec.

Lemma drop_while_is_suffix p l : exists pre, l = pre ++ drop_while p l.
Proof.
  induction l as [|c t [pre IH]]; [by exists []|]. simpl.
  destruct (p c); [|by exists []]. exists (c :: pre). simpl. by f_equal.
Qed.

Lemma drop_while_idem p l : drop_while p (drop_while p l) = drop_while p l.
Proof.
  destruct (drop_while p l) as [|c t] eqn:E; [done|].
  apply drop_while_head_false in E. simpl. by rewrite E.
Qed.

(** Trimming a trimmed text changes nothing. *)
Lemma strip_l_idem l : strip_l (strip_l l) = strip_l l.
Proof.
  unfold strip_l, lstrip_l, rstrip_l.
  set (l1 := drop_while is_space l). set (x := drop_while is_space (rev l1)).
  assert (Hl : drop_while is_space (rev x) = rev x).
  { destruct (drop_while_is_suffix is_space (rev l1)) as [pre Hpre]. fold x in Hpre.
    assert (l1 = rev x ++ rev pre) as Hl1.
    { rewrite <- rev_app_distr, <- Hpre. by rewrite rev_involutive. }
    destruct (rev x) as [|c r] eqn:Er; [done|].
    assert (is_space c = false) as Hc.
    { unfold l1 in Hl1. by apply drop_while_head_false in Hl1. }
    simpl. by rewrite Hc. }
  rewrite Hl, rev_involutive. unfold x. by rewrite drop_while_idem.
Qed.

Lemma strip_idem s : strip (strip s) = strip s.
Proof. unfold strip. by rewrite chars_text, strip_l_idem. Qed.

Lemma take_while_app p d rest :
  forallb p d = true ->
  match rest with [] => True | c :: _ => p c = false end ->
  take_while p (d ++ rest) = d.
Proof.
  intros Hd Hr. induction d as [|c d IH]; cbn [app take_while].
  - destruct rest as [|c t]; [done|]. cbn [take_while]. by rewrite Hr.
  - cbn [forallb] in Hd. apply andb_true_iff in Hd as [Hc Hd]. rewrite Hc. f_equal. by apply IH.
Qed.

Lemma first_run_of pre d rest :
  forallb not_digit pre = true -> forallb is_digit d = true -> d <> [] ->
  match rest with [] => True | c :: _ => is_digit c = false end ->
  first_digit_run (pre ++ d ++ rest) = d.
Proof.
  intros Hp Hd Hne Hr. unfold first_digit_run.
  induction pre as [|c pre IH]; cbn [app drop_while].
  - destruct d as [|c d]; [done|]. cbn [app drop_while].
    pose proof Hd as Hd'. cbn [forallb] in Hd'. apply andb_true_iff in Hd' as [Hc _].
    unfold not_digit. rewrite Hc. cbn [negb].
    by apply (take_while_app is_digit (c :: d)).
  - cbn [forallb] in Hp. apply andb_true_iff in Hp as [Hc Hp]. rewrite Hc. by apply IH.
Qed.

Lemma parse_amount_none (s : string) :
  _parse_amount s = Ok None <-> forall c, c ∈ chars s -> is_digit c = false.
Proof.
  rewrite parse_amount_run. unfold amount_digits.
  destruct (first_digit_run (remove_chr "," (chars s))) as [|d r] eqn:E.
  - split; [intros _|done]. pose proof (proj1 (first_run_empty _) E) as E0.
    intros c Hc. destruct (is_digit c) eqn:Ed; [|done].
    rewrite <- Ed. apply E0. unfold remove_chr. apply list_elem_of_In, filter_In.
    split; [by apply list_elem_of_In|].
    apply negb_true_iff, ceqb_neq. intros ->. done.
  - split.
    + cbv beta iota zeta. by destruct (Z.of_nat _ <=? _)%Z.
    + intros H. exfalso.
      assert (first_digit_run (remove_chr "," (chars s)) = []) as E'; [|congruence].
      apply first_run_empty. intros c Hc. apply H.
      unfold remove_chr in Hc. apply list_elem_of_In, filter_In in Hc as [Hc _].
      by apply list_elem_of_In.
Qed.


Section Flows.
Context {W : Type} (env : Collaborators W).



Lemma last_value_cons kind e es :
  last_value kind (e :: es) =
    match last_value kind es with
    | Some v => Some v
    | None => if String.eqb (entity e) kind then Some (value e) else None
    end.
Proof.
  unfold last_value. cbn [List.filter].
  destruct (String.eqb (entity e) kind); [|by destruct (last _)].
  destruct (List.filter _ es) as [|x l] eqn:E; [done|].
  change (last (e :: x :: l)) with (last (x :: l)).
  destruct (last (x :: l)) eqn:El; [done|].
  by apply last_None in El.
Qed.

Lemma integer_amounts_cons e es :
  integer_amounts (e :: es) -> integer_amounts es.
Proof. intros H x Hx. apply H. by right. Qed.

Lemma last_value_elem kind es v :
  last_value kind es = Some v -> exists e, e ∈ es /\ entity e = kind /\ value e = v.
Proof.
  unfold last_value. intros H. apply fmap_Some in H as (e & He & ->).
  apply last_Some_elem_of in He. apply list_elem_of_In, filter_In in He as [He Hk].
  exists e. split; [by apply list_elem_of_In|]. split; [by apply String.eqb_eq|done].
Qed.

Lemma last_amount_integer es v :
  integer_amounts es -> last_value "AMOUNT" es = Some v -> is_Some (py_int v).
Proof.
  intros Hi H. apply last_value_elem in H as (e & He & Hk & <-). by apply Hi.
Qed.

Lemma last_value_cons_ne kind e es :
  entity e <> kind -> last_value kind (e :: es) = last_value kind es.
Proof.
  intros H. rewrite last_value_cons. apply String.eqb_neq in H. rewrite H.
  by destruct (last_value kind es).
Qed.

Lemma last_value_cons_eq kind e es :
  entity e = kind ->
  last_value kind (e :: es) = Some (default (value e) (last_value kind es)).
Proof.
  intros H. rewrite last_value_cons. apply String.eqb_eq in H. rewrite H.
  by destruct (last_value kind es).
Qed.

Lemma entity_slots_account e es sl :
  entity e = "ACCOUNT_NUMBER" ->
  entity_slots (e :: es) sl = entity_slots es (<["from_account" := VStr (strip (value e))]> sl).
Proof.
  intros Hk. unfold entity_slots.
  rewrite (last_value_cons_eq "ACCOUNT_NUMBER") by done.
  rewrite (last_value_cons_ne "AMOUNT") by (by rewrite Hk).
  destruct (last_value "ACCOUNT_NUMBER" es) as [v|]; [|done].
  cbn [default]. by rewrite insert_insert_eq.
Qed.

Lemma entity_slots_amount e es sl n :
  entity e = "AMOUNT" -> py_int (value e) = Some n -> integer_amounts es ->
  entity_slots (e :: es) sl = entity_slots es (<["amount" := VInt n]> sl).
Proof.
  intros Hk Hn Hi. unfold entity_slots.
  rewrite (last_value_cons_eq "AMOUNT") by done.
  rewrite (last_value_cons_ne "ACCOUNT_NUMBER") by (by rewrite Hk).
  destruct (last_value "AMOUNT" es) as [v|] eqn:Ev.
  - destruct (last_amount_integer es v Hi Ev) as [m Hm]. cbn. rewrite Hm.
    destruct (last_value "ACCOUNT_NUMBER" es) as [a|].
    + rewrite (insert_insert_ne _ "from_account" "amount") by done. by rewrite insert_insert_eq.
    + by rewrite insert_insert_eq.
  - cbn. rewrite Hn.
    destruct (last_value "ACCOUNT_NUMBER" es) as [a|]; [|done].
    by rewrite (insert_insert_ne _ "from_account" "amount").
Qed.

Lemma entity_slots_other e es sl :
  entity e <> "ACCOUNT_NUMBER" -> entity e <> "AMOUNT" ->
  entity_slots (e :: es) sl = entity_slots es sl.
Proof.
  intros H1 H2. unfold entity_slots. by rewrite !last_value_cons_ne.
Qed.

Lemma fill_integer_amounts es : forall (s : DM) (w : W),
  integer_amounts es ->
  fill_transfer_slots es s w =
    (Ok tt, with_slots s (entity_slots es (slots s)) (awaiting s), w).
Proof.
  induction es as [|e es IH]; intros s w Hi.
  - cbn. unfold with_slots. by rewrite dm_eta.
  - cbn [fill_transfer_slots]. unfold bind at 1.
    destruct (String.eqb (entity e) "ACCOUNT_NUMBER") eqn:E1.
    + apply String.eqb_eq in E1. mrun. rewrite IH by (by eapply integer_amounts_cons).
      cbn. by rewrite entity_slots_account.
    + destruct (String.eqb (entity e) "AMOUNT") eqn:E2.
      * apply String.eqb_eq in E2.
        destruct (Hi e (list_elem_of_here _ _) E2) as [n Hn]. rewrite Hn. mrun.
        rewrite IH by (by eapply integer_amounts_cons). cbn.
        by rewrite (entity_slots_amount e es _ n) by (done || by eapply integer_amounts_cons).
      * apply String.eqb_neq in E1, E2. mrun.
        rewrite IH by (by eapply integer_amounts_cons).
        by rewrite entity_slots_other.
Qed.

Lemma fill_first_bad_amount pre : forall e post (s : DM) (w : W),
  integer_amounts pre -> entity e = "AMOUNT" -> py_int (value e) = None ->
  fill_transfer_slots (pre ++ e :: post) s w =
    (Raised (ValueError (value e)),
     with_slots s (entity_slots pre (slots s)) (awaiting s), w).
Proof.
  induction pre as [|x pre IH]; intros e post s w Hi Hk Hn.
  - cbn [app fill_transfer_slots]. rewrite Hk, Hn.
    change (String.eqb "AMOUNT" "ACCOUNT_NUMBER") with false.
    change (String.eqb "AMOUNT" "AMOUNT") with true. cbn. unfold with_slots.
    by rewrite dm_eta.
  - cbn [app fill_transfer_slots]. unfold bind at 1.
    pose proof (integer_amounts_cons _ _ Hi) as Hi'.
    destruct (String.eqb (entity x) "ACCOUNT_NUMBER") eqn:E1.
    + apply String.eqb_eq in E1. mrun. rewrite IH by done.
      cbn. by rewrite entity_slots_account.
    + destruct (String.eqb (entity x) "AMOUNT") eqn:E2.
      * apply String.eqb_eq in E2.
        destruct (Hi x (list_elem_of_here _ _) E2) as [n Hx]. rewrite Hx. mrun.
        rewrite IH by done. cbn.
        by rewrite (entity_slots_amount x pre _ n).
      * apply String.eqb_neq in E1, E2. mrun. rewrite IH by done.
        by rewrite entity_slots_other.
Qed.

(** X3. Entity-based slot filling of a transfer: the entities are read in
    order and a later entity overwrites an earlier one, so the sender is the
    trimmed value of the last [ACCOUNT_NUMBER] entity and the amount the
    integer of the last [AMOUNT] entity, the other slots being kept.  The
    first [AMOUNT] entity whose value [int] does not convert raises
    [ValueError], with the slots filled from the entities before it. *)
Theorem entity_slot_filling_last_wins (entities : list Entity) (s : DM) (w : W) :
  (integer_amounts entities ->
   fill_transfer_slots entities s w =
     (Ok tt, with_slots s (entity_slots entities (slots s)) (awaiting s), w)) /\
  (forall pre e post,
     entities = pre ++ e :: post ->
     integer_amounts pre -> entity e = "AMOUNT" -> py_int (value e) = None ->
     fill_transfer_slots entities s w =
       (Raised (ValueError (value e)),
        with_slots s (entity_slots pre (slots s)) (awaiting s), w)) /\
  (forall sl,
     entity_slots entities sl !! "from_account" =
       match last_value "ACCOUNT_NUMBER" entities with
       | Some v => Some (VStr (strip v))
       | None => sl !! "from_account"
       end /\
     entity_slots entities sl !! "amount" =
       match last_value "AMOUNT" entities ≫= py_int with
       | Some n => Some (VInt n)
       | None => sl !! "amount"
       end /\
     forall k, k <> "from_account" -> k <> "amount" ->
               entity_slots entities sl !! k = sl !! k).
Proof.
  split; [apply fill_integer_amounts|]. split.
  - intros pre e post ->. apply fill_first_bad_amount.
  - intros sl. unfold entity_slots.
    destruct (last_value "ACCOUNT_NUMBER" entities) as [a|];
      destruct (last_value "AMOUNT" entities ≫= py_int) as [n|].
    all: repeat split; intros; by simplify_map_eq.
Qed.

(** X4. A transfer request that already names the sender and the amount
    skips two prompts: outside a flow, with an [ACCOUNT_NUMBER] entity and an
    [AMOUNT] entity (integer literals), the sender known to the gateway, the
    first turn stores both slots and asks for the password. *)
Theorem transfer_entities_skip_prompts
    (entities : list Entity) (user_text : string) (s : DM) (w w' : W)
    (a v : string) (n : Z) (acc : Account) :
  in_flow s = false ->
  is_cancel (strip user_text) = false ->
  integer_amounts entities ->
  last_value "ACCOUNT_NUMBER" entities = Some a ->
  last_value "AMOUNT" entities = Some v ->
  py_int v = Some n ->
  get_account env (VStr (strip a)) w = (Ok (Some acc), w') ->
  handle env "transfer_money" entities user_text s w =
    (Ok (Some MSG_ASK_PASSWORD),
     {| active_intent := Some "transfer_money";
        slots := <["amount" := VInt n]> {[ "from_account" := VStr (strip a) ]};
        awaiting := Some "password"; in_flow := true |}, w').
Proof.
  intros Hf Hc Hi Ha Hv Hn Hg. unfold handle. rewrite Hc. mgo.
  change (String.eqb "transfer_money" "out_of_scope") with false. cbv iota.
  mgo. unfold _handle_transfer. mgo.
  unfold transfer_collect. unfold bind at 1. rewrite fill_integer_amounts by done.
  unfold with_slots, entity_slots. cbn [active_intent slots awaiting in_flow].
  rewrite Ha, Hv. cbn [mbind option_bind]. rewrite Hn.
  mgo. reflexivity.
Qed.




End Flows.

End FlowFacts.

(** ** The calls of a turn *)

Module TraceFacts.
Import Text TextFacts Dialogue MachineSpec MachineFacts TraceSpec.

Section Erasure.
Context {W : Type} (env : Collaborators W).

Lemma erases_ret {A} (a : A) : @erases W _ (ret a) (ret a).
Proof. intros s w tr. exists []. unfold records. cbn. by rewrite app_nil_r. Qed.

Lemma erases_raise {A} e : @erases W _ (raise (A:=A) e) (raise e).
Proof. intros s w tr. exists []. unfold records. cbn. by rewrite app_nil_r. Qed.

Lemma erases_read {A} (f : DM -> A) : @erases W _ (read f) (read f).
Proof. intros s w tr. exists []. unfold records. cbn. by rewrite app_nil_r. Qed.

Lemma erases_update f : @erases W _ (update f) (update f).
Proof. intros s w tr. exists []. unfold records. cbn. by rewrite app_nil_r. Qed.

Lemma erases_bind {A B} (m : M (W:=W) A) m' (f : A -> M (W:=W) B) f' :
  erases m m' -> (forall a, @erases W _ (f a) (f' a)) -> @erases W _ (bind m f) (bind m' f').
Proof.
  intros Hm Hf s w tr. destruct (Hm s w tr) as [n1 H1]. unfold records in *.
  unfold bind. rewrite H1. destruct (m s w) as [[[a|e] s1] w1].
  - destruct (Hf a s1 w1 (tr ++ n1)) as [n2 H2]. unfold records in H2.
    exists (n1 ++ n2). rewrite H2. destruct (f a s1 w1) as [[o s2] w2].
    by rewrite app_assoc.
  - by exists n1.
Qed.

Lemma erases_call {A} label (c : W -> Outcome A * W) :
  @erases W _ (call c) (call (traced label c)).
Proof.
  intros s w tr. exists [label]. unfold records, call, traced. cbn.
  by destruct (c w) as [o w'].
Qed.

Lemma erases_and_then c1 c1' c2 c2' :
  @erases W _ (call c1) (call c1') -> @erases W _ (call c2) (call c2') ->
  @erases W _ (call (and_then c1 c2)) (call (and_then c1' c2')).
Proof.
  intros H1 H2 s w tr. destruct (H1 s w tr) as [n1 E1].
  unfold records, call, and_then in *.
  destruct (c1' (w, tr)) as [o1' wt1]. destruct (c1 w) as [[[]|e] w1].
  - simplify_eq/=. destruct (H2 s w1 (tr ++ n1)) as [n2 E2].
    unfold records in E2.
    destruct (c2' (w1, tr ++ n1)) as [o2' wt2]. destruct (c2 w1) as [o2 w2].
    simplify_eq/=. exists (n1 ++ n2). by rewrite app_assoc.
  - simplify_eq/=. by exists n1.
Qed.

Lemma erases_log t i c es ok :
  @erases W _ (call (log_interaction env t i c es ok))
         (call (log_interaction (tracing env) t i c es ok)).
Proof.
  unfold log_interaction.
  repeat apply erases_and_then; apply erases_call.
Qed.

Lemma erases_fill es : @erases W _ (fill_transfer_slots es) (fill_transfer_slots es).
Proof.
  induction es as [|e es IH]; cbn [fill_transfer_slots]; [apply erases_ret|].
  apply erases_bind; [|done].
  destruct (String.eqb _ _); [apply erases_update|].
  destruct (String.eqb _ _); [|apply erases_ret].
  destruct (py_int _); [apply erases_update|apply erases_raise].
Qed.

End Erasure.

Ltac er_step :=
  lazymatch goal with
  | |- erases (bind _ _) (bind _ _) => apply erases_bind; [|intros ?]
  | |- erases (ret _) (ret _) => apply erases_ret
  | |- erases (raise _) (raise _) => apply erases_raise
  | |- erases (read _) (read _) => apply erases_read
  | |- erases (update _) (update _) => apply erases_update
  | |- erases (set_slot _ _) _ => apply erases_update
  | |- erases (pop_slot _) _ => apply erases_update
  | |- erases (set_awaiting _) _ => apply erases_update
  | |- erases (set_active_intent _) _ => apply erases_update
  | |- erases (set_in_flow _) _ => apply erases_update
  | |- erases reset _ => apply erases_update
  | |- erases (some _) _ => unfold some
  | |- erases (slot _) _ => unfold slot
  | |- erases (fill_transfer_slots _) _ => apply erases_fill
  | |- erases (call (log_interaction _ _ _ _ _ _)) _ => apply erases_log
  | |- erases (call _) (call _) => apply erases_call
  | |- erases (if ?b then _ else _) _ => destruct b
  | |- erases (match ?x with _ => _ end) _ => destruct x
  | |- erases (let _ := _ in _) _ => cbv zeta
  end.

Section Turn.
Context {W : Type} (env : Collaborators W).

Lemma erases_collect es t :
  erases (transfer_collect env es t) (transfer_collect (tracing env) es t).
Proof. unfold transfer_collect. repeat er_step. Qed.

Lemma erases_transfer es t :
  erases (_handle_transfer env es t) (_handle_transfer (tracing env) es t).
Proof. unfold _handle_transfer. repeat er_step. all: try apply erases_collect. Qed.

Lemma erases_balance es t :
  erases (_handle_check_balance env es t) (_handle_check_balance (tracing env) es t).
Proof. unfold _handle_check_balance. repeat er_step. Qed.

Lemma erases_card es t :
  erases (_handle_card_block env es t) (_handle_card_block (tracing env) es t).
Proof. unfold _handle_card_block. repeat er_step. Qed.

Lemma erases_handle i es t :
  erases (handle env i es t) (handle (tracing env) i es t).
Proof.
  unfold handle. repeat er_step.
  all: first [apply erases_transfer | apply erases_balance | apply erases_card].
Qed.


End Turn.

Section Discipline.
Context {W : Type} (env : Collaborators W).

Lemma wp_traced {A} label (c : W -> Outcome A * W)
    (Q : Outcome A -> DM -> W * list Call -> Prop) s w tr :
  (forall o w', Q o s (w', tr ++ [label])) -> wp (call (traced label c)) Q s (w, tr).
Proof. intros H. unfold wp, call, traced. cbn. destruct (c w) as [o w']. apply H. Qed.

Lemma traced_and_then (c1 c2 : W * list Call -> Outcome unit * (W * list Call))
    (w : W) (tr : list Call) o wt :
  and_then c1 c2 (w, tr) = (o, wt) ->
  (exists e w1 t1, c1 (w, tr) = (Raised e, (w1, t1)) /\ o = Raised e /\ wt = (w1, t1)) \/
  (exists w1 t1, c1 (w, tr) = (Ok tt, (w1, t1)) /\ c2 (w1, t1) = (o, wt)).
Proof.
  unfold and_then. destruct (c1 (w, tr)) as [[[]|e] [w1 t1]]; intros H.
  - right. by exists w1, t1.
  - left. simplify_eq. by exists e, w1, t1.
Qed.

Lemma traced_inv {A} label (c : W -> Outcome A * W) w tr o wt :
  traced label c (w, tr) = (o, wt) -> exists w', wt = (w', tr ++ [label]).
Proof. unfold traced. cbn. destruct (c w) as [o' w']. intros [= <- <-]. by exists w'. Qed.

Lemma log_traced t i c es ok (w : W) tr o wt :
  log_interaction (tracing env) t i c es ok (w, tr) = (o, wt) ->
  exists row w' lg, wt = (w', tr ++ lg) /\ user_query row = t /\ log_shape o row lg.
Proof.
  unfold log_interaction.
  set (row := mkChatRow _ _ _ _ _). intros H. exists row.
  assert (user_query row = t) as Hq by done. clearbody row.
  cbn [db_connect db_insert db_commit db_close tracing] in H.
  apply traced_and_then in H as [(e & w1 & t1 & H1 & -> & ->)|(w1 & t1 & H1 & H)].
  { apply traced_inv in H1 as [w' [= -> ->]]. exists w', [CallConnect].
    split; [done|]. split; [done|]. right. split; [by exists e|]. by left. }
  apply traced_inv in H1 as [w' [= -> ->]].
  apply traced_and_then in H as [(e & w2 & t2 & H2 & -> & ->)|(w2 & t2 & H2 & H)].
  { apply traced_inv in H2 as [w'' [= -> ->]]. exists w'', [CallConnect; CallInsert row].
    split; [by rewrite <- app_assoc|]. split; [done|]. right. split; [by exists e|]. right. by left. }
  apply traced_inv in H2 as [w'' [= -> ->]].
  apply traced_and_then in H as [(e & w3 & t3 & H3 & -> & ->)|(w3 & t3 & H3 & H)].
  { apply traced_inv in H3 as [w3' [= -> ->]].
    exists w3', [CallConnect; CallInsert row; CallCommit].
    split; [by rewrite <- !app_assoc|]. split; [done|]. right. split; [by exists e|]. right. by right. }
  apply traced_inv in H3 as [w3' [= -> ->]].
  apply traced_inv in H as [w4 ->]. exists w4, (log_calls row).
  split; [by rewrite <- !app_assoc|]. split; [done|]. by left.
Qed.

Lemma wp_log_traced t i c es ok
    (Q : Outcome unit -> DM -> W * list Call -> Prop) s w tr :
  (forall o w' row lg,
      user_query row = t -> log_shape o row lg -> Q o s (w', tr ++ lg)) ->
  wp (call (log_interaction (tracing env) t i c es ok)) Q s (w, tr).
Proof.
  intros H. apply wp_call. intros o wt E.
  apply log_traced in E as (row & w' & lg & -> & Hq & Hs). by apply (H o w' row lg).
Qed.


Ltac tr_step :=
  lazymatch goal with
  | |- wp (call (log_interaction (tracing _) _ _ _ _ _)) _ _ _ =>
      apply wp_log_traced; intros [?|?] ? ? ? ? ?
  | |- wp (call (get_account (tracing _) ?v)) _ _ _ =>
      apply (wp_traced (CallGetAccount v)); intros [?|?] ?
  | |- wp (call (list_accounts (tracing _))) _ _ _ =>
      apply (wp_traced CallListAccounts); intros [?|?] ?
  | |- wp (call (transfer_money (tracing _) ?a ?b ?c ?d)) _ _ _ =>
      apply (wp_traced (CallTransfer a b c d)); intros [?|?] ?
  | |- _ => wp_step
  end;
  cbv beta iota; cbn [active_intent slots awaiting in_flow idle].

Ltac mem_inv :=
  repeat match goal with
    | H : _ ∈ _ :: _ |- _ => apply elem_of_cons in H as [H|H]; [simplify_eq|]
    | H : _ ∈ [] |- _ => by apply elem_of_nil in H
    end.

Ltac shapes :=
  repeat match goal with
    | H : log_shape _ _ _ |- _ =>
        destruct H as [->|[[? ?] [->|[->| ->]]]]; try discriminate
    end.

Ltac discipline :=
  unfold call_discipline, count, log_calls; cbn;
  repeat split; try lia; try done; intros; mem_inv; try done.

Ltac calls_leaf :=
  cbn [snd]; rewrite <- ?app_assoc;
  first [ exists []; split; [by rewrite app_nil_r|]
        | eexists; split; [reflexivity|] ];
  shapes; discipline.

Lemma collect_calls es t (s : DM) (w : W) tr :
  wp (transfer_collect (tracing env) es t)
     (fun o _ wt' => exists new, snd wt' = tr ++ new /\
        forall s0 t0, call_discipline s0 t0 (returned o) new) s (w, tr).
Proof.
  unfold transfer_collect. apply wp_bind, wp_fill. intros o s1 _.
  destruct o as [[]|e]; repeat tr_step.
  all: calls_leaf.
Qed.

Lemma transfer_calls es t (s : DM) (w : W) tr :
  active_intent s = Some "transfer_money" ->
  wp (_handle_transfer (tracing env) es t)
     (fun o _ wt' => exists new, snd wt' = tr ++ new /\
        call_discipline s t (returned o) new) s (w, tr).
Proof.
  intros Ha. unfold _handle_transfer. repeat tr_step.
  all: try (eapply wp_mono; [|apply collect_calls];
            intros ? ? ? (new & Enew & Hnew); exists new; split; [exact Enew|apply Hnew]).
  all: calls_leaf.
Qed.

Lemma balance_calls es t (s : DM) (w : W) tr :
  wp (_handle_check_balance (tracing env) es t)
     (fun o _ wt' => exists new, snd wt' = tr ++ new /\
        forall s0, call_discipline s0 t (returned o) new) s (w, tr).
Proof. unfold _handle_check_balance. repeat tr_step. all: calls_leaf. Qed.

Lemma card_calls es t (s : DM) (w : W) tr :
  wp (_handle_card_block (tracing env) es t)
     (fun o _ wt' => exists new, snd wt' = tr ++ new /\
        forall s0, call_discipline s0 t (returned o) new) s (w, tr).
Proof. unfold _handle_card_block. repeat tr_step. all: calls_leaf. Qed.

Lemma discipline_no_prompt (s s0 : DM) t ok new :
  awaiting s = None -> call_discipline s t ok new -> call_discipline s0 t ok new.
Proof.
  intros Haw (H1 & H2 & H3 & H4 & H5 & H6 & H7). repeat split; try done.
  all: destruct (H6 a b c d) as (_ & Hr & _); [done|congruence].
Qed.

Lemma no_transfer_count new :
  (forall a b c d, CallTransfer a b c d ∉ new) -> count is_transfer new = 0.
Proof.
  unfold count. induction new as [|x new IH]; intros H; [done|].
  cbn. destruct x; cbn; try (apply IH; intros a b c d Hin; apply (H a b c d); by right).
  exfalso. eapply H. left.
Qed.

Lemma discipline_no_transfer (s : DM) t ok new :
  awaiting s = None -> call_discipline s t ok new -> count is_transfer new = 0.
Proof.
  intros Haw (_ & _ & _ & _ & _ & H6 & _). apply no_transfer_count.
  intros a b c d Hin. destruct (H6 a b c d Hin) as (_ & Hr & _). congruence.
Qed.

Lemma returned_some {A} (o : Outcome A) :
  returned (match o with Ok a => Ok (Some a) | Raised e => Raised e end) = returned o.
Proof. by destruct o. Qed.

Lemma handle_calls i es text (s : DM) (w : W) tr :
  wp (handle (tracing env) i es text)
     (fun o _ wt' => exists new, snd wt' = tr ++ new /\
        call_discipline s (strip text) (returned o) new /\
        (in_flow s = false -> count is_transfer new = 0) /\
        (is_cancel (strip text) = true \/ i = "out_of_scope" -> new = [])) s (w, tr).
Proof.
  unfold handle. repeat tr_step.
  all: try match goal with H : String.eqb _ _ = false |- _ => apply String.eqb_neq in H end.
  (* the flow handlers, under the lock *)
  all: try match goal with
    | Hf : in_flow _ = true |- wp (_handle_transfer _ _ _) _ ?s1 _ =>
        eapply wp_mono; [|by apply (transfer_calls es (strip text) s1)];
        intros ? ? ? (new & Enew & Hnew); exists new; rewrite returned_some;
        split; [exact Enew|]; split; [exact Hnew|]; split; [done|by intros [?|?]]
    | Hf : in_flow _ = true |- wp (_handle_check_balance _ _ _) _ _ _ =>
        eapply wp_mono; [|by apply balance_calls];
        intros ? ? ? (new & Enew & Hnew); exists new; rewrite returned_some;
        split; [exact Enew|]; split; [apply Hnew|]; split; [done|by intros [?|?]]
    | Hf : in_flow _ = true |- wp (_handle_card_block _ _ _) _ _ _ =>
        eapply wp_mono; [|by apply card_calls];
        intros ? ? ? (new & Enew & Hnew); exists new; rewrite returned_some;
        split; [exact Enew|]; split; [apply Hnew|]; split; [done|by intros [?|?]]
    end.
  (* the flow handlers, on the opening turn *)
  all: try match goal with
    | |- wp (_handle_transfer _ _ _) _ ?s1 _ =>
        eapply wp_mono; [|by apply (transfer_calls es (strip text) s1)];
        intros ? ? ? (new & Enew & Hnew); exists new; rewrite returned_some;
        split; [exact Enew|]; split; [by apply (discipline_no_prompt s1)|];
        split; [intros _; by apply (discipline_no_transfer s1) in Hnew|by intros [?|?]]
    | |- wp (_handle_check_balance _ _ _) _ _ _ =>
        eapply wp_mono; [|by apply balance_calls];
        intros ? ? ? (new & Enew & Hnew); exists new; rewrite returned_some;
        split; [exact Enew|]; split; [apply Hnew|];
        split; [intros _; eapply (discipline_no_transfer idle); [done|apply Hnew]|by intros [?|?]]
    | |- wp (_handle_card_block _ _ _) _ _ _ =>
        eapply wp_mono; [|by apply card_calls];
        intros ? ? ? (new & Enew & Hnew); exists new; rewrite returned_some;
        split; [exact Enew|]; split; [apply Hnew|];
        split; [intros _; eapply (discipline_no_transfer idle); [done|apply Hnew]|by intros [?|?]]
    end.
  all: cbn [snd]; rewrite <- ?app_assoc;
    first [ exists []; split; [by rewrite app_nil_r|]
          | eexists; split; [reflexivity|] ];
    shapes; (split; [discipline|]); (split; [done|]); by intros [?|?].
Qed.

(** X6. The calls of one turn.  For all collaborators, running [handle]
    over their recording wrappers gives the outcome, state and world of
    the plain run, and the calls [new] recorded during the turn obey this
    discipline: at most one row is inserted into the chat history and at
    most one transfer is submitted; a transfer is submitted only by the
    transfer flow at its receiver prompt, with the three stored slots and
    the receiver read from the text, and never on a turn that starts
    outside a flow; every inserted row carries the trimmed text; at most one
    connection is opened, and it is closed whenever the turn returns; a
    cancel word and an out_of_scope intent make no call at all. *)
Theorem calls_of_a_turn (intent : string) (entities : list Entity) (user_text : string)
    (s : DM) (w : W) (tr : list Call) :
  exists new,
    records (handle env intent entities user_text)
            (handle (tracing env) intent entities user_text) s w tr new /\
    call_discipline s (strip user_text)
      (returned (outcome_of (handle env intent entities user_text s w))) new /\
    (in_flow s = false -> count is_transfer new = 0) /\
    (is_cancel (strip user_text) = true \/ intent = "out_of_scope" -> new = []).
Proof.
  destruct (erases_handle env intent entities user_text s w tr) as [new Hr].
  exists new. split; [exact Hr|].
  pose proof (handle_calls intent entities user_text s w tr) as Hwp.
  unfold wp in Hwp. unfold records in Hr. rewrite Hr in Hwp.
  destruct (handle env intent entities user_text s w) as [[o s'] w'].
  destruct Hwp as (new' & E & H). cbn [snd] in E. apply app_inv_head in E. by subst.
Qed.

End Discipline.
End TraceFacts.

(** ** The domain gate *)

Module GateFacts.
Import Text TextFacts Dialogue MachineFacts DomainGate GateSpec.
Import EntityExtractor ExtractorFacts.

Lemma starts_with_l_app p rest : starts_with_l p (p ++ rest) = true.
Proof.
  induction p as [|a p IH]; [done|]. cbn [app starts_with_l].
  by rewrite (proj2 (ceqb_eq a a) eq_refl).
Qed.

Lemma contains_l_occurs k l : contains_l k l = true <-> occurs k l.
Proof.
  split.
  - induction l as [|c l IH]; cbn [contains_l]; intros H; apply orb_true_iff in H as [H|H].
    + apply starts_with_l_prefix in H as [rest ->]. by exists [], rest.
    + done.
    + apply starts_with_l_prefix in H as [rest ->]. by exists [], rest.
    + destruct (IH H) as (pre & post & ->). by exists (c :: pre), post.
  - intros (pre & post & ->). induction pre as [|c pre IH].
    + cbn [app]. destruct (k ++ post) eqn:E; cbn [contains_l]; rewrite <- E, starts_with_l_app; done.
    + cbn [app contains_l]. rewrite IH. apply orb_true_r.
Qed.

Lemma existsb_elem {A} (f : A -> bool) (l : list A) :
  existsb f l = true <-> exists x, x ∈ l /\ f x = true.
Proof.
  rewrite existsb_exists. split; intros (x & H1 & H2); exists x; split; try done;
    by apply list_elem_of_In.
Qed.

Lemma gate_iff (text : string) (entities : list Entity) :
  is_banking_query text entities = true <->
  names_keyword text \/ exists e, e ∈ entities /\ entity e ∈ BANK_ENTITIES.
Proof.
  unfold is_banking_query, names_keyword. cbv zeta.
  rewrite orb_true_iff, !existsb_elem.
  assert (forall k, contains (lower text) k = true <->
                    occurs (chars k) (map to_lower (chars text))) as Hk.
  { intros k. unfold contains. rewrite lower_chars. apply contains_l_occurs. }
  split; intros [(k & Hin & H)|(e & He & H)].
  - left. exists k. split; [done|]. by apply Hk.
  - right. exists e. split; [done|]. by apply bool_decide_eq_true in H.
  - left. exists k. split; [done|]. by apply Hk.
  - right. exists e. split; [done|]. by apply bool_decide_eq_true.
Qed.

(** X7. The domain gate.  A text passes [is_banking_query] exactly when one
    of the fifteen keywords occurs in its lower-cased form (as a substring,
    so also inside a longer word) or an entity has one of the kinds
    ACCOUNT_NUMBER, AMOUNT, CARD_TYPE, ACCOUNT_TYPE.  On the entities the
    extractor gives for the text itself, the entity signal is an account
    number or an amount: a transaction id alone does not pass the gate. *)
Theorem gate_is_keyword_or_entity (text : string) (entities : list Entity) :
  (is_banking_query text entities = true <->
   names_keyword text \/ exists e, e ∈ entities /\ entity e ∈ BANK_ENTITIES) /\
  (is_banking_query text (extract text) = true <->
   names_keyword text \/
   exists e, e ∈ extract text /\ (entity e = "ACCOUNT_NUMBER" \/ entity e = "AMOUNT")) /\
  ((forall e, e ∈ entities -> entity e = "TXN_ID") -> ~ names_keyword text ->
   is_banking_query text entities = false).
Proof.
  split; [apply gate_iff|]. split.
  - rewrite gate_iff.
    split; (intros [Hn|(e & He & H)]; [by left|right]); exists e; (split; [done|]).
    + pose proof (extract_kinds _ _ He) as Hk. unfold BANK_ENTITIES in H.
      repeat (apply elem_of_cons in H as [H|H]; [auto|]); try (by apply elem_of_nil in H).
      all: rewrite H in Hk.
      all: repeat (apply elem_of_cons in Hk as [Hk|Hk]; [discriminate|]); by apply elem_of_nil in Hk.
    + unfold BANK_ENTITIES. destruct H as [-> | ->].
      * apply list_elem_of_here.
      * apply list_elem_of_further, list_elem_of_here.
  - intros Ht Hn. apply not_true_is_false. rewrite gate_iff. intros [H|(e & He & H)]; [done|].
    rewrite (Ht e He) in H. unfold BANK_ENTITIES in H.
    repeat (apply elem_of_cons in H as [H|H]; [discriminate|]). by apply elem_of_nil in H.
Qed.

End GateFacts.

(** ** The shape of an account match *)

Module AccountFacts.
Import Text TextFacts Regex RegexSpec RegexFacts EntityExtractor ExtractorSpec ExtractorFacts.
Import AccountSpec.

Lemma Lang_lit_first s rs w :
  Lang (cat (lit s :: rs)) w ->
  exists kw rest, w = kw ++ rest /\ lower (text kw) = lower s /\ Lang (cat rs) rest.
Proof.
  intros H. apply Lang_cat_cons in H as (kw & rest & -> & Hk & Hr).
  exists kw, rest. split; [done|]. split; [|done]. by apply lowered, Lang_lit.
Qed.

Lemma starts_with_keyword s rs w :
  Lang (cat (lit s :: rs)) w -> lower s ∈ account_keywords ->
  exists kw rest, w = kw ++ rest /\ lower (text kw) ∈ account_keywords.
Proof.
  intros H Hs. apply Lang_lit_first in H as (kw & rest & -> & Hk & _).
  exists kw, rest. by rewrite Hk.
Qed.

Lemma is_keyword s w :
  Lang (lit s) w -> lower s ∈ account_keywords ->
  exists kw rest, w = kw ++ rest /\ lower (text kw) ∈ account_keywords.
Proof.
  intros H Hs. exists w, []. rewrite app_nil_r. split; [done|].
  by rewrite (lowered _ s (Lang_lit _ _ H)).
Qed.

Lemma Lang_digits_end rs w :
  Lang (cat (RStar sep_chr :: RGroup 1 (RRep is_digit 4 24) :: rs)) w ->
  (forall x, Lang (cat rs) x -> x = []) ->
  exists mid d, w = mid ++ d /\ forallb is_digit d = true /\ 4 <= List.length d <= 24.
Proof.
  intros H Hrs. apply Lang_cat_cons in H as (mid & w1 & -> & _ & H).
  apply Lang_cat_cons in H as (d & w2 & -> & [Hd Hn] & H).
  apply Hrs in H as ->. rewrite app_nil_r. by exists mid, d.
Qed.

Lemma account_pattern_shape pat w :
  pat ∈ account_patterns -> Lang pat w -> keyword_then_digits w.
Proof.
  unfold account_patterns. intros Hp H.
  repeat (apply elem_of_cons in Hp as [->|Hp]); [| | |by apply elem_of_nil in Hp].
  - apply Lang_cat_cons in H as (w0 & w1 & -> & Hw0 & H). cbn in Hw0. subst w0.
    apply Lang_cat_cons in H as (a & w2 & -> & Ha & H).
    apply Lang_cat_cons in H as (w3 & w4 & -> & Hw3 & H). cbn in Hw3. subst w3.
    apply Lang_digits_end in H as (mid & d & -> & Hd & Hn); [|by intros x ->].
    assert (exists kw rest, a = kw ++ rest /\ lower (text kw) ∈ account_keywords)
      as (kw & rest & -> & Hk).
    { apply Lang_alt in Ha as (r & Hr & Ha).
      repeat (apply elem_of_cons in Hr as [->|Hr]); [..|by apply elem_of_nil in Hr];
        first [ refine (starts_with_keyword _ _ _ Ha _) | refine (is_keyword _ _ Ha _) ];
        unfold account_keywords; in_list. }
    exists kw, (rest ++ mid), d. cbn [app]. by rewrite <- !app_assoc.
  - apply Lang_cat_cons in H as (w0 & w1 & -> & Hw0 & H). cbn in Hw0. subst w0.
    apply Lang_lit_first in H as (kw & w2 & -> & Hk & H).
    apply Lang_cat_cons in H as (sp & w3 & -> & _ & H).
    apply Lang_cat_cons in H as (a & w4 & -> & _ & H).
    apply Lang_cat_cons in H as (w5 & w6 & -> & Hw5 & H). cbn in Hw5. subst w5.
    apply Lang_digits_end in H as (mid & d & -> & Hd & Hn); [|by intros x ->].
    exists kw, (sp ++ a ++ mid), d. cbn [app]. rewrite <- !app_assoc.
    split; [done|]. split; [|done]. rewrite Hk. in_list.
  - apply Lang_cat_cons in H as (w0 & w1 & -> & Hw0 & H). cbn in Hw0. subst w0.
    apply Lang_lit_first in H as (kw & w2 & -> & Hk & H).
    apply Lang_cat_cons in H as (o1 & w3 & -> & _ & H).
    apply Lang_cat_cons in H as (s1 & w4 & -> & _ & H).
    apply Lang_cat_cons in H as (o2 & w5 & -> & _ & H).
    apply Lang_cat_cons in H as (s2 & w6 & -> & _ & H).
    apply Lang_cat_cons in H as (d & w7 & -> & [Hd Hn] & H). cbn in H. subst w7.
    exists kw, (o1 ++ s1 ++ o2 ++ s2), d. cbn [app]. rewrite app_nil_r, <- !app_assoc.
    split; [done|]. split; [|done]. rewrite Hk. in_list.
Qed.

(** Every match of an account pattern starts with a keyword and ends with
    its digits. *)
Lemma account_candidate_shape s m :
  m ∈ account_candidates s ->
  keyword_then_digits (slice (m_start m) (m_end m) (chars s)).
Proof.
  intros H. unfold account_candidates in H.
  apply list_elem_of_In, in_concat in H as (l & Hl & Hm).
  apply in_map_iff in Hl as (pat & <- & Hp).
  apply list_elem_of_In in Hm, Hp.
  apply finditer_sound in Hm. by apply (account_pattern_shape pat).
Qed.

Lemma elem_of_slice a b (l : list ascii) c : c ∈ slice a b l -> c ∈ l.
Proof.
  unfold slice. intros H.
  rewrite <- (firstn_skipn a l), elem_of_app. right.
  rewrite <- (firstn_skipn (b - a) (skipn a l)), elem_of_app. by left.
Qed.

Lemma numeric_literal_digit w : numeric_literal w -> exists c, c ∈ w /\ is_digit c = true.
Proof. intros (d & rest & -> & Hd & _). exists d. split; [left|done]. Qed.

Lemma account_match_shape s sp e :
  (sp, e) ∈ extract_located s -> entity e = "ACCOUNT_NUMBER" ->
  keyword_then_digits (slice (fst sp) (snd sp) (chars s)).
Proof.
  intros He Hk. apply (from_candidates_extract s) in He as [_ (m & Hm & ->)].
  rewrite Hk in Hm. by apply account_candidate_shape.
Qed.

(** Without a digit there is no account number and no amount. *)
Lemma no_digit_txn_only s e :
  (forall c, c ∈ chars s -> is_digit c = false) ->
  e ∈ extract s -> entity e = "TXN_ID".
Proof.
  intros Hno He. apply extract_located_elem in He as [sp He].
  assert (forall c, c ∈ slice (fst sp) (snd sp) (chars s) -> is_digit c = false) as Hsl.
  { intros c Hc. by eapply Hno, elem_of_slice. }
  pose proof (from_candidates_extract s sp e He) as [Hkind (m & Hm & ->)].
  repeat (apply elem_of_cons in Hkind as [Hkind|Hkind]); [done| | |by apply elem_of_nil in Hkind];
    exfalso.
  - destruct (account_match_shape _ _ _ He Hkind) as (kw & mid & d & Heq & _ & Hd & Hn).
    destruct d as [|c d]; [cbn in Hn; lia|].
    cbn in Hd. apply andb_prop in Hd as [Hc _].
    rewrite (Hsl c) in Hc; [done|]. cbn [fst snd]. rewrite Heq.
    rewrite !elem_of_app. right. right. left.
  - rewrite Hkind in Hm.
    assert (exists c, c ∈ slice (m_start m) (m_end m) (chars s) /\ is_digit c = true)
      as (c & Hc & Hdig).
    { destruct (amount_candidate_shape s m Hm)
        as [(mk & ws & num & -> & _ & _ & Hnum)|(num & ws & mk & -> & _ & _ & Hnum)];
        apply numeric_literal_digit in Hnum as (c & Hc & Hdig); exists c;
        (split; [|done]); rewrite !elem_of_app; auto. }
    by rewrite (Hsl c Hc) in Hdig.
Qed.

(** X8. An account number needs a keyword and four digits: for every text,
    the match an [ACCOUNT_NUMBER] result was built from starts with
    "account", "acct", "a/c" or "to" (in any case) and ends with four to
    twenty-four digits; so a text with no digit yields transaction ids
    only. *)
Theorem account_number_needs_keyword_and_digits (s : string) :
  (forall sp e,
      (sp, e) ∈ extract_located s -> entity e = "ACCOUNT_NUMBER" ->
      keyword_then_digits (slice (fst sp) (snd sp) (chars s))) /\
  ((forall c, c ∈ chars s -> is_digit c = false) ->
   forall e, e ∈ extract s -> entity e = "TXN_ID").
Proof.
  split; [apply account_match_shape|]. intros Hno e. by apply no_digit_txn_only.
Qed.

End AccountFacts.

(** ** The chat turn of the page *)

Module AppFacts.
Import Text TextFacts Dialogue MachineSpec MachineFacts.
Import EntityExtractor ExtractorFacts DomainGate GateSpec GateFacts AccountFacts App.

(** *** A cancel word is no banking query *)

Lemma drop_while_split p l :
  exists pre, l = pre ++ drop_while p l /\ forallb p pre = true.
Proof.
  induction l as [|c t (pre & IH & Hp)]; [by exists []|]. cbn [drop_while].
  destruct (p c) eqn:E; [|by exists []].
  exists (c :: pre). cbn. rewrite E. split; [by f_equal|done].
Qed.

(** A text is its trimmed form between two runs of blanks. *)
Lemma strip_l_split l :
  exists A C, l = A ++ strip_l l ++ C /\
    forallb is_space A = true /\ forallb is_space C = true.
Proof.
  unfold strip_l, lstrip_l, rstrip_l.
  destruct (drop_while_split is_space l) as (A & HA & HsA).
  destruct (drop_while_split is_space (rev (drop_while is_space l))) as (P & HP & HsP).
  exists A, (rev P). split; [|split; [done|]].
  - rewrite <- rev_app_distr, <- HP, rev_involutive. exact HA.
  - rewrite forallb_forall in *. intros x Hx. apply HsP. by apply in_rev.
Qed.

Lemma space_not_upper c : is_space c = true -> is_upper c = false.
Proof.
  unfold is_space, is_upper. intros H.
  apply andb_false_iff. apply orb_prop in H as [H|H];
    apply andb_prop in H as [H1 H2]; apply Nat.leb_le in H1, H2;
    left; apply Nat.leb_gt; lia.
Qed.

Lemma space_not_digit c : is_space c = true -> is_digit c = false.
Proof.
  unfold is_space, is_digit. intros H.
  apply andb_false_iff. apply orb_prop in H as [H|H];
    apply andb_prop in H as [H1 H2]; apply Nat.leb_le in H1, H2;
    left; apply Nat.leb_gt; lia.
Qed.

Lemma digit_not_upper c : is_digit c = true -> is_upper c = false.
Proof.
  unfold is_digit, is_upper. intros H. apply andb_prop in H as [H1 H2].
  apply Nat.leb_le in H1, H2. apply andb_false_iff. left. apply Nat.leb_gt. lia.
Qed.

Lemma lower_spaces l : forallb is_space l = true -> map to_lower l = l.
Proof.
  induction l as [|c l IH]; [done|]. cbn. intros H. apply andb_prop in H as [Hc Hl].
  rewrite IH by done. unfold to_lower. by rewrite space_not_upper.
Qed.

Lemma starts_with_l_spaces k : forall X C,
  forallb is_space C = true -> visible k = true ->
  starts_with_l k (X ++ C) = starts_with_l k X.
Proof.
  induction k as [|a k IH]; intros X C HC Hk; [by destruct X, C|].
  cbn in Hk. apply andb_prop in Hk as [Ha Hk]. apply negb_true_iff in Ha.
  destruct X as [|x X]; cbn [app starts_with_l].
  - destruct C as [|c C]; [done|]. cbn in HC. apply andb_prop in HC as [Hc _].
    assert (ceqb a c = false) as ->; [|done].
    apply ceqb_neq. intros ->. congruence.
  - by rewrite IH.
Qed.

Lemma contains_l_spaces k C :
  k <> [] -> visible k = true -> forallb is_space C = true -> contains_l k C = false.
Proof.
  intros Hne Hk HC. destruct k as [|a k]; [done|].
  cbn in Hk. apply andb_prop in Hk as [Ha _]. apply negb_true_iff in Ha.
  induction C as [|c C IH]; [done|].
  cbn in HC. apply andb_prop in HC as [Hc HC].
  cbn [contains_l starts_with_l]. rewrite IH by done.
  assert (ceqb a c = false) as ->; [|done].
  apply ceqb_neq. intros ->. congruence.
Qed.

Lemma contains_l_spaces_after k B C :
  k <> [] -> visible k = true -> forallb is_space C = true ->
  contains_l k (B ++ C) = contains_l k B.
Proof.
  intros Hne Hk HC. induction B as [|b B IH].
  - cbn [app]. rewrite contains_l_spaces by done. by destruct k.
  - change ((b :: B) ++ C) with (b :: (B ++ C)). cbn [contains_l]. rewrite IH.
    by rewrite <- (starts_with_l_spaces k (b :: B) C).
Qed.

Lemma contains_l_spaces_before k A l :
  k <> [] -> visible k = true -> forallb is_space A = true ->
  contains_l k (A ++ l) = contains_l k l.
Proof.
  intros Hne Hk HA. induction A as [|a A IH]; [done|].
  cbn in HA. apply andb_prop in HA as [Ha HA].
  cbn [app contains_l]. rewrite IH by done.
  destruct k as [|x k]; [done|]. cbn in Hk. apply andb_prop in Hk as [Hx _].
  apply negb_true_iff in Hx. cbn [starts_with_l].
  assert (ceqb x a = false) as ->; [|done].
  apply ceqb_neq. intros ->. congruence.
Qed.

(** The keywords of the gate are visible words, none of which occurs in a
    cancel word; and no cancel word has a digit. *)
Lemma keywords_apart_from_cancel :
  forallb (fun k =>
             negb (bool_decide (chars k = [])) && visible (chars k) &&
             forallb (fun word => negb (contains_l (chars k) (chars word)))
                     ["cancel"; "stop"; "exit"])
          BANK_KEYWORDS = true /\
  forallb (fun word => forallb (fun c => negb (is_digit c)) (chars word))
          ["cancel"; "stop"; "exit"] = true.
Proof. split; vm_compute; reflexivity. Qed.

Lemma cancel_text_shape u :
  is_cancel (strip u) = true ->
  exists A B C word,
    chars u = A ++ B ++ C /\ forallb is_space A = true /\ forallb is_space C = true /\
    map to_lower B = chars word /\ word ∈ ["cancel"; "stop"; "exit"].
Proof.
  unfold is_cancel. intros H. apply bool_decide_eq_true in H.
  destruct (strip_l_split (chars u)) as (A & C & Heq & HA & HC).
  exists A, (strip_l (chars u)), C, (lower (strip u)).
  split; [done|]. split; [done|]. split; [done|]. split; [|done].
  unfold strip. by rewrite lower_text, chars_text.
Qed.

Lemma cancel_names_no_keyword u :
  is_cancel (strip u) = true -> ~ names_keyword u.
Proof.
  intros H (k & Hk & Ho).
  destruct (cancel_text_shape u H) as (A & B & C & word & Heq & HA & HC & HB & Hw).
  apply contains_l_occurs in Ho.
  destruct keywords_apart_from_cancel as [Hall _].
  rewrite forallb_forall in Hall. specialize (Hall k (proj1 (list_elem_of_In _ _) Hk)).
  apply andb_prop in Hall as [Hall Hwords]. apply andb_prop in Hall as [Hne Hvis].
  apply negb_true_iff, bool_decide_eq_false in Hne.
  rewrite forallb_forall in Hwords.
  specialize (Hwords word (proj1 (list_elem_of_In _ _) Hw)).
  apply negb_true_iff in Hwords.
  rewrite Heq, !map_app, HB, (lower_spaces A), (lower_spaces C) in Ho by done.
  rewrite contains_l_spaces_before, contains_l_spaces_after in Ho by done.
  congruence.
Qed.

Lemma cancel_has_no_digit u c :
  is_cancel (strip u) = true -> c ∈ chars u -> is_digit c = false.
Proof.
  intros H Hc.
  destruct (cancel_text_shape u H) as (A & B & C & word & Heq & HA & HC & HB & Hw).
  rewrite Heq, !elem_of_app in Hc. rewrite forallb_forall in HA, HC.
  destruct Hc as [Hc|[Hc|Hc]].
  - apply space_not_digit, HA. by apply list_elem_of_In.
  - destruct (is_digit c) eqn:Ed; [exfalso|done].
    assert (c ∈ chars word) as Hin.
    { rewrite <- HB. apply list_elem_of_fmap. exists c. split; [|done].
      unfold to_lower. by rewrite digit_not_upper. }
    destruct keywords_apart_from_cancel as [_ Hall].
    rewrite forallb_forall in Hall. specialize (Hall word (proj1 (list_elem_of_In _ _) Hw)).
    rewrite forallb_forall in Hall. specialize (Hall c (proj1 (list_elem_of_In _ _) Hin)).
    by rewrite Ed in Hall.
  - apply space_not_digit, HC. by apply list_elem_of_In.
Qed.

Lemma cancel_not_banking u :
  is_cancel (strip u) = true -> is_banking_query u (extract u) = false.
Proof.
  intros H. apply not_true_is_false. rewrite gate_iff. intros [Hk|(e & He & Hb)].
  - by apply (cancel_names_no_keyword u).
  - rewrite (no_digit_txn_only u e) in Hb; [|by intros c; apply cancel_has_no_digit|done].
    unfold BANK_ENTITIES in Hb.
    repeat (apply elem_of_cons in Hb as [Hb|Hb]; [discriminate|]). by apply elem_of_nil in Hb.
Qed.

Section Page.
Context {W : Type} (sv : Services W).

Lemma handle_none intent entities user_text (s : DM) (w : W) :
  wp (handle (collaborators sv) intent entities user_text)
     (fun o _ _ => o = Ok None ->
                   intent = "out_of_scope" /\ is_cancel (strip user_text) = false) s w.
Proof.
  unfold handle. wp_run; try done.
  all: try (intros _; split; [by apply String.eqb_eq|done]).
  all: unfold wp.
  all: match goal with |- context [?m ?s0 ?w0] =>
         lazymatch type of (m s0 w0) with
         | (Outcome string * DM * W)%type => destruct (m s0 w0) as [[[?|?] ?] ?]
         end
       end; done.
Qed.

Lemma handle_deferred entities user_text (s : DM) (w : W) :
  is_cancel (strip user_text) = false ->
  handle (collaborators sv) "out_of_scope" entities user_text s w = (Ok None, idle, w).
Proof.
  intros Hc. unfold handle, bind, read. rewrite Hc. by destruct (in_flow s).
Qed.

Lemma turn_not_empty user_input :
  user_input <> "" -> String.eqb user_input "" = false.
Proof. intros H. by apply String.eqb_neq. Qed.


(** X10. A cancel word on the page.  No cancel word passes the domain
    gate: it names no banking keyword and yields no account number and no
    amount.  So the page cancels only inside a flow, where [handle] resets
    the dialogue manager and the cancellation message is the reply;
    outside a flow a cancel word is answered by the LLM, never by the
    cancellation message. *)
Theorem cancel_on_the_page
    (user_input : string) (ss : Session) (w w1 : W)
    (top : string * Q) (rest : list (string * Q)) :
  is_cancel (strip user_input) = true ->
  predict sv user_input 1 w = (Ok (top :: rest), w1) ->
  is_banking_query user_input (extract user_input) = false /\
  (in_flow (dm ss) = true ->
   chatbot_turn sv user_input ss w =
     (Done tt,
      {| dm := idle;
         messages := messages ss ++ [("user", user_input); ("assistant", MSG_CANCELLED)];
         screen := screen ss ++ [ChatMessage "user" user_input;
                                 ChatMessage "assistant" MSG_CANCELLED] |}, w1)) /\
  (in_flow (dm ss) = false ->
   forall answer w2,
     generate sv user_input w1 = (Ok answer, w2) ->
     chatbot_turn sv user_input ss w =
       (Done tt,
        {| dm := idle;
           messages := messages ss ++ [("user", user_input);
                                       ("assistant", LLM_HEADER +:+ answer)];
           screen := screen ss ++ [ChatMessage "user" user_input;
                                   Spinner SPINNER_LABEL;
                                   ChatMessage "assistant" (LLM_HEADER +:+ answer)] |},
        w2)).
Proof.
  intros Hc Hp. pose proof (cancel_not_banking user_input Hc) as Hb.
  assert (String.eqb user_input "" = false) as Hne.
  { apply String.eqb_neq. intros ->. discriminate. }
  split; [done|]. split.
  - intros Hf. unfold chatbot_turn, process. rewrite Hne, Hp.
    cbn [fst snd dm append_message draw]. rewrite Hf.
    unfold handle_and_show, handle. cbn [dm]. rewrite Hc.
    cbn. unfold draw, append_message, set_dm. cbn. by rewrite <- !app_assoc.
  - intros Hf answer w2 Hg. unfold chatbot_turn, process. rewrite Hne, Hp.
    cbn [fst snd dm append_message draw]. rewrite Hf, Hb. cbn [negb].
    rewrite Hg. unfold draw, append_message, set_dm. cbn. by rewrite <- !app_assoc.
Qed.

(** X11. What a turn adds to the session.  A turn on a non-empty input
    appends the user's message to the messages and draws it first; it
    appends at most one message of the assistant, and exactly one when the
    turn ends without an exception: that message is then the last thing
    drawn, as a chat message, or as an error box when [handle] reported an
    error, the stored message being the error text behind a warning sign.
    Nothing is ever removed.  The dialogue manager of the session stays in
    a state that [handle] can reach from the initial one. *)
Theorem turn_extends_the_session
    (user_input : string) (ss ss' : Session) (w w' : W) (r : Result unit) :
  user_input <> "" ->
  chatbot_turn sv user_input ss w = (r, ss', w') ->
  (exists tail drawn,
     messages ss' = messages ss ++ ("user", user_input) :: tail /\
     screen ss' = screen ss ++ ChatMessage "user" user_input :: drawn /\
     match r with
     | Done _ =>
         exists content,
           tail = [("assistant", content)] /\
           (last drawn = Some (ChatMessage "assistant" content) \/
            exists err, content = "⚠️ " +:+ err /\ last drawn = Some (ErrorBox err))
     | Failed _ => tail = []
     end) /\
  (reachable (collaborators sv) (dm ss) -> reachable (collaborators sv) (dm ss')).
Proof.
  intros Hne. apply turn_not_empty in Hne.
  unfold chatbot_turn, process. rewrite Hne.
  assert (forall intent entities s0 r0 s1 w0 w2 tail0 drawn0,
            messages s0 = messages ss ++ ("user", user_input) :: tail0 ->
            screen s0 = screen ss ++ ChatMessage "user" user_input :: drawn0 ->
            tail0 = [] ->
            (reachable (collaborators sv) (dm ss) -> reachable (collaborators sv) (dm s0)) ->
            handle_and_show sv intent entities user_input s0 w0 = (r0, s1, w2) ->
            (exists tail drawn,
               messages s1 = messages ss ++ ("user", user_input) :: tail /\
               screen s1 = screen ss ++ ChatMessage "user" user_input :: drawn /\
               match r0 with
               | Done _ =>
                   exists content,
                     tail = [("assistant", content)] /\
                     (last drawn = Some (ChatMessage "assistant" content) \/
                      exists err, content = "⚠️ " +:+ err /\ last drawn = Some (ErrorBox err))
               | Failed _ => tail = []
               end) /\
            (reachable (collaborators sv) (dm ss) -> reachable (collaborators sv) (dm s1))) as Hh.
  { intros intent entities s0 r0 s1 w0 w2 tail0 drawn0 Hm Hs -> Hr0.
    unfold handle_and_show.
    destruct (handle (collaborators sv) intent entities user_input (dm s0) w0)
      as [[[[reply|]|e] d] w3] eqn:Eh.
    - unfold show_reply. destruct (startswith reply "__ERROR__:"); intros [= <- <- <-].
      + split; [|intros Hr; eapply reach_turn; [by apply Hr0|exact Eh]].
        exists [("assistant", "⚠️ " +:+ replace_del "__ERROR__:" reply)],
               (drawn0 ++ [ErrorBox (replace_del "__ERROR__:" reply)]).
        cbn. rewrite Hm, Hs, <- !app_assoc. split; [done|]. split; [done|].
        eexists. split; [done|]. right. eexists. split; [done|]. by rewrite last_snoc.
      + split; [|intros Hr; eapply reach_turn; [by apply Hr0|exact Eh]].
        exists [("assistant", reply)], (drawn0 ++ [ChatMessage "assistant" reply]).
        cbn. rewrite Hm, Hs, <- !app_assoc. split; [done|]. split; [done|].
        eexists. split; [done|]. left. by rewrite last_snoc.
    - cbn. intros [= <- <- <-].
      split; [|intros Hr; eapply reach_turn; [by apply Hr0|exact Eh]].
      exists [], drawn0. cbn. by rewrite Hm, Hs.
    - intros [= <- <- <-].
      split; [|intros Hr; eapply reach_turn; [by apply Hr0|exact Eh]].
      exists [], drawn0. cbn. by rewrite Hm, Hs. }
  destruct (predict sv user_input 1 w) as [[[|top rest]|e] w1].
  - intros [= <- <- <-]. split; [|done]. by exists [], [].
  - cbn [fst snd dm append_message draw].
    destruct (in_flow (dm ss)).
    + apply (Hh _ _ _ _ _ _ _ [] []); done.
    + destruct (is_banking_query user_input (extract user_input)); cbn [negb].
      * apply (Hh _ _ _ _ _ _ _ [] []); done.
      * destruct (generate sv user_input w1) as [[answer|e] w2]; intros [= <- <- <-].
        -- split; [|intros _; apply reach_init].
           exists [("assistant", LLM_HEADER +:+ answer)],
                  [Spinner SPINNER_LABEL; ChatMessage "assistant" (LLM_HEADER +:+ answer)].
           cbn. rewrite <- !app_assoc. split; [done|]. split; [done|].
           eexists. split; [done|]. by left.
        -- split; [|intros _; apply reach_init].
           exists [], [Spinner SPINNER_LABEL]. cbn. by rewrite <- !app_assoc.
  - intros [= <- <- <-]. split; [|done]. by exists [], [].
Qed.

End Page.

End AppFacts.

(** ** Runs on the sample bank and the sample page *)

Module SampleRuns.
Import Text TextFacts Dialogue MachineSpec SampleBank MachineFacts.
Import EntityExtractor DomainGate App SamplePage FlowSpec FlowFacts AppFacts.


(** A transfer request with the sender and the amount in it, read by the
    extractor. *)
Lemma transfer_entities_skip_prompts_witness :
  let request := "transfer Rs 500 from account 1234567890" in
  handle bank "transfer_money" (extract request) request idle open_bank
    = (Ok (Some MSG_ASK_PASSWORD),
       {| active_intent := Some "transfer_money";
          slots := <["amount" := VInt 500]> {[ "from_account" := VStr (strip "1234567890") ]};
          awaiting := Some "password"; in_flow := true |}, open_bank).
Proof.
  intros request.
  refine (transfer_entities_skip_prompts bank (extract request) request idle
            open_bank open_bank "1234567890" "500" 500 alice _ _ _ _ _ _ _).
  - reflexivity.
  - vm_compute. reflexivity.
  - change (extract request)
      with [mkEntity "ACCOUNT_NUMBER" "1234567890"; mkEntity "AMOUNT" "500"].
    intros e He _.
    repeat (apply elem_of_cons in He as [->|He]; [vm_compute; by eexists|]).
    by apply elem_of_nil in He.
  - vm_compute. reflexivity.
  - vm_compute. reflexivity.
  - vm_compute. reflexivity.
  - vm_compute. reflexivity.
Defined.



(** The cancel word in the middle of a transfer. *)
Lemma cancel_on_the_page_witness :
  chatbot_turn page " Cancel " mid_transfer open_bank
    = (Done tt,
       {| dm := idle;
          messages := messages mid_transfer ++
                      [("user", " Cancel "); ("assistant", MSG_CANCELLED)];
          screen := screen mid_transfer ++
                    [ChatMessage "user" " Cancel ";
                     ChatMessage "assistant" MSG_CANCELLED] |}, open_bank).
Proof.
  refine (proj1 (proj2 (cancel_on_the_page page " Cancel " mid_transfer open_bank open_bank
                          ("out_of_scope", 9 # 10) [] _ _)) _).
  - vm_compute. reflexivity.
  - vm_compute. reflexivity.
  - reflexivity.
Defined.

(** The amount typed in the middle of a transfer. *)
Lemma turn_extends_the_session_witness :
  let after := snd (fst (chatbot_turn page "transfer 500" mid_transfer open_bank)) in
  reachable steady_bank (dm after).
Proof.
  intros after.
  refine (proj2 (turn_extends_the_session page "transfer 500" mid_transfer after
                   open_bank open_bank (Done tt) _ _) _).
  - discriminate.
  - vm_compute. reflexivity.
  - by apply awaiting_amount_reachable.
Defined.

End SampleRuns.
